(** * entropix/model.py: the quantized-attention forward pass

    A shallow embedding of [src/entropix/model.py] (JAX) and the
    properties its specification states about it.

    Conventions of the embedding.
    - A jax array is a [tensor]: its [shape] and an indexing function
      [get]; only in-bounds indices are meaningful.
    - A float32/float16 element is an [fval]: a finite value carried as an
      exact rational, or one of the IEEE specials; the specials follow
      IEEE-754 and signed zeros are not distinguished.  Float32
      arithmetic on finite values is exact: its rounding is left out,
      and the statements proved on it are about shapes, exceptions,
      indices and relations between the values the program computes.
      Rounding is modelled where a statement turns on it: [round_to]
      rounds a rational to a [format]; the float16 casts of line 62 of
      [sageattn] are [cast binary16]; and [quantize_int8_f32] is the
      quantizer with its two float32 divisions rounded, on which the
      round-trip bound is stated.
    - An int8 element is a [Z] kept in [-128, 127] by [wrap8].
    - A Python exception is [Raise e]; every operation that can raise
      returns a [result].
    - [exp] and [sqrt] of the float library are the fields of [FloatLib];
      nothing is assumed about them unless a statement says so. *)

From Stdlib Require Import List ZArith QArith Qabs Qround Qpower Lia Bool Arith PeanoNat.
From Stdlib Require Import Lqa.
Import ListNotations.

Set Implicit Arguments.

(** ** Exceptions *)

Inductive error : Type :=
| BroadcastError      (* incompatible shapes for broadcasting *)
| ContractionError    (* matmul / dot: contracted dimensions differ *)
| RankError           (* operand has too few dimensions *)
| AxisError           (* axis out of range, or not a permutation *)
| ReshapeError        (* cannot reshape: sizes do not divide *)
| EmptyReduction      (* max over an empty axis *)
| IndexError          (* Python list / axis index out of range *)
| UnboundLocalError   (* variable read before any assignment *)
| ZeroDivisionError   (* integer division by zero *)
| CapacityError.      (* cache capacity exceeded *)

Inductive result (A : Type) : Type :=
| Ok (a : A)
| Raise (e : error).

Arguments Ok {A} a.
Arguments Raise {A} e.

Definition bind {A B} (r : result A) (k : A -> result B) : result B :=
  match r with
  | Ok a => k a
  | Raise e => Raise e
  end.

Declare Scope result_scope.
Delimit Scope result_scope with result.
Notation "x <- e ;; k" := (bind e (fun x => k))
  (at level 61, e at next level, right associativity) : result_scope.
Notation "' p <- e ;; k" := (bind e (fun x => let p := x in k))
  (at level 61, p pattern, e at next level, right associativity) : result_scope.
Open Scope result_scope.

Definition is_ok {A} (r : result A) : bool :=
  match r with Ok _ => true | Raise _ => false end.

(** ** Float values *)

Inductive fval : Type :=
| Fin (q : Q)
| PInf
| NInf
| NaN.

Definition fzero : fval := Fin 0.
Definition fone : fval := Fin 1.

Definition is_finite (x : fval) : bool :=
  match x with Fin _ => true | _ => false end.

Definition Qsgn_pos (q : Q) : bool := (0 <? Qnum q)%Z.
Definition Qsgn_neg (q : Q) : bool := (Qnum q <? 0)%Z.
Definition Qis_zero (q : Q) : bool := (Qnum q =? 0)%Z.

Definition fneg (x : fval) : fval :=
  match x with
  | Fin q => Fin (- q)
  | PInf => NInf
  | NInf => PInf
  | NaN => NaN
  end.

Definition fadd (x y : fval) : fval :=
  match x, y with
  | NaN, _ | _, NaN => NaN
  | Fin a, Fin b => Fin (a + b)
  | PInf, NInf | NInf, PInf => NaN
  | PInf, _ | _, PInf => PInf
  | NInf, _ | _, NInf => NInf
  end.

Definition fsub (x y : fval) : fval := fadd x (fneg y).

(** The infinity of the sign of [q], NaN for zero (inf * 0). *)
Definition inf_signed (pos : bool) (q : Q) : fval :=
  if Qis_zero q then NaN
  else if Bool.eqb pos (Qsgn_pos q) then PInf else NInf.

Definition fmul (x y : fval) : fval :=
  match x, y with
  | NaN, _ | _, NaN => NaN
  | Fin a, Fin b => Fin (a * b)
  | PInf, Fin b | Fin b, PInf => inf_signed true b
  | NInf, Fin b | Fin b, NInf => inf_signed false b
  | PInf, PInf | NInf, NInf => PInf
  | PInf, NInf | NInf, PInf => NInf
  end.

Definition fdiv (x y : fval) : fval :=
  match x, y with
  | NaN, _ | _, NaN => NaN
  | Fin a, Fin b =>
      if Qis_zero b then
        (if Qis_zero a then NaN else if Qsgn_pos a then PInf else NInf)
      else Fin (a / b)
  | Fin _, (PInf | NInf) => Fin 0
  | PInf, Fin b => if Qsgn_neg b then NInf else PInf
  | NInf, Fin b => if Qsgn_neg b then PInf else NInf
  | (PInf | NInf), (PInf | NInf) => NaN
  end.

Definition fabs (x : fval) : fval :=
  match x with
  | Fin q => Fin (Qabs q)
  | PInf | NInf => PInf
  | NaN => NaN
  end.

(** [jnp.maximum]: NaN propagates. *)
Definition fmax (x y : fval) : fval :=
  match x, y with
  | NaN, _ | _, NaN => NaN
  | PInf, _ | _, PInf => PInf
  | NInf, z | z, NInf => z
  | Fin a, Fin b => if Qle_bool a b then Fin b else Fin a
  end.

(** Equality of float values as numbers. *)
Definition feq (x y : fval) : Prop :=
  match x, y with
  | Fin a, Fin b => a == b
  | PInf, PInf | NInf, NInf | NaN, NaN => True
  | _, _ => False
  end.

Definition feqb (x y : fval) : bool :=
  match x, y with
  | Fin a, Fin b => Qeq_bool a b
  | PInf, PInf | NInf, NInf | NaN, NaN => true
  | _, _ => false
  end.

(** [jnp.round]: to the nearest integer, ties to the even one. *)
Definition round_half_even (x : Q) : Z :=
  let f := Qfloor x in
  match Qcompare (x - inject_Z f) (1 # 2) with
  | Lt => f
  | Gt => (f + 1)%Z
  | Eq => if Z.even f then f else (f + 1)%Z
  end.

Definition fround (x : fval) : fval :=
  match x with
  | Fin q => Fin (inject_Z (round_half_even q))
  | other => other
  end.

(** ** The float formats *)

(** A binary floating-point format: [prec] significant bits and binade
    exponents from [emin] to [emax]; below [2^emin] the values are
    subnormal, spaced by [2^(emin - prec + 1)]. *)
Record format : Type := mkFormat { prec : Z; emin : Z; emax : Z }.

Definition binary32 : format := mkFormat 24 (-126) 127.
Definition binary16 : format := mkFormat 11 (-14) 15.

Definition pow2 (e : Z) : Q := Qpower 2 e.

(** The exponent of the binade of a positive [x]: the integer part of
    its base-2 logarithm. *)
Definition ilog2 (x : Q) : Z :=
  let e0 := (Z.log2 (Qnum x) - Z.log2 (Zpos (Qden x)))%Z in
  if Qle_bool (pow2 e0) x then e0 else (e0 - 1)%Z.

(** The spacing of the format's values around [x]. *)
Definition ulp_of (f : format) (x : Q) : Q :=
  pow2 (Z.max (ilog2 (Qabs x)) (emin f) - prec f + 1).

(** Rounding to the nearest value of the format, ties to the even
    significand; a result past the largest binade is the infinity. *)
Definition round_to (f : format) (x : Q) : fval :=
  if Qis_zero x then Fin 0
  else
    let r := (inject_Z (round_half_even (x / ulp_of f x)) * ulp_of f x)%Q in
    if Qle_bool (pow2 (emax f + 1)) (Qabs r)
    then (if Qsgn_pos x then PInf else NInf)
    else Fin r.

(** [x.astype(f)] of a float of a wider format. *)
Definition cast (f : format) (x : fval) : fval :=
  match x with
  | Fin q => round_to f q
  | other => other
  end.

(** ** int8 *)

Definition wrap8 (z : Z) : Z := ((z + 128) mod 256 - 128)%Z.
Definition add8 (a b : Z) : Z := wrap8 (a + b).
Definition mul8 (a b : Z) : Z := wrap8 (a * b).

Definition clamp8 (z : Z) : Z := Z.max (-128) (Z.min 127 z).

(** [x.astype(jnp.int8)] of a float that holds an integer (the output of
    [jnp.round]): XLA's convert saturates and sends NaN to 0. *)
Definition to_int8 (x : fval) : Z :=
  match x with
  | Fin q => clamp8 (Qfloor q)
  | PInf => 127%Z
  | NInf => (-128)%Z
  | NaN => 0%Z
  end.

(** [x.astype(jnp.float32)] of an int8: exact. *)
Definition of_int8 (z : Z) : fval := Fin (inject_Z z).

(** ** The float library's transcendental functions *)

Class FloatLib : Type := {
  qexp : Q -> Q;       (* exp on a finite argument *)
  qsqrt : Q -> Q       (* sqrt on a finite non-negative argument *)
}.

Section Transcendental.
Context {FL : FloatLib}.

Definition fexp (x : fval) : fval :=
  match x with
  | Fin q => Fin (qexp q)
  | PInf => PInf
  | NInf => Fin 0
  | NaN => NaN
  end.

Definition fsqrt (x : fval) : fval :=
  match x with
  | Fin q => if Qsgn_neg q then NaN else Fin (qsqrt q)
  | PInf => PInf
  | NInf => NaN
  | NaN => NaN
  end.

(** [jax.lax.rsqrt]. *)
Definition frsqrt (x : fval) : fval := fdiv fone (fsqrt x).

(** [jax.nn.silu x = x * sigmoid x], [sigmoid x = 1 / (1 + exp (-x))]. *)
Definition fsilu (x : fval) : fval :=
  fmul x (fdiv fone (fadd fone (fexp (fneg x)))).
End Transcendental.

(** ** Tensors *)

Open Scope nat_scope.

Record tensor (A : Type) : Type := mkT {
  shape : list nat;
  get : list nat -> A
}.

Arguments mkT {A} shape get.

Definition rank {A} (t : tensor A) : nat := length (shape t).

(** [idx] addresses an element of an array of shape [s]. *)
Fixpoint inb (s idx : list nat) : bool :=
  match s, idx with
  | [], [] => true
  | d :: s', i :: idx' => (i <? d) && inb s' idx'
  | _, _ => false
  end.

(** Two arrays are the same array: same shape, same elements. *)
Definition teq {A} (R : A -> A -> Prop) (x y : tensor A) : Prop :=
  shape x = shape y /\
  forall idx, inb (shape x) idx = true -> R (get x idx) (get y idx).

Definition tmap {A B} (f : A -> B) (t : tensor A) : tensor B :=
  mkT (shape t) (fun idx => f (get t idx)).

(** Element [i][j] of a nested Python list, and a nested list of [ncols]
    columns as a rank-2 array (used for concrete inputs). *)
Definition nth2 {A} (d : A) (rows : list (list A)) (i j : nat) : A :=
  nth j (nth i rows []) d.

Definition of_rows {A} (d : A) (ncols : nat) (rows : list (list A)) : tensor A :=
  mkT [length rows; ncols]
      (fun idx => nth2 d rows (nth 0 idx 0) (nth 1 idx 0)).

(** [x[None, None, :, :]]: a matrix as a [1, 1, r, c] array. *)
Definition as_bh {A} (t : tensor A) : tensor A :=
  mkT (1 :: 1 :: shape t) (fun idx => get t (skipn 2 idx)).

Fixpoint shape_eqb (s1 s2 : list nat) : bool :=
  match s1, s2 with
  | [], [] => true
  | a :: s1', b :: s2' => (a =? b) && shape_eqb s1' s2'
  | _, _ => false
  end.

(** *** Broadcasting *)

Definition bdim (a b : nat) : result nat :=
  if a =? b then Ok a
  else if a =? 1 then Ok b
  else if b =? 1 then Ok a
  else Raise BroadcastError.

(** Shapes are aligned at their last axis: work on the reversed lists. *)
Fixpoint bshape_rev (r1 r2 : list nat) : result (list nat) :=
  match r1, r2 with
  | [], r => Ok r
  | r, [] => Ok r
  | a :: r1', b :: r2' =>
      d <- bdim a b ;;
      r <- bshape_rev r1' r2' ;;
      Ok (d :: r)
  end.

Definition broadcast_shapes (s1 s2 : list nat) : result (list nat) :=
  r <- bshape_rev (rev s1) (rev s2) ;;
  Ok (rev r).

Fixpoint zero_unit_dims (s idx : list nat) : list nat :=
  match s, idx with
  | d :: s', i :: idx' => (if d =? 1 then 0 else i) :: zero_unit_dims s' idx'
  | _, _ => []
  end.

(** The index into an operand of shape [s] for the index [idx] into the
    broadcast result: drop the leading axes the operand lacks, and read
    a length-1 axis at 0. *)
Definition bindex (s idx : list nat) : list nat :=
  zero_unit_dims s (skipn (length idx - length s) idx).

Definition broadcast2 {A B C} (f : A -> B -> C)
  (x : tensor A) (y : tensor B) : result (tensor C) :=
  s <- broadcast_shapes (shape x) (shape y) ;;
  Ok (mkT s (fun idx => f (get x (bindex (shape x) idx))
                          (get y (bindex (shape y) idx)))).

(** *** Axes and reductions *)

(** A possibly negative axis number, as numpy normalises it. *)
Definition norm_axis (n : nat) (ax : Z) : result nat :=
  if ((0 <=? ax) && (ax <? Z.of_nat n))%Z then Ok (Z.to_nat ax)
  else if ((- Z.of_nat n <=? ax) && (ax <? 0))%Z then Ok (Z.to_nat (Z.of_nat n + ax))
  else Raise AxisError.

(** [l] with its [n]-th entry replaced by [v]. *)
Fixpoint upd (n v : nat) (l : list nat) : list nat :=
  match l, n with
  | [], _ => []
  | _ :: l', O => v :: l'
  | x :: l', S n' => x :: upd n' v l'
  end.

(** The elements along axis [a] through [idx]. *)
Definition lane {A} (t : tensor A) (a : nat) (idx : list nat) : list A :=
  map (fun k => get t (upd a k idx)) (seq 0 (nth a (shape t) 0)).

Definition reduce_keepdims {A B} (f : list A -> B) (ax : Z) (t : tensor A)
  : result (tensor B) :=
  a <- norm_axis (rank t) ax ;;
  Ok (mkT (upd a 1 (shape t)) (fun idx => f (lane t a idx))).

Definition fsum (l : list fval) : fval := fold_left fadd l fzero.

Definition fmean (l : list fval) : fval :=
  fdiv (fsum l) (Fin (inject_Z (Z.of_nat (length l)))).

Definition fmax_list (l : list fval) : fval :=
  match l with
  | [] => NaN
  | x :: l' => fold_left fmax l' x
  end.

(** [jnp.mean(x, axis=ax, keepdims=True)]. *)
Definition mean_keepdims (ax : Z) (t : tensor fval) : result (tensor fval) :=
  reduce_keepdims fmean ax t.

(** [jnp.sum(x, axis=ax, keepdims=True)]. *)
Definition sum_keepdims (ax : Z) (t : tensor fval) : result (tensor fval) :=
  reduce_keepdims fsum ax t.

(** [jnp.max(x, axis=ax, keepdims=True)]: a zero-size axis has no
    maximum and raises. *)
Definition max_keepdims (ax : Z) (t : tensor fval) : result (tensor fval) :=
  a <- norm_axis (rank t) ax ;;
  if nth a (shape t) 0 =? 0 then Raise EmptyReduction
  else reduce_keepdims fmax_list ax t.

(** *** Transposition *)

Fixpoint index_of (a : nat) (l : list nat) : nat :=
  match l with
  | [] => 0
  | x :: l' => if x =? a then 0 else S (index_of a l')
  end.

Definition is_perm (perm : list nat) (n : nat) : bool :=
  (length perm =? n) && forallb (fun a => existsb (Nat.eqb a) perm) (seq 0 n).

(** [jnp.transpose(x, perm)]: axis [i] of the result is axis [perm[i]]
    of [x]. *)
Definition transpose {A} (perm : list nat) (t : tensor A) : result (tensor A) :=
  if is_perm perm (rank t) then
    Ok (mkT (map (fun p => nth p (shape t) 0) perm)
            (fun idx => get t (map (fun a => nth (index_of a perm) idx 0)
                                   (seq 0 (rank t)))))
  else Raise AxisError.

(** *** Matrix product *)

(** A shape as (batch axes, rows, columns). *)
Definition split_last2 (s : list nat) : result (list nat * nat * nat) :=
  match rev s with
  | m :: n :: b => Ok (rev b, n, m)
  | _ => Raise RankError
  end.

(** [jnp.matmul] on operands of rank at least 2: batch axes broadcast,
    the last axis of [x] is contracted with the next-to-last of [y].
    The element type's own [add] and [mul] are used, so an int8 product
    is an int8. *)
Definition matmul_with {A} (zero : A) (add mul : A -> A -> A)
  (x y : tensor A) : result (tensor A) :=
  '(bx, n, k) <- split_last2 (shape x) ;;
  '(by_, k', m) <- split_last2 (shape y) ;;
  if k =? k' then
    b <- broadcast_shapes bx by_ ;;
    Ok (mkT (b ++ [n; m])
            (fun idx =>
               let bi := firstn (length b) idx in
               let i := nth (length b) idx 0 in
               let j := nth (S (length b)) idx 0 in
               fold_left add
                 (map (fun l => mul (get x (bindex bx bi ++ [i; l]))
                                    (get y (bindex by_ bi ++ [l; j])))
                      (seq 0 k))
                 zero))
  else Raise ContractionError.

Definition matmul : tensor fval -> tensor fval -> result (tensor fval) :=
  matmul_with fzero fadd fmul.

Definition matmul_int8 : tensor Z -> tensor Z -> result (tensor Z) :=
  matmul_with 0%Z add8 mul8.

(** *** Masks *)

Definition ones_like {A} (t : tensor A) : tensor fval :=
  mkT (shape t) (fun _ => fone).

(** [jnp.tril(x)]: over the last two axes, keep column <= row, zero the
    rest. *)
Definition tril (t : tensor fval) : result (tensor fval) :=
  if rank t <? 2 then Raise RankError
  else Ok (mkT (shape t)
               (fun idx =>
                  let i := nth (rank t - 2) idx 0 in
                  let j := nth (rank t - 1) idx 0 in
                  if j <=? i then get t idx else fzero)).

(** [jnp.where(mask == 0, fill, x)] for [mask] of the shape of [x]. *)
Definition where_eq0 (mask : tensor fval) (fill : fval) (x : tensor fval)
  : tensor fval :=
  mkT (shape x)
      (fun idx => if feqb (get mask idx) fzero then fill else get x idx).

(** *** Reshaping *)

Definition size (s : list nat) : nat := fold_right Nat.mul 1 s.

(** Row-major offset of an index, and back. *)
Fixpoint ravel (s idx : list nat) : nat :=
  match s, idx with
  | _ :: s', i :: idx' => i * size s' + ravel s' idx'
  | _, _ => 0
  end.

Fixpoint unravel (s : list nat) (n : nat) : list nat :=
  match s with
  | [] => []
  | _ :: s' => n / size s' :: unravel s' (n mod size s')
  end.

Definition is_wild (z : Z) : bool := (z =? -1)%Z.

(** The target shape of [x.reshape(spec...)], where one entry of [spec]
    may be -1. *)
Definition resolve_shape (total : nat) (spec : list Z) : result (list nat) :=
  let known := size (map Z.to_nat (filter (fun z => negb (is_wild z)) spec)) in
  match length (filter is_wild spec) with
  | 0 => if known =? total then Ok (map Z.to_nat spec) else Raise ReshapeError
  | 1 =>
      if (known =? 0) || negb (total mod known =? 0) then Raise ReshapeError
      else Ok (map (fun z => if is_wild z then total / known else Z.to_nat z) spec)
  | _ => Raise ReshapeError
  end.

Definition reshape {A} (spec : list Z) (t : tensor A) : result (tensor A) :=
  s <- resolve_shape (size (shape t)) spec ;;
  Ok (mkT s (fun idx => get t (unravel (shape t) (ravel s idx)))).

Definition dims (s : list nat) : list Z := map Z.of_nat s.

(** *** Indexing *)

(** [x[..., c]]. *)
Definition take_last {A} (c : nat) (t : tensor A) : result (tensor A) :=
  if c <? last (shape t) 0 then
    Ok (mkT (removelast (shape t)) (fun idx => get t (idx ++ [c])))
  else Raise IndexError.

(** [x[None, :, None, :]]. *)
Definition expand_0_2 {A} (t : tensor A) : result (tensor A) :=
  match shape t with
  | s0 :: s1 :: rest =>
      Ok (mkT (1 :: s0 :: 1 :: s1 :: rest)
              (fun idx => get t (nth 1 idx 0 :: skipn 3 idx)))
  | _ => Raise IndexError
  end.

(** [x[:, :, -1, :]]. *)
Definition last_query {A} (t : tensor A) : result (tensor A) :=
  match shape t with
  | [a; b; c; d] =>
      if c =? 0 then Raise IndexError
      else Ok (mkT [a; b; d]
                   (fun idx => get t [nth 0 idx 0; nth 1 idx 0; c - 1; nth 2 idx 0]))
  | _ => Raise IndexError
  end.

(** [table[tokens]] for an integer array [tokens]: the rows of [table]
    gathered along its first axis; jax clamps an index past the end. *)
Definition gather {A} (table : tensor A) (tokens : tensor nat) : result (tensor A) :=
  match shape table with
  | n :: row =>
      Ok (mkT (shape tokens ++ row)
              (fun idx =>
                 let r := rank tokens in
                 get table (Nat.min (get tokens (firstn r idx)) (n - 1)
                            :: skipn r idx)))
  | [] => Raise IndexError
  end.

(** [x.T]. *)
Definition transpose_T {A} (t : tensor A) : result (tensor A) :=
  transpose (rev (seq 0 (rank t))) t.

(** [jnp.dot(x, w)]: a scalar operand multiplies the other one;
    otherwise the last axis of [x] is contracted with the next-to-last
    axis of [w] (with its only axis when [w] is a vector), and the axes
    of the result are those of [x] but the last, followed by those of
    [w] but the contracted one. *)
Definition dot (x w : tensor fval) : result (tensor fval) :=
  if (rank x =? 0) || (rank w =? 0) then broadcast2 fmul x w
  else
    let k := last (shape x) 0 in
    let k' := if rank w =? 1 then nth 0 (shape w) 0
              else nth (rank w - 2) (shape w) 0 in
    if k =? k' then
      let px := removelast (shape x) in
      let pw := if rank w =? 1 then []
                else firstn (rank w - 2) (shape w) ++ [last (shape w) 0] in
      Ok (mkT (px ++ pw)
              (fun idx =>
                 let a := firstn (length px) idx in
                 let b := skipn (length px) idx in
                 fold_left fadd
                   (map (fun l =>
                           fmul (get x (a ++ [l]))
                                (get w (if rank w =? 1 then [l]
                                        else removelast b ++ [l; last b 0])))
                        (seq 0 k))
                   fzero))
    else Raise ContractionError.

(** *** Complex arrays *)

Definition cval : Type := (fval * fval)%type.

Definition cmul (x y : cval) : cval :=
  (fsub (fmul (fst x) (fst y)) (fmul (snd x) (snd y)),
   fadd (fmul (fst x) (snd y)) (fmul (snd x) (fst y))).

(** [jax.lax.complex(re, im)]. *)
Definition complex (re im : tensor fval) : result (tensor cval) :=
  broadcast2 pair re im.

(** [jnp.stack((jnp.real(x), jnp.imag(x)), axis=-1)]. *)
Definition stack_re_im (x : tensor cval) : tensor fval :=
  mkT (shape x ++ [2])
      (fun idx =>
         let z := get x (removelast idx) in
         if last idx 0 =? 0 then fst z else snd z).

(** ** The program *)

(** Modelled from the spec: [entropix.config.ModelParams] is not among
    the sources; these are the fields [model.py] reads. *)
Record ModelParams : Type := mkParams {
  n_layers : nat;
  n_local_heads : nat;
  n_local_kv_heads : nat;
  head_dim : nat
}.

Definition of_nat (n : nat) : fval := Fin (inject_Z (Z.of_nat n)).

Section Kernel.
Context {FL : FloatLib}.

(** [jax.nn.softmax(x, axis=-1)]:
    [unnormalized = exp(x - max(x, initial=-inf))],
    [unnormalized / sum(unnormalized)], both reductions along the last
    axis with [keepdims]. *)
Definition softmax (x : tensor fval) : result (tensor fval) :=
  x_max <- reduce_keepdims (fun l => fold_left fmax l NInf) (-1) x ;;
  d <- broadcast2 fsub x x_max ;;
  let unnormalized := tmap fexp d in
  s <- sum_keepdims (-1) unnormalized ;;
  broadcast2 fdiv unnormalized s.

(** The local function [quantize_int8] of [sageattn]. *)
Definition quantize_int8 (x : tensor fval) : result (tensor Z * tensor fval) :=
  m <- max_keepdims (-1) (tmap fabs x) ;;
  let scale := tmap (fun a => fdiv a (Fin 127)) m in
  d <- broadcast2 fdiv x scale ;;
  let x_int8 := tmap (fun a => to_int8 (fround a)) d in
  Ok (x_int8, scale).

(** Lines 36-37: the key smoothing. *)
Definition smooth (smooth_k : bool) (k : tensor fval) : result (tensor fval) :=
  if smooth_k then
    m <- mean_keepdims (-2) k ;;
    broadcast2 fsub k m
  else Ok k.

(** Lines 45-50: the dequantized integer scores. *)
Definition dequantized_scores (q k : tensor fval) : result (tensor fval) :=
  '(q_int8, q_scale) <- quantize_int8 q ;;
  '(k_int8, k_scale) <- quantize_int8 k ;;
  scores <- matmul_int8 q_int8 k_int8 ;;
  k_scale_t <- transpose [0; 1; 3; 2] k_scale ;;
  sc <- broadcast2 fmul q_scale k_scale_t ;;
  broadcast2 fmul (tmap of_int8 scores) sc.

(** Lines 56-58: the causal mask. *)
Definition causal_mask (is_causal : bool) (scores : tensor fval)
  : result (tensor fval) :=
  if is_causal then
    mask <- tril (ones_like scores) ;;
    Ok (where_eq0 mask NInf scores)
  else Ok scores.

(** Lines 53-54: the additive mask. *)
Definition add_mask (attn_mask : option (tensor fval)) (scores : tensor fval)
  : result (tensor fval) :=
  match attn_mask with
  | Some m => broadcast2 fadd scores m
  | None => Ok scores
  end.

(** Lines 36-58 of [sageattn]: the tensor handed to [jax.nn.softmax],
    and [pre_scores]. *)
Definition softmax_input (q k : tensor fval) (model_params : ModelParams)
  (attn_mask : option (tensor fval)) (is_causal smooth_k : bool)
  : result (tensor fval * tensor fval) :=
  k <- smooth smooth_k k ;;
  scores <- dequantized_scores q k ;;
  let pre_scores :=
    tmap (fun a => fdiv a (fsqrt (of_nat (head_dim model_params)))) scores in
  scores <- add_mask attn_mask scores ;;
  scores <- causal_mask is_causal scores ;;
  Ok (scores, pre_scores).

(** Lines 60-64.  Line 62 multiplies in float16: the weights and [v]
    are cast to float16 and the product is a float16 array, each of its
    sums taken exactly and rounded once.  The cast back to the dtype of
    [q] (float32: [apply_rotary_emb] returns float32) is exact. *)
Definition weighted_values (scores v : tensor fval) : result (tensor fval) :=
  attn_weights <- softmax scores ;;
  output <- matmul (tmap (cast binary16) attn_weights)
                   (tmap (cast binary16) v) ;;
  Ok (tmap (cast binary16) output).

(** Lines 34-64. *)
Definition sageattn (q k v : tensor fval) (model_params : ModelParams)
  (attn_mask : option (tensor fval)) (is_causal smooth_k : bool)
  : result (tensor fval * tensor fval) :=
  '(scores, pre_scores) <-
     softmax_input q k model_params attn_mask is_causal smooth_k ;;
  output <- weighted_values scores v ;;
  Ok (output, pre_scores).

End Kernel.


(** ** Rotary embedding, lines 23-32 *)

(** One operand through lines 24-31: what [apply_rotary_emb] does to
    [xq], and to [xk]. *)
Definition rotate (x : tensor fval) (freqs_cis : tensor cval)
  : result (tensor fval) :=
  reshape_x <- reshape (dims (removelast (shape x)) ++ [-1; 2]%Z) x ;;
  re <- take_last 0 reshape_x ;;
  im <- take_last 1 reshape_x ;;
  x_ <- complex re im ;;
  f <- expand_0_2 freqs_cis ;;
  x_out <- broadcast2 cmul x_ f ;;
  reshape (dims (removelast (shape x_out)) ++ [-1]%Z) (stack_re_im x_out).

(** Lines 23-32, statement by statement: both reshapes, both complex
    arrays, both products, both interleavings. *)
Definition apply_rotary_emb (xq xk : tensor fval) (freqs_cis : tensor cval)
  : result (tensor fval * tensor fval) :=
  reshape_xq <- reshape (dims (removelast (shape xq)) ++ [-1; 2]%Z) xq ;;
  reshape_xk <- reshape (dims (removelast (shape xk)) ++ [-1; 2]%Z) xk ;;
  re <- take_last 0 reshape_xq ;;
  im <- take_last 1 reshape_xq ;;
  xq_ <- complex re im ;;
  re <- take_last 0 reshape_xk ;;
  im <- take_last 1 reshape_xk ;;
  xk_ <- complex re im ;;
  f <- expand_0_2 freqs_cis ;;
  xq_out <- broadcast2 cmul xq_ f ;;
  f <- expand_0_2 freqs_cis ;;
  xk_out <- broadcast2 cmul xk_ f ;;
  xq_out <- reshape (dims (removelast (shape xq_out)) ++ [-1]%Z)
                    (stack_re_im xq_out) ;;
  xk_out <- reshape (dims (removelast (shape xk_out)) ++ [-1]%Z)
                    (stack_re_im xk_out) ;;
  Ok (xq_out, xk_out).

(** ** Weights and cache *)

(** Modelled from the spec: [entropix.weights.LayerWeights] is not among
    the sources; the projection, feed-forward and normalization weights
    of one layer, under the names [model.py] reads. *)
Record LayerWeights : Type := mkLayer {
  wq : tensor fval;
  wk : tensor fval;
  wv : tensor fval;
  wo : tensor fval;
  w1 : tensor fval;
  w2 : tensor fval;
  w3 : tensor fval;
  ffn_norm : tensor fval;
  attention_norm : tensor fval
}.

(** Modelled from the spec: [entropix.weights.XfmrWeights] is not among
    the sources; the fields [model.py] reads. *)
Record XfmrWeights : Type := mkWeights {
  tok_embeddings : tensor fval;
  norm : tensor fval;
  output : tensor fval;
  layer_weights : list LayerWeights
}.

(** Modelled from the spec: [entropix.kvcache.KVCache] is not among the
    sources.  Two arrays of shape
    [layers, batch, max_sequence_length, kv_heads, head_dim]. *)
Record KVCache : Type := mkCache {
  cache_k : tensor fval;
  cache_v : tensor fval
}.

(** Modelled from the spec: the write of [KVCache.update], at
    [layer_idx, :, cur_pos:cur_pos+step_len, :, :]. *)
Definition cache_write (c new : tensor fval) (layer_idx cur_pos : nat)
  : tensor fval :=
  let step_len := nth 1 (shape new) 0 in
  mkT (shape c)
      (fun idx =>
         let l := nth 0 idx 0 in
         let p := nth 2 idx 0 in
         if (l =? layer_idx) && (cur_pos <=? p) && (p <? cur_pos + step_len)
         then get new [nth 1 idx 0; p - cur_pos; nth 3 idx 0; nth 4 idx 0]
         else get c idx).

(** Modelled from the spec: the read of [KVCache.update], positions
    [0, len) of one layer with every kv head repeated [n_rep] times
    contiguously. *)
Definition cache_read (c : tensor fval) (layer_idx len n_rep : nat)
  : tensor fval :=
  mkT [nth 1 (shape c) 0; len; nth 3 (shape c) 0 * n_rep; nth 4 (shape c) 0]
      (fun idx =>
         get c [layer_idx; nth 0 idx 0; nth 1 idx 0;
                nth 2 idx 0 / n_rep; nth 3 idx 0]).

(** Modelled from the spec: [KVCache.update(new_keys, new_values,
    layer_index, cur_pos, n_rep)]; exceeding the capacity is fatal. *)
Definition cache_update (cache : KVCache) (xk xv : tensor fval)
  (layer_idx cur_pos n_rep : nat) : result (tensor fval * tensor fval * KVCache) :=
  match shape (cache_k cache), shape xk with
  | [nl; b; maxlen; kvh; d], [b'; step_len; kvh'; d'] =>
      if negb (shape_eqb (shape xv) (shape xk)
               && shape_eqb (shape (cache_v cache)) (shape (cache_k cache))
               && (b =? b') && (kvh =? kvh') && (d =? d'))
      then Raise BroadcastError
      else if negb (layer_idx <? nl) then Raise IndexError
      else if negb (cur_pos + step_len <=? maxlen) then Raise CapacityError
      else
        let ck := cache_write (cache_k cache) xk layer_idx cur_pos in
        let cv := cache_write (cache_v cache) xv layer_idx cur_pos in
        Ok (cache_read ck layer_idx (cur_pos + step_len) n_rep,
            cache_read cv layer_idx (cur_pos + step_len) n_rep,
            mkCache ck cv)
  | _, _ => Raise BroadcastError
  end.

(** ** The layers *)

Section Layers.
Context {FL : FloatLib}.

(** Line 19.  [eps = 1e-6]. *)
Definition rms_norm (x w : tensor fval) : result (tensor fval) :=
  let eps := Fin (1 # 1000000) in
  m <- mean_keepdims (-1) (tmap (fun a => fmul a a) x) ;;
  xr <- broadcast2 fmul x (tmap (fun a => frsqrt (fadd a eps)) m) ;;
  broadcast2 fmul w xr.

(** Line 92. *)
Definition feed_forward (x : tensor fval) (lw : LayerWeights)
  : result (tensor fval) :=
  w1t <- transpose_T (w1 lw) ;;
  w3t <- transpose_T (w3 lw) ;;
  w2t <- transpose_T (w2 lw) ;;
  g <- dot x w1t ;;
  u <- dot x w3t ;;
  gu <- broadcast2 fmul (tmap fsilu g) u ;;
  dot gu w2t.

(** [jnp.dot(x, w.T).reshape(bsz, -1, heads, head_dim)]. *)
Definition project (x w : tensor fval) (bsz heads hd : nat)
  : result (tensor fval) :=
  wt <- transpose_T w ;;
  p <- dot x wt ;;
  reshape [Z.of_nat bsz; (-1)%Z; Z.of_nat heads; Z.of_nat hd] p.

(** Lines 68-78 of [attention]: the operands handed to the kernel, and
    the updated cache. *)
Definition attention_operands (x : tensor fval) (lw : LayerWeights)
  (model_params : ModelParams) (cur_pos layer_idx : nat)
  (freqs_cis : tensor cval) (kvcache : KVCache)
  : result (tensor fval * tensor fval * tensor fval * KVCache) :=
  match shape x with
  | [bsz; _; _] =>
      if n_local_kv_heads model_params =? 0 then Raise ZeroDivisionError
      else
        let n_rep := n_local_heads model_params / n_local_kv_heads model_params in
        xq <- project x (wq lw) bsz (n_local_heads model_params)
                      (head_dim model_params) ;;
        xk <- project x (wk lw) bsz (n_local_kv_heads model_params)
                      (head_dim model_params) ;;
        xv <- project x (wv lw) bsz (n_local_kv_heads model_params)
                      (head_dim model_params) ;;
        '(xq, xk) <- apply_rotary_emb xq xk freqs_cis ;;
        '(keys, values, kvcache) <-
           cache_update kvcache xk xv layer_idx cur_pos n_rep ;;
        xq <- transpose [0; 2; 1; 3] xq ;;
        keys <- transpose [0; 2; 3; 1] keys ;;
        values <- transpose [0; 2; 1; 3] values ;;
        Ok (xq, keys, values, kvcache)
  | _ => Raise RankError
  end.

(** Lines 85-86 of [attention]. *)
Definition attention_output (xq output : tensor fval) (lw : LayerWeights)
  : result (tensor fval) :=
  o <- transpose [0; 2; 1; 3] output ;;
  o <- reshape [Z.of_nat (nth 0 (shape xq) 0); Z.of_nat (nth 2 (shape xq) 0);
                (-1)%Z] o ;;
  wot <- transpose_T (wo lw) ;;
  dot o wot.

(** Lines 67-88. *)
Definition attention (x : tensor fval) (lw : LayerWeights)
  (model_params : ModelParams) (cur_pos layer_idx : nat)
  (freqs_cis : tensor cval) (kvcache : KVCache)
  (attn_mask : option (tensor fval))
  : result (tensor fval * KVCache * tensor fval) :=
  '(xq, keys, values, kvcache) <-
     attention_operands x lw model_params cur_pos layer_idx freqs_cis kvcache ;;
  let is_causal := 0 <? cur_pos in
  '(output, pre_scores) <-
     sageattn xq keys values model_params attn_mask is_causal true ;;
  out <- attention_output xq output lw ;;
  Ok (out, kvcache, pre_scores).

(** [entropix.stats.AttnStats] is an external accumulator: its type and
    its two operations are parameters of the forward pass. *)
Variable AttnStats : Type.
Variable stats_new : nat -> nat -> nat -> AttnStats.
Variable stats_update : AttnStats -> tensor fval -> nat -> AttnStats.

(** The variables the loop of [xfmr] carries from one iteration to the
    next; [scores] is unbound until the first iteration has run. *)
Record Carry : Type := mkCarry {
  c_h : tensor fval;
  c_kvcache : KVCache;
  c_scores : option (tensor fval);
  c_attn_stats : AttnStats
}.

Definition nth_layer (w : XfmrWeights) (i : nat) : result LayerWeights :=
  match nth_error (layer_weights w) i with
  | Some lw => Ok lw
  | None => Raise IndexError
  end.

(** Lines 103-107: the body of the loop, for layer [i]. *)
Definition layer_body (xfmr_weights : XfmrWeights) (model_params : ModelParams)
  (cur_pos : nat) (freqs_cis : tensor cval) (attn_mask : option (tensor fval))
  (i : nat) (c : Carry) : result Carry :=
  lw <- nth_layer xfmr_weights i ;;
  norm_x <- rms_norm (c_h c) (attention_norm lw) ;;
  '(h_attn, kvcache, scores) <-
     attention norm_x lw model_params cur_pos i freqs_cis (c_kvcache c) attn_mask ;;
  last_scores <- last_query scores ;;
  let attn_stats := stats_update (c_attn_stats c) last_scores i in
  h <- broadcast2 fadd (c_h c) h_attn ;;
  n <- rms_norm h (ffn_norm lw) ;;
  ff <- feed_forward n lw ;;
  h <- broadcast2 fadd h ff ;;
  Ok (mkCarry h kvcache (Some scores) attn_stats).

(** [for i in ixs: c = body(i, c)]. *)
Fixpoint for_each (body : nat -> Carry -> result Carry) (ixs : list nat)
  (c : Carry) : result Carry :=
  match ixs with
  | [] => Ok c
  | i :: rest => c' <- body i c ;; for_each body rest c'
  end.

(** Lines 95-109. *)
Definition xfmr (xfmr_weights : XfmrWeights) (model_params : ModelParams)
  (tokens : tensor nat) (cur_pos : nat) (freqs_cis : tensor cval)
  (kvcache : KVCache) (attn_mask : option (tensor fval))
  : result (tensor fval * KVCache * tensor fval * AttnStats) :=
  h <- gather (tok_embeddings xfmr_weights) tokens ;;
  bsz <- match shape tokens with b :: _ => Ok b | [] => Raise IndexError end ;;
  let attn_stats :=
    stats_new bsz (n_layers model_params) (n_local_heads model_params) in
  c <- for_each (layer_body xfmr_weights model_params cur_pos freqs_cis attn_mask)
                (seq 0 (n_layers model_params))
                (mkCarry h kvcache None attn_stats) ;;
  n <- rms_norm (c_h c) (norm xfmr_weights) ;;
  out_t <- transpose_T (output xfmr_weights) ;;
  logits <- dot n out_t ;;
  match c_scores c with
  | Some scores => Ok (logits, c_kvcache c, scores, c_attn_stats c)
  | None => Raise UnboundLocalError
  end.

End Layers.

(** ** Elementwise readings at rank 4 *)

(** Reading a broadcast axis: a unit axis is read at 0. *)
Definition unit_or (d i : nat) : nat := if d =? 1 then 0 else i.

(** The elements along the last axis, and along the next-to-last. *)
Definition row_of {A} (t : tensor A) (b h i n : nat) : list A :=
  map (fun j => get t [b; h; i; j]) (seq 0 n).

Definition col_of {A} (t : tensor A) (b h j n : nat) : list A :=
  map (fun i => get t [b; h; i; j]) (seq 0 n).

(** [scale] of [quantize_int8] for the row [x[b, h, i, :]] of length [n]. *)
Definition row_scale (x : tensor fval) (b h i n : nat) : fval :=
  fdiv (fmax_list (row_of (tmap fabs x) b h i n)) (Fin 127).

(** [x_int8[b, h, i, j]]. *)
Definition quantized (x : tensor fval) (b h i j n : nat) : Z :=
  to_int8 (fround (fdiv (get x [b; h; i; j]) (row_scale x b h i n))).

(** The exact integer dot product of row [i] of the quantized [q] with
    column [j] of the quantized [k], over [n] channels. *)
Definition int_dot (q k : tensor fval) (b h i j n m : nat) : Z :=
  fold_left Z.add
    (map (fun l => (quantized q b h i l n * quantized k b h l j m)%Z) (seq 0 n))
    0%Z.

(** [scores[b, h, i, j]] after line 50, when the broadcast of line 50
    is defined: the wrapped integer dot product times the scale of row
    [i] of [q] and the scale of row [j] of [k] (a channel of the keys,
    as [k] is laid out channels by positions). *)
Definition dequantized (q k : tensor fval) (b h i j n m : nat) : fval :=
  fmul (of_int8 (wrap8 (int_dot q k b h i (unit_or m j) n m)))
       (fmul (row_scale q b h i n) (row_scale k b h (unit_or n j) m)).

Section Readings.
Context {FL : FloatLib}.

(** The softmax of row [s[b, h, i, :]] of length [n], as
    [jax.nn.softmax] computes it. *)
Definition row_max (s : tensor fval) (b h i n : nat) : fval :=
  fold_left fmax (row_of s b h i n) NInf.

Definition unnormalized (s : tensor fval) (b h i j n : nat) : fval :=
  fexp (fsub (get s [b; h; i; j]) (row_max s b h i n)).

Definition weight (s : tensor fval) (b h i j n : nat) : fval :=
  fdiv (unnormalized s b h i j n)
       (fsum (map (fun j' => unnormalized s b h i j' n) (seq 0 n))).

(** [output[b, h, i, c]] of line 62: the weights of row [i] against
    column [c] of [v], both cast to float16, and the float16 result. *)
Definition attended (s v : tensor fval) (b h i c n : nat) : fval :=
  cast binary16
    (fold_left fadd
       (map (fun l => fmul (cast binary16 (weight s b h i l n))
                           (cast binary16 (get v [b; h; l; c])))
            (seq 0 n))
       fzero).

End Readings.

(** ** Concrete inputs *)

(** A Python nested list [[[rows]]] of finite floats: a [1, 1, r, c]
    array (one batch, one head). *)
Definition mat4 (ncols : nat) (rows : list (list Q)) : tensor fval :=
  as_bh (of_rows NaN ncols (map (map Fin) rows)).

(** One layer, one query head, one kv head. *)
Definition params (hd : nat) : ModelParams := mkParams 1 1 1 hd.

(** A prefill of three tokens at [head_dim = 2]: [q] is [1, 1, 3, 2],
    [k] is [1, 1, 2, 3], [v] is [1, 1, 3, 2]. *)
Definition prefill_q : tensor fval := mat4 2 [[1; 2]; [3; 4]; [5; 6]]%Q.
Definition prefill_k : tensor fval := mat4 3 [[1; 2; 3]; [4; 5; 6]]%Q.
Definition prefill_v : tensor fval := mat4 2 [[1; 2]; [3; 4]; [5; 6]]%Q.

(** A decode step at [cur_pos = 2] with [head_dim = 3]: one query row,
    three cached key positions. *)
Definition decode_q : tensor fval := mat4 3 [[1; 1; 0]]%Q.
Definition decode_k : tensor fval := mat4 3 [[1; 2; 0]; [0; 1; 0]; [2; 0; 0]]%Q.

(** [head_dim = 4], one query, four keys. *)
Definition scaled_q : tensor fval := mat4 4 [[1; 2; 0; 0]]%Q.
Definition scaled_k : tensor fval :=
  mat4 4 [[1; 0; 0; 0]; [0; 1; 0; 0]; [0; 0; 1; 0]; [0; 0; 0; 1]]%Q.

(** Keys laid out channels by positions: channel 0 is [1, 2], channel 1
    is [3, 4]; position 0 is the column [1, 3]. *)
Definition smooth_k_in : tensor fval := mat4 2 [[1; 2]; [3; 4]]%Q.

(** Three tokens at [head_dim = 3] with the causal flag.  The two key
    arrays agree on positions 0 and 1 (columns 0 and 1) and differ in
    channel 0 of position 2. *)
Definition causal_q : tensor fval := mat4 3 [[1; 0; 0]; [1; 1; 0]; [0; 0; 1]]%Q.
Definition causal_k1 : tensor fval := mat4 3 [[1; 2; 0]; [0; 1; 0]; [2; 0; 0]]%Q.
Definition causal_k2 : tensor fval := mat4 3 [[1; 2; 100]; [0; 1; 0]; [2; 0; 0]]%Q.
Definition causal_v : tensor fval := mat4 3 [[0; 0; 0]; [1; 0; 0]; [0; 0; 0]]%Q.

(** ** A reference float library *)

(** The relative tolerance allowed to the library's [exp]. *)
Definition exp_tol : Q := 1 # 1000000.

(** Rational stand-ins for [exp] and [sqrt], to run the model on
    concrete inputs: the Pade approximants [1 + x] and [1 / (1 - x)] of
    [exp], which lie on the two sides of it, and the integer square
    root, exact on squares of integers. *)
Definition exp_pade (x : Q) : Q :=
  (if Qle_bool 0 x then 1 + x else 1 / (1 - x))%Q.

Definition sqrt_floor (x : Q) : Q :=
  (inject_Z (Z.sqrt (Qnum x * Zpos (Qden x))) / inject_Z (Zpos (Qden x)))%Q.

Definition RefLib : FloatLib := {| qexp := exp_pade; qsqrt := sqrt_floor |}.

Section Lists.
Context {FL : FloatLib}.

(** [jax.nn.softmax] of one row, and the weighted sum of line 62 for
    one output element. *)
Definition softmax_list (l : list fval) : list fval :=
  let m := fold_left fmax l NInf in
  let u := map (fun x => fexp (fsub x m)) l in
  map (fun e => fdiv e (fsum u)) u.

Definition weighted_sum (w v : list fval) : fval :=
  cast binary16
    (fold_left fadd
       (map (fun p => fmul (cast binary16 (fst p)) (cast binary16 (snd p)))
            (combine w v))
       fzero).

End Lists.

(** ** The quantizer on a row of finite values *)



(** An array of finite values given by its rational entries. *)
Definition qmat4 (ncols : nat) (rows : list (list Q)) : tensor Q :=
  as_bh (of_rows 0%Q ncols rows).

(** The all-ones [freqs_cis] of shape [S, M]: 1 + 0i at every position
    and frequency. *)
Definition all_ones (f : tensor cval) (S M : nat) : Prop :=
  shape f = [S; M] /\
  forall s m, s < S -> m < M -> get f [s; m] = (fone, fzero).

(** [jnp.ones((2, 2), dtype=complex64)], and queries and keys of shape
    [1, 2, 1, 4] (two positions, one head, [head_dim = 4]). *)
Definition ones_2x2 : tensor cval := mkT [2; 2] (fun _ => (fone, fzero)).

Definition rot_q : tensor Q :=
  mkT [1; 2; 1; 4]
      (fun idx => inject_Z (Z.of_nat (10 * nth 1 idx 0 + nth 3 idx 0))).

Definition rot_k : tensor Q :=
  mkT [1; 2; 1; 4]
      (fun idx => Qdiv (Qopp (inject_Z (Z.of_nat (nth 1 idx 0 + 3 * nth 3 idx 0)))) 7).

(** ** A one-layer model *)

Definition qmat (ncols : nat) (rows : list (list Q)) : tensor fval :=
  of_rows NaN ncols (map (map Fin) rows).

Definition qvec (l : list Q) : tensor fval :=
  mkT [length l] (fun idx => nth (nth 0 idx 0) (map Fin l) NaN).

Definition eye2 : tensor fval := qmat 2 [[1; 0]; [0; 1]]%Q.

(** Embedding dimension 2, one head of [head_dim = 2], a vocabulary of
    three tokens, identity projections. *)
Definition tiny_layer : LayerWeights :=
  mkLayer eye2 eye2 eye2 eye2 eye2 eye2 eye2 (qvec [1; 1]%Q) (qvec [1; 1]%Q).

Definition tiny_weights : XfmrWeights :=
  mkWeights (qmat 2 [[1; 2]; [3; 4]; [5; 6]]%Q) (qvec [1; 1]%Q)
            (qmat 2 [[1; 0]; [0; 1]; [1; 1]]%Q) [tiny_layer].

Definition tiny_params : ModelParams := mkParams 1 1 1 2.

(** A prompt of two tokens, [tokens = [[0, 2]]], at [cur_pos = 0]. *)
Definition tiny_tokens : tensor nat :=
  mkT [1; 2] (fun idx => nth (nth 1 idx 0) [0; 2] 0).

Definition tiny_freqs : tensor cval := mkT [2; 1] (fun _ => (fone, fzero)).

Definition tiny_cache : KVCache :=
  let z := mkT [1; 1; 4; 1; 2] (fun _ => fzero) in mkCache z z.

(** An [AttnStats] that records its updates: the layer index and the
    scores it was given, in order. *)
Definition StatsLog : Type := list (nat * tensor fval).
Definition log_new (bsz n_layers n_heads : nat) : StatsLog := [].
Definition log_update (st : StatsLog) (scores : tensor fval) (layer_idx : nat)
  : StatsLog := st ++ [(layer_idx, scores)].

(** [l] is [t[:, :, -1, :]]: [t] has four axes, the third not empty,
    and [l] holds the entries of [t] at the last index of that axis. *)
Definition last_position {A} (t l : tensor A) : Prop :=
  exists a b c d,
    shape t = [a; b; c; d] /\ 0 < c /\ shape l = [a; b; d] /\
    forall i j k, get l [i; j; k] = get t [i; j; c - 1; k].

Section LoopReadings.
Context {FL : FloatLib}.
Variable AttnStats : Type.
Variable stats_update : AttnStats -> tensor fval -> nat -> AttnStats.

(** [c'] is the carry that one run of lines 103-107 for layer [i]
    leaves, started on the carry [c]: the layer's attention ran on the
    normalized [h] and the cache of [c], [attn_stats] received one
    update with [scores[:, :, -1, :]] of this layer, the scores at the
    last query position, and [h] took the two residual additions. *)
Definition ran_layer (xfmr_weights : XfmrWeights) (model_params : ModelParams)
  (cur_pos : nat) (freqs_cis : tensor cval) (attn_mask : option (tensor fval))
  (i : nat) (c c' : Carry AttnStats) : Prop :=
  exists lw norm_x h_attn scores last_scores h n ff,
    nth_error (layer_weights xfmr_weights) i = Some lw /\
    rms_norm (c_h c) (attention_norm lw) = Ok norm_x /\
    attention norm_x lw model_params cur_pos i freqs_cis (c_kvcache c) attn_mask
      = Ok (h_attn, c_kvcache c', scores) /\
    c_scores c' = Some scores /\
    last_query scores = Ok last_scores /\
    last_position scores last_scores /\
    c_attn_stats c' = stats_update (c_attn_stats c) last_scores i /\
    broadcast2 fadd (c_h c) h_attn = Ok h /\
    rms_norm h (ffn_norm lw) = Ok n /\
    feed_forward n lw = Ok ff /\
    broadcast2 fadd h ff = Ok (c_h c').


End LoopReadings.

(** Two layers of the one-layer model above. *)
Definition two_layer_weights : XfmrWeights :=
  mkWeights (tok_embeddings tiny_weights) (norm tiny_weights)
            (output tiny_weights) [tiny_layer; tiny_layer].

Definition two_layer_params : ModelParams := mkParams 2 1 1 2.

Definition two_layer_cache : KVCache :=
  let z := mkT [2; 1; 4; 1; 2] (fun _ => fzero) in mkCache z z.

(** The forward pass of a two-token prompt through the two layers,
    with the recording [AttnStats]. *)
Definition two_layer_run
  : result (tensor fval * KVCache * tensor fval * StatsLog) :=
  @xfmr RefLib StatsLog log_new log_update two_layer_weights two_layer_params
        tiny_tokens 0 tiny_freqs two_layer_cache None.

(** The exact integer dot product of row [i] of the int8 array [x]
    with column [j] of the int8 array [y], over [n] channels. *)
Definition exact_dot (x y : tensor Z) (b h i j n : nat) : Z :=
  fold_left Z.add
    (map (fun l => (get x [b; h; i; l] * get y [b; h; l; j])%Z) (seq 0 n))
    0%Z.

(** ** More concrete inputs *)

(** A prompt of one token, [tokens = [[1]]]. *)
Definition one_token : tensor nat := mkT [1; 1] (fun _ => 1).

Definition one_freq : tensor cval := mkT [1; 1] (fun _ => (fone, fzero)).

(** The one-layer model asked for two layers. *)
Definition two_of_one_params : ModelParams := mkParams 2 1 1 2.


(** ** Readings of the rotary transform *)

(** Elements [2m] and [2m + 1] of the last axis of [x] as one complex
    number, and that number times [freqs_cis[s, m]]. *)
Definition pair_at (x : tensor fval) (b s h m : nat) : cval :=
  (get x [b; s; h; 2 * m], get x [b; s; h; 2 * m + 1]).

Definition rotated_pair (x : tensor fval) (freqs_cis : tensor cval)
  (b s h m : nat) : cval :=
  cmul (pair_at x b s h m) (get freqs_cis [s; m]).

(** A complex number of finite parts. *)
Definition cfin (z : Q * Q) : cval := (Fin (fst z), Fin (snd z)).

(** Position 0 at angle 0, position 1 at the angle of [3/5 + 4/5 i]. *)
Definition unit_freqs : tensor (Q * Q) :=
  mkT [2; 2]
      (fun idx => if nth 0 idx 0 =? 0 then (1, 0)%Q else (3 # 5, 4 # 5)%Q).

(** Three positions of frequencies, for queries of two positions. *)
Definition long_freqs : tensor cval := mkT [3; 2] (fun _ => (fone, fzero)).


(** Queries with no channel, and keys with no position. *)
Definition no_channel_q : tensor fval := mkT [1; 1; 2; 0] (fun _ => fone).
Definition no_channel_k : tensor fval := mkT [1; 1; 0; 2] (fun _ => fone).
Definition no_position_k : tensor fval := mkT [1; 1; 2; 0] (fun _ => fone).


(** ** Readings at rank 3 *)

(** The vector at position [s] of batch [b] of an array of shape
    [batch, seq, n]. *)
Definition row3 {A} (t : tensor A) (b s n : nat) : list A :=
  map (fun d => get t [b; s; d]) (seq 0 n).

(** [x[b, s, :] . w[f, :]] over [n] channels: one element of
    [jnp.dot(x, w.T)]. *)
Definition dot_row (x w : tensor fval) (b s f n : nat) : fval :=
  fold_left fadd
    (map (fun l => fmul (get x [b; s; l]) (get w [f; l])) (seq 0 n)) fzero.

(** Activations of three positions and two channels, given by their
    rational entries, and a second array that differs from the first
    at position 2 only. *)
Definition act_q : tensor Q :=
  mkT [1; 3; 2]
      (fun idx => inject_Z (Z.of_nat (nth 1 idx 0 + 2 * nth 2 idx 0))).

Definition act_q' : tensor Q :=
  mkT [1; 3; 2]
      (fun idx => if nth 1 idx 0 =? 2 then 9%Q
                  else inject_Z (Z.of_nat (nth 1 idx 0 + 2 * nth 2 idx 0))).

(** Feed-forward weights of hidden width 3 on 2 channels. *)
Definition ffn_layer : LayerWeights :=
  mkLayer eye2 eye2 eye2 eye2
    (qmat 2 [[1; 0]; [0; 1]; [1; 1]]%Q)
    (qmat 3 [[1; 0; 1]; [0; 1; 1]]%Q)
    (qmat 2 [[1; 1]; [1; 0]; [0; 1]]%Q)
    (qvec [1; 1]%Q) (qvec [1; 1]%Q).


(** A prompt of three tokens, [tokens = [[0, 2, 1]]], and the
    frequencies of its three positions at [head_dim = 2]. *)
Definition three_tokens : tensor nat :=
  mkT [1; 3] (fun idx => nth (nth 1 idx 0) [0; 2; 1] 0).

Definition three_freqs : tensor cval := mkT [3; 1] (fun _ => (fone, fzero)).


(** ** Well-formed weights *)

(** The weights of one layer fit a model of embedding width [Dm] and
    feed-forward width [F]. *)
Definition layer_fits (lw : LayerWeights) (mp : ModelParams) (Dm F : nat)
  : Prop :=
  shape (wq lw) = [n_local_heads mp * head_dim mp; Dm] /\
  shape (wk lw) = [n_local_kv_heads mp * head_dim mp; Dm] /\
  shape (wv lw) = [n_local_kv_heads mp * head_dim mp; Dm] /\
  shape (wo lw) = [Dm; n_local_heads mp * head_dim mp] /\
  shape (w1 lw) = [F; Dm] /\ shape (w3 lw) = [F; Dm] /\
  shape (w2 lw) = [Dm; F] /\
  shape (attention_norm lw) = [Dm] /\ shape (ffn_norm lw) = [Dm].

(** The cache has [nl] layers of [maxlen] positions for batch [B]. *)
Definition cache_fits (c : KVCache) (mp : ModelParams) (nl B maxlen : nat)
  : Prop :=
  shape (cache_k c) = [nl; B; maxlen; n_local_kv_heads mp; head_dim mp] /\
  shape (cache_v c) = [nl; B; maxlen; n_local_kv_heads mp; head_dim mp].


(** Activations of two positions and two channels. *)
Definition act2 : tensor Q :=
  mkT [1; 2; 2]
      (fun idx => inject_Z (Z.of_nat (1 + nth 1 idx 0 + 2 * nth 2 idx 0))).

(** ** The quantizer in float32 *)

(** A float32 division: the binary32 nearest to the quotient. *)
Definition fdiv32 (x y : fval) : fval := cast binary32 (fdiv x y).


(** [scale[b, h, i, 0]] and [x_int8[b, h, i, j]] of a row of [n]
    elements. *)
Definition row_scale_f32 (x : tensor fval) (b h i n : nat) : fval :=
  fdiv32 (fmax_list (row_of (tmap fabs x) b h i n)) (Fin 127).

Definition quantized_f32 (x : tensor fval) (b h i j n : nat) : Z :=
  to_int8 (fround (fdiv32 (get x [b; h; i; j]) (row_scale_f32 x b h i n))).

(** Two rows of float32 values, and an all-zero row. *)
Definition quant_in_f32 : tensor Q :=
  qmat4 2 [[15; 30]; [11 # 2; 11]; [0; 0]]%Q.

(** A row that holds the smallest positive float32, [2^-149]. *)
Definition quant_in_tiny : tensor Q := qmat4 1 [[pow2 (-149)]].

(** ** The causal mask, read off the scores *)

(** [s] is [s1] with the entries above the diagonal of the last two
    axes replaced by -inf: lines 57-58 applied to [s1]. *)
Definition causally_masked (s1 s : tensor fval) : Prop :=
  2 <= rank s1 /\ shape s = shape s1 /\
  forall idx,
    let i := nth (rank s1 - 2) idx 0 in
    let j := nth (rank s1 - 1) idx 0 in
    get s idx = if j <=? i then get s1 idx else NInf.

(** Activations of one position and two channels. *)
Definition act1 : tensor Q :=
  mkT [1; 1; 2] (fun idx => inject_Z (Z.of_nat (1 + 2 * nth 2 idx 0))).

(** ** Masked weights *)

(** A weight that is 0 or NaN: what the softmax leaves of a masked
    score. *)
Definition zero_or_nan (w : fval) : Prop :=
  match w with
  | Fin z => (z == 0)%Q
  | NaN => True
  | _ => False
  end.

(** Values that agree with [causal_v] on rows 0 and 1 of column 0 and
    differ from it elsewhere; 2049 is not a float16. *)
Definition causal_v_later : tensor fval :=
  mat4 3 [[0; 0; 2049]; [1; 0; 0]; [7; 5; 2]]%Q.

(** * Properties *)

(** ** Integer arithmetic of the int8 product *)

Lemma wrap8_range (z : Z) : (-128 <= wrap8 z <= 127)%Z.
Proof.
  unfold wrap8. pose proof (Z.mod_pos_bound (z + 128) 256). lia.
Qed.

Lemma wrap8_fits (z : Z) : wrap8 z = z <-> (-128 <= z <= 127)%Z.
Proof.
  split.
  - intros <-. apply wrap8_range.
  - intros Hz. unfold wrap8. rewrite Z.mod_small; lia.
Qed.

Lemma wrap8_congr (a b : Z) :
  ((a + 128) mod 256 = (b + 128) mod 256)%Z -> wrap8 a = wrap8 b.
Proof. unfold wrap8. intros ->. reflexivity. Qed.

Lemma wrap8_shift (a : Z) : ((wrap8 a + 128) mod 256 = (a + 128) mod 256)%Z.
Proof.
  unfold wrap8.
  replace ((a + 128) mod 256 - 128 + 128)%Z with ((a + 128) mod 256)%Z by lia.
  apply Z.mod_mod. lia.
Qed.

Lemma wrap8_mod (a : Z) : (wrap8 a mod 256 = a mod 256)%Z.
Proof.
  pose proof (wrap8_shift a) as H.
  rewrite Z.add_mod in H by lia.
  rewrite (Z.add_mod a 128) in H by lia.
  change (128 mod 256)%Z with 128%Z in H.
  pose proof (Z.mod_pos_bound (wrap8 a) 256).
  pose proof (Z.mod_pos_bound a 256).
  assert (Hc : forall x y, (0 <= x < 256 -> 0 <= y < 256 ->
             (x + 128) mod 256 = (y + 128) mod 256 -> x = y)%Z).
  { intros x y Hx Hy E.
    destruct (Z_lt_ge_dec x 128), (Z_lt_ge_dec y 128).
    - rewrite !Z.mod_small in E; lia.
    - rewrite (Z.mod_small (x + 128)) in E by lia.
      replace (y + 128)%Z with ((y - 128) + 1 * 256)%Z in E by lia.
      rewrite Z.mod_add, Z.mod_small in E; lia.
    - rewrite (Z.mod_small (y + 128)) in E by lia.
      replace (x + 128)%Z with ((x - 128) + 1 * 256)%Z in E by lia.
      rewrite Z.mod_add, Z.mod_small in E; lia.
    - replace (x + 128)%Z with ((x - 128) + 1 * 256)%Z in E by lia.
      replace (y + 128)%Z with ((y - 128) + 1 * 256)%Z in E by lia.
      rewrite !Z.mod_add, !Z.mod_small in E; lia. }
  apply Hc; lia.
Qed.

Lemma wrap8_of_mod (a b : Z) : (a mod 256 = b mod 256)%Z -> wrap8 a = wrap8 b.
Proof.
  intros E. apply wrap8_congr.
  rewrite Z.add_mod, E, <- Z.add_mod; lia.
Qed.

Lemma add8_wrap (a b : Z) : add8 (wrap8 a) (wrap8 b) = wrap8 (a + b).
Proof.
  unfold add8. apply wrap8_of_mod.
  rewrite Z.add_mod, !wrap8_mod, <- Z.add_mod; lia.
Qed.

Lemma mul8_wrap (a b : Z) : mul8 a b = wrap8 (a * b).
Proof. reflexivity. Qed.

(** The int8 accumulation of a row of products is the exact sum, wrapped
    once. *)
Lemma fold_add8_wrap (f g : nat -> Z) (ls : list nat) (acc : Z) :
  fold_left add8 (map (fun l => mul8 (f l) (g l)) ls) (wrap8 acc)
  = wrap8 (fold_left Z.add (map (fun l => (f l * g l)%Z) ls) acc).
Proof.
  revert acc. induction ls as [|l ls IH]; intros acc; simpl.
  - reflexivity.
  - rewrite mul8_wrap, add8_wrap. apply IH.
Qed.

(** ** Rounding *)

Lemma Qis_zero_iff (x : Q) : Qis_zero x = true <-> (x == 0)%Q.
Proof.
  unfold Qis_zero, Qeq. rewrite Z.eqb_eq. simpl. lia.
Qed.

Lemma Qle_bool_false (a b : Q) : Qle_bool a b = false -> (b < a)%Q.
Proof.
  intros E. apply Qnot_le_lt. intros Hle. apply Qle_bool_iff in Hle. congruence.
Qed.

Lemma round_half_even_cases (y : Q) :
  let f := Qfloor y in
  (round_half_even y = f /\ (y - inject_Z f <= 1 # 2)%Q) \/
  (round_half_even y = (f + 1)%Z /\ (1 # 2 <= y - inject_Z f)%Q).
Proof.
  intros f. unfold round_half_even. fold f.
  destruct (Qcompare_spec (y - inject_Z f) (1 # 2)) as [E|E|E].
  - destruct (Z.even f); [left | right]; split; try reflexivity; lra.
  - left. split; [reflexivity | lra].
  - right. split; [reflexivity | lra].
Qed.

Lemma round_half_even_err (y : Q) :
  (Qabs (inject_Z (round_half_even y) - y) <= 1 # 2)%Q.
Proof.
  pose proof (Qfloor_le y) as Hlo. pose proof (Qlt_floor y) as Hhi.
  rewrite inject_Z_plus in Hhi. change (inject_Z 1) with 1%Q in Hhi.
  apply Qabs_Qle_condition.
  destruct (round_half_even_cases y) as [[-> H]|[-> H]].
  - lra.
  - rewrite inject_Z_plus. change (inject_Z 1) with 1%Q. lra.
Qed.


Lemma Qis_zero_pos (x : Q) : (0 < x)%Q -> Qis_zero x = false.
Proof.
  intros Hx. unfold Qis_zero. apply Z.eqb_neq. intros E.
  unfold Qlt in Hx. simpl in Hx. lia.
Qed.

Lemma pow2_pos (e : Z) : (0 < pow2 e)%Q.
Proof. apply Qpower_0_lt. reflexivity. Qed.

Lemma pow2_add (a b : Z) : (pow2 (a + b) == pow2 a * pow2 b)%Q.
Proof. apply Qpower_plus. discriminate. Qed.

Lemma pow2_le (a b : Z) : (a <= b)%Z -> (pow2 a <= pow2 b)%Q.
Proof. intros H. apply Qpower_le_compat_l; [exact H | discriminate]. Qed.

Lemma pow2_lt (a b : Z) : (a < b)%Z -> (pow2 a < pow2 b)%Q.
Proof. intros H. apply Qpower_lt_compat_l; [exact H | reflexivity]. Qed.

Lemma pow2_lt_inv (a b : Z) : (pow2 a < pow2 b)%Q -> (a < b)%Z.
Proof. intros H. apply (Qpower_lt_compat_l_inv 2); [exact H | reflexivity]. Qed.

Lemma pow2_Z (k : Z) : (0 <= k)%Z -> (inject_Z (2 ^ k) == pow2 k)%Q.
Proof. intros H. apply Zpower_Qpower. exact H. Qed.

Lemma pow2_succ (e : Z) : (pow2 (e + 1) == 2 * pow2 e)%Q.
Proof. rewrite pow2_add. change (pow2 1) with 2%Q. ring. Qed.

Lemma pow2_pred (e : Z) : (pow2 (e - 1) == pow2 e * (1 # 2))%Q.
Proof.
  replace e with ((e - 1) + 1)%Z at 2 by lia. rewrite pow2_succ. ring.
Qed.

(** [ilog2 x] is the exponent of the binade of [x]. *)
Lemma ilog2_spec (x : Q) :
  (0 < x)%Q -> (pow2 (ilog2 x) <= x < pow2 (ilog2 x + 1))%Q.
Proof.
  intros Hx. destruct x as [n d].
  assert (Hn : (0 < n)%Z) by (unfold Qlt in Hx; simpl in Hx; lia).
  unfold ilog2. cbn [Qnum Qden].
  set (ln := Z.log2 n). set (ld := Z.log2 (Z.pos d)).
  assert (Hln : (0 <= ln)%Z) by apply Z.log2_nonneg.
  assert (Hld : (0 <= ld)%Z) by apply Z.log2_nonneg.
  destruct (Z.log2_spec n Hn) as [N1 N2]. fold ln in N1, N2.
  destruct (Z.log2_spec (Z.pos d) eq_refl) as [D1 D2]. fold ld in D1, D2.
  assert (Ex : (n # d == inject_Z n / inject_Z (Z.pos d))%Q) by apply Qmake_Qdiv.
  assert (Hd : (0 < inject_Z (Z.pos d))%Q).
  { change 0%Q with (inject_Z 0). rewrite <- Zlt_Qlt. lia. }
  assert (QN1 : (pow2 ln <= inject_Z n)%Q).
  { rewrite <- pow2_Z by exact Hln. rewrite <- Zle_Qle. exact N1. }
  assert (QN2 : (inject_Z n < pow2 (ln + 1))%Q).
  { rewrite <- pow2_Z by lia. rewrite <- Zlt_Qlt.
    replace (ln + 1)%Z with (Z.succ ln) by lia. exact N2. }
  assert (QD1 : (pow2 ld <= inject_Z (Z.pos d))%Q).
  { rewrite <- pow2_Z by exact Hld. rewrite <- Zle_Qle. exact D1. }
  assert (QD2 : (inject_Z (Z.pos d) < pow2 (ld + 1))%Q).
  { rewrite <- pow2_Z by lia. rewrite <- Zlt_Qlt.
    replace (ld + 1)%Z with (Z.succ ld) by lia. exact D2. }
  assert (Up : (n # d < pow2 (ln - ld + 1))%Q).
  { rewrite Ex. apply Qlt_shift_div_r; [exact Hd|].
    replace (ln - ld + 1)%Z with ((ln + 1) + - ld)%Z by lia.
    rewrite pow2_add.
    assert (E1 : (pow2 (- ld) * pow2 ld == 1)%Q).
    { rewrite <- pow2_add. replace (- ld + ld)%Z with 0%Z by lia. reflexivity. }
    pose proof (pow2_pos (- ld)) as P1. pose proof (pow2_pos (ln + 1)) as P2.
    pose proof (pow2_pos ld) as P3.
    apply Qlt_le_trans with (pow2 (ln + 1) * (pow2 (- ld) * pow2 ld))%Q.
    - rewrite E1. lra.
    - rewrite Qmult_assoc. apply Qmult_le_l; [|exact QD1].
      apply Qmult_lt_0_compat; assumption. }
  assert (Lo : (pow2 (ln - ld - 1) <= n # d)%Q).
  { rewrite Ex. apply Qle_shift_div_l; [exact Hd|].
    replace (ln - ld - 1)%Z with (ln + - (ld + 1))%Z by lia.
    rewrite pow2_add.
    assert (E1 : (pow2 (- (ld + 1)) * pow2 (ld + 1) == 1)%Q).
    { rewrite <- pow2_add. replace (- (ld + 1) + (ld + 1))%Z with 0%Z by lia.
      reflexivity. }
    pose proof (pow2_pos (- (ld + 1))) as P1. pose proof (pow2_pos ln) as P2.
    apply Qle_trans with (pow2 ln * (pow2 (- (ld + 1)) * pow2 (ld + 1)))%Q.
    - rewrite <- !Qmult_assoc. apply Qmult_le_l; [exact P2|].
      apply Qmult_le_l; [exact P1|]. apply Qlt_le_weak. exact QD2.
    - rewrite E1. lra. }
  destruct (Qle_bool (pow2 (ln - ld)) (n # d)) eqn:E.
  - apply Qle_bool_iff in E. split; [exact E | exact Up].
  - apply Qle_bool_false in E. split; [exact Lo|].
    replace (ln - ld - 1 + 1)%Z with (ln - ld)%Z by lia. exact E.
Qed.

Lemma ilog2_unique (x : Q) (e : Z) :
  (pow2 e <= x < pow2 (e + 1))%Q -> ilog2 x = e.
Proof.
  intros [H1 H2].
  assert (Hx : (0 < x)%Q) by (pose proof (pow2_pos e); lra).
  destruct (@ilog2_spec x Hx) as [S1 S2].
  assert (L1 : (pow2 e < pow2 (ilog2 x + 1))%Q) by lra.
  assert (L2 : (pow2 (ilog2 x) < pow2 (e + 1))%Q) by lra.
  apply pow2_lt_inv in L1, L2. lia.
Qed.

Lemma round_half_even_within (y : Q) (k : Z) :
  (inject_Z k - (1 # 2) < y < inject_Z k + (1 # 2))%Q ->
  round_half_even y = k.
Proof.
  intros [H1 H2]. pose proof (round_half_even_err y) as He.
  apply Qabs_Qle_condition in He. destruct He as [E1 E2].
  assert (L : (inject_Z (k - 1) < inject_Z (round_half_even y))%Q).
  { replace (k - 1)%Z with (k + -1)%Z by lia. rewrite inject_Z_plus.
    change (inject_Z (-1)) with (-1)%Q. lra. }
  assert (U : (inject_Z (round_half_even y) < inject_Z (k + 1))%Q).
  { rewrite inject_Z_plus. change (inject_Z 1) with 1%Q. lra. }
  rewrite <- Zlt_Qlt in L, U. lia.
Qed.

Lemma Qabs_of_pos (x : Q) : (0 < x)%Q -> Qabs x = x.
Proof.
  intros Hx. destruct x as [n d]. unfold Qabs.
  assert (Hn : (0 < n)%Z) by (unfold Qlt in Hx; simpl in Hx; lia).
  now rewrite Z.abs_eq by lia.
Qed.

Lemma Qis_zero_false (x : Q) : ~ (x == 0)%Q -> Qis_zero x = false.
Proof.
  intros H. destruct (Qis_zero x) eqn:E; [|reflexivity].
  apply Qis_zero_iff in E. contradiction.
Qed.

(** Rounding a positive [x] of binade [e] (not below the normal range)
    that lies within half an ulp of [k] ulps gives [k] ulps. *)
Lemma round_to_binade (f : format) (x : Q) (e k : Z) :
  (pow2 e <= x < pow2 (e + 1))%Q -> (emin f <= e)%Z ->
  let ulp := pow2 (e - prec f + 1) in
  (inject_Z k - (1 # 2) < x / ulp < inject_Z k + (1 # 2))%Q ->
  (Qabs (inject_Z k * ulp) < pow2 (emax f + 1))%Q ->
  round_to f x = Fin (inject_Z k * ulp).
Proof.
  intros Hb He ulp Hk Hov.
  assert (Hx : (0 < x)%Q) by (pose proof (pow2_pos e); lra).
  unfold round_to, ulp_of.
  rewrite (@Qis_zero_false x) by lra.
  rewrite (@Qabs_of_pos x Hx), (@ilog2_unique x e Hb), Z.max_l by lia.
  fold ulp. rewrite (@round_half_even_within (x / ulp) k Hk).
  destruct (Qle_bool (pow2 (emax f + 1)) (Qabs (inject_Z k * ulp))) eqn:E;
    [|reflexivity].
  apply Qle_bool_iff in E. lra.
Qed.

(** The error of one rounding: relative to [x] in the normal range,
    absolute below it; a magnitude within the largest binade's base
    does not overflow. *)
Lemma round_to_error (f : format) (x : Q) :
  (1 <= prec f)%Z -> (emin f <= emax f)%Z ->
  (Qabs x <= pow2 (emax f))%Q ->
  exists r,
    round_to f x = Fin r /\
    (Qabs (r - x) <= Qabs x * pow2 (- prec f) + pow2 (emin f - prec f))%Q.
Proof.
  intros Hp Hm Hx. unfold round_to.
  destruct (Qis_zero x) eqn:Ez.
  - apply Qis_zero_iff in Ez. exists 0%Q. split; [reflexivity|].
    pose proof (pow2_pos (- prec f)). pose proof (pow2_pos (emin f - prec f)).
    pose proof (Qabs_nonneg x).
    setoid_replace (0 - x)%Q with 0%Q by (rewrite Ez; ring).
    change (Qabs 0) with 0%Q. nra.
  - assert (Hnz : ~ (x == 0)%Q).
    { intros E0. apply Qis_zero_iff in E0. congruence. }
    assert (Ha : (0 < Qabs x)%Q).
    { pose proof (Qabs_nonneg x). destruct (Qlt_le_dec 0 (Qabs x)); [assumption|].
      elim Hnz. apply Qabs_Qle_condition in q. lra. }
    destruct (@ilog2_spec (Qabs x) Ha) as [S1 S2].
    set (l := ilog2 (Qabs x)) in *.
    assert (Hl : (l <= emax f)%Z).
    { assert (L : (pow2 l < pow2 (emax f + 1))%Q).
      { apply Qle_lt_trans with (Qabs x); [exact S1|].
        apply Qle_lt_trans with (pow2 (emax f)); [exact Hx|].
        apply pow2_lt. lia. }
      apply pow2_lt_inv in L. lia. }
    unfold ulp_of. fold l.
    set (e := Z.max l (emin f)).
    set (ulp := pow2 (e - prec f + 1)).
    assert (Hu : (0 < ulp)%Q) by apply pow2_pos.
    set (z := round_half_even (x / ulp)).
    pose proof (round_half_even_err (x / ulp)) as Herr. fold z in Herr.
    assert (Er : (Qabs (inject_Z z * ulp - x) <= ulp * (1 # 2))%Q).
    { setoid_replace (inject_Z z * ulp - x)%Q
        with ((inject_Z z - x / ulp) * ulp)%Q by (field; lra).
      rewrite Qabs_Qmult, (Qabs_pos ulp) by lra.
      rewrite (Qmult_comm ulp).
      apply Qmult_le_compat_r; [exact Herr | lra]. }
    assert (Eh : (ulp * (1 # 2) == pow2 (e - prec f))%Q).
    { unfold ulp. rewrite pow2_succ. ring. }
    assert (Hb : (pow2 (e - prec f)
                  <= Qabs x * pow2 (- prec f) + pow2 (emin f - prec f))%Q).
    { pose proof (pow2_pos (- prec f)) as P1.
      pose proof (pow2_pos (emin f - prec f)) as P2.
      destruct (Z.max_spec l (emin f)) as [[Hlt Em]|[Hge Em]]; fold e in Em.
      - rewrite Em. nra.
      - rewrite Em. replace (l - prec f)%Z with (l + - prec f)%Z by lia.
        rewrite pow2_add.
        assert (pow2 l * pow2 (- prec f) <= Qabs x * pow2 (- prec f))%Q
          by (apply Qmult_le_compat_r; lra).
        lra. }
    destruct (Qle_bool (pow2 (emax f + 1)) (Qabs (inject_Z z * ulp))) eqn:Eo.
    + exfalso. apply Qle_bool_iff in Eo.
      assert (T : (Qabs (inject_Z z * ulp) <= Qabs x + ulp * (1 # 2))%Q).
      { setoid_replace (inject_Z z * ulp)%Q
          with (x + (inject_Z z * ulp - x))%Q by ring.
        eapply Qle_trans; [apply Qabs_triangle|]. lra. }
      assert (Hh : (pow2 (e - prec f) <= pow2 (emax f - 1))%Q).
      { apply pow2_le. lia. }
      assert (E2 : (pow2 (emax f + 1) == 2 * pow2 (emax f))%Q) by apply pow2_succ.
      assert (E3 : (pow2 (emax f - 1) == pow2 (emax f) * (1 # 2))%Q)
        by apply pow2_pred.
      pose proof (pow2_pos (emax f)). lra.
    + exists (inject_Z z * ulp)%Q. split; [reflexivity|]. lra.
Qed.

Lemma round_half_even_comp (x y : Q) :
  (x == y)%Q -> round_half_even x = round_half_even y.
Proof.
  intros E. unfold round_half_even.
  assert (Ef : Qfloor x = Qfloor y) by (now rewrite E).
  rewrite Ef.
  assert (Ec : Qcompare (x - inject_Z (Qfloor y)) (1 # 2)
               = Qcompare (y - inject_Z (Qfloor y)) (1 # 2)) by (now rewrite E).
  now rewrite Ec.
Qed.

Lemma ilog2_comp (x y : Q) : (0 < x)%Q -> (x == y)%Q -> ilog2 x = ilog2 y.
Proof.
  intros Hx E. symmetry. apply ilog2_unique.
  destruct (@ilog2_spec x Hx) as [H1 H2]. lra.
Qed.

Lemma Qsgn_pos_comp (x y : Q) : (x == y)%Q -> Qsgn_pos x = Qsgn_pos y.
Proof.
  intros E. unfold Qsgn_pos. unfold Qeq in E.
  destruct x as [a b], y as [c d]. cbn [Qnum Qden] in *.
  destruct (Z.ltb_spec 0 a), (Z.ltb_spec 0 c); try reflexivity; nia.
Qed.

Lemma Qis_zero_comp (x y : Q) : (x == y)%Q -> Qis_zero x = Qis_zero y.
Proof.
  intros E. destruct (Qis_zero x) eqn:Ex.
  - symmetry. apply Qis_zero_iff. apply Qis_zero_iff in Ex. lra.
  - symmetry. apply Qis_zero_false. intros Hy.
    assert (Hx : Qis_zero x = true) by (apply Qis_zero_iff; lra).
    congruence.
Qed.

(** Rounding does not see how a rational is written. *)
Lemma round_to_comp (f : format) (x y : Q) :
  (x == y)%Q -> round_to f x = round_to f y.
Proof.
  intros E. unfold round_to.
  rewrite <- (Qis_zero_comp E).
  destruct (Qis_zero x) eqn:Ez; [reflexivity|].
  assert (Hx : ~ (x == 0)%Q) by (rewrite <- Qis_zero_iff; congruence).
  assert (Ha : (0 < Qabs x)%Q).
  { destruct (Qlt_le_dec 0 x) as [Hp|Hn].
    - rewrite Qabs_pos; lra.
    - rewrite Qabs_neg; lra. }
  assert (Eu : ulp_of f x = ulp_of f y).
  { unfold ulp_of. rewrite (@ilog2_comp (Qabs x) (Qabs y) Ha); [reflexivity|].
    apply Qabs_wd. exact E. }
  rewrite <- Eu.
  assert (Er : round_half_even (x / ulp_of f x) = round_half_even (y / ulp_of f x))
    by (apply round_half_even_comp; unfold Qdiv;
        apply Qmult_comp; [exact E | reflexivity]).
  rewrite <- Er. rewrite <- (Qsgn_pos_comp E). reflexivity.
Qed.

Lemma round_half_even_Z (m : Z) : round_half_even (inject_Z m) = m.
Proof. apply round_half_even_within. lra. Qed.

Lemma Qle_bool_comp_r (a x y : Q) :
  (x == y)%Q -> Qle_bool a x = Qle_bool a y.
Proof.
  intros E. destruct (Qle_bool a x) eqn:E1, (Qle_bool a y) eqn:E2;
    try reflexivity.
  - apply Qle_bool_iff in E1. apply Qle_bool_false in E2. lra.
  - apply Qle_bool_iff in E2. apply Qle_bool_false in E1. lra.
Qed.

(** A value of the format rounds to itself. *)
Lemma round_to_idem (f : format) (x r : Q) :
  (1 <= prec f)%Z -> round_to f x = Fin r ->
  exists r', round_to f r = Fin r' /\ (r' == r)%Q.
Proof.
  intros Hp H. unfold round_to in H.
  destruct (Qis_zero x) eqn:Ez.
  { inversion H; subst r. exists 0%Q. split; reflexivity. }
  assert (Hx : ~ (x == 0)%Q) by (rewrite <- Qis_zero_iff; congruence).
  assert (Ha : (0 < Qabs x)%Q).
  { destruct (Qlt_le_dec 0 x) as [Hpos|Hneg].
    - rewrite Qabs_pos; lra.
    - rewrite Qabs_neg; lra. }
  unfold ulp_of in H.
  set (e := ilog2 (Qabs x)) in *.
  set (me := Z.max e (emin f)) in *.
  set (u := pow2 (me - prec f + 1)) in *.
  set (n := round_half_even (x / u)) in *.
  destruct (Qle_bool (pow2 (emax f + 1)) (Qabs (inject_Z n * u))) eqn:Eov;
    [destruct (Qsgn_pos x); discriminate|].
  inversion H; subst r. clear H.
  assert (Hu : (0 < u)%Q) by apply pow2_pos.
  destruct (Z.eq_dec n 0) as [En|En].
  { rewrite En. exists 0%Q. split; [|ring].
    unfold round_to.
    assert (Z0 : Qis_zero (inject_Z 0 * u) = true)
      by (apply Qis_zero_iff; ring).
    now rewrite Z0. }
  (* the magnitude of the significand *)
  set (N := Z.abs n).
  assert (HN : (1 <= N)%Z) by (unfold N; lia).
  assert (Er : (Qabs (inject_Z n * u) == inject_Z N * u)%Q).
  { rewrite Qabs_Qmult, (Qabs_pos u) by lra. reflexivity. }
  assert (Hy : (Qabs (x / u) < pow2 (prec f))%Q).
  { destruct (@ilog2_spec (Qabs x) Ha) as [_ Hhi]. fold e in Hhi.
    assert (Hle : (pow2 (e + 1) <= pow2 (me + 1))%Q)
      by (apply pow2_le; unfold me; lia).
    assert (Epu : (pow2 (prec f) * u == pow2 (me + 1))%Q).
    { unfold u. rewrite <- pow2_add. f_equiv. lia. }
    unfold Qdiv. rewrite Qabs_Qmult, (Qabs_pos (/ u))
      by (apply Qlt_le_weak, Qinv_lt_0_compat; exact Hu).
    apply Qlt_shift_div_r; [exact Hu|]. lra. }
  assert (HNp : (N <= 2 ^ prec f)%Z).
  { pose proof (round_half_even_err (x / u)) as Herr. fold n in Herr.
    assert (Hq : (inject_Z N < inject_Z (2 ^ prec f + 1))%Q).
    { rewrite inject_Z_plus, (@pow2_Z (prec f)) by lia.
      change (inject_Z 1) with 1%Q.
      assert (T : (Qabs (inject_Z n) <= Qabs (inject_Z n - x / u) + Qabs (x / u))%Q).
      { setoid_replace (inject_Z n) with ((inject_Z n - x / u) + x / u)%Q at 1
          by ring.
        apply Qabs_triangle. }
      change (Qabs (inject_Z n)) with (inject_Z N) in T. lra. }
    rewrite <- Zlt_Qlt in Hq. lia. }
  set (L := Z.log2 N).
  assert (HL0 : (0 <= L)%Z) by apply Z.log2_nonneg.
  destruct (Z.log2_spec N ltac:(lia)) as [HL1 HL2]. fold L in HL1, HL2.
  assert (HLp : (L <= prec f)%Z).
  { unfold L. rewrite <- (Z.log2_pow2 (prec f)) by lia.
    apply Z.log2_le_mono. exact HNp. }
  assert (Q1 : (pow2 L <= inject_Z N)%Q).
  { rewrite <- (@pow2_Z L) by lia. rewrite <- Zle_Qle. exact HL1. }
  assert (Q2 : (inject_Z N < pow2 (L + 1))%Q).
  { rewrite <- (@pow2_Z (L + 1)) by lia. rewrite <- Zlt_Qlt.
    replace (L + 1)%Z with (Z.succ L) by lia. exact HL2. }
  assert (Ee' : ilog2 (Qabs (inject_Z n * u)) = (L + (me - prec f + 1))%Z).
  { apply ilog2_unique. rewrite Er.
    replace (L + (me - prec f + 1) + 1)%Z with ((L + 1) + (me - prec f + 1))%Z
      by lia.
    assert (B1 : (pow2 (L + (me - prec f + 1)) == pow2 L * u)%Q)
      by (rewrite pow2_add; reflexivity).
    assert (B2 : (pow2 (L + 1 + (me - prec f + 1)) == pow2 (L + 1) * u)%Q)
      by (rewrite pow2_add; reflexivity).
    rewrite B1, B2. split.
    - apply Qmult_le_compat_r; lra.
    - apply Qmult_lt_compat_r; lra. }
  set (me' := Z.max (L + (me - prec f + 1)) (emin f)).
  set (u' := pow2 (me' - prec f + 1)).
  assert (Hu' : (0 < u')%Q) by apply pow2_pos.
  assert (Hm : exists m, (inject_Z m * u' == inject_Z n * u)%Q).
  { assert (Hme : (emin f <= me)%Z) by (unfold me; lia).
    destruct (Z.eq_dec L (prec f)) as [EL|NL].
    - (* the significand is 2^prec: the value is the base of the next binade *)
      assert (EN : N = (2 ^ prec f)%Z) by (rewrite EL in HL1; lia).
      assert (Eme' : me' = (me + 1)%Z) by (unfold me'; lia).
      exists (n / 2)%Z.
      assert (En2 : n = (2 * (n / 2))%Z).
      { assert (Hdiv : (2 | n)%Z).
        { apply Z.divide_abs_r. fold N. rewrite EN.
          exists (2 ^ (prec f - 1))%Z.
          replace (prec f) with ((prec f - 1) + 1)%Z at 1 by lia.
          rewrite Z.pow_add_r by lia. rewrite Z.pow_1_r. reflexivity. }
        destruct Hdiv as [k Hk]. rewrite Hk.
        rewrite Z.div_mul by lia. lia. }
      rewrite En2 at 2. rewrite inject_Z_mult.
      unfold u'. rewrite Eme'.
      replace (me + 1 - prec f + 1)%Z with ((me - prec f + 1) + 1)%Z by lia.
      rewrite pow2_succ. fold u. change (inject_Z 2) with 2%Q. ring.
    - assert (Hd : (0 <= me - me')%Z) by (unfold me'; lia).
      exists (n * 2 ^ (me - me'))%Z.
      rewrite inject_Z_mult, (@pow2_Z (me - me')) by lia.
      unfold u'. rewrite <- Qmult_assoc, <- pow2_add.
      replace (me - me' + (me' - prec f + 1))%Z with (me - prec f + 1)%Z by lia.
      reflexivity. }
  destruct Hm as (m & Em).
  exists (inject_Z m * u')%Q. split; [|exact Em].
  unfold round_to.
  assert (Znz : Qis_zero (inject_Z n * u) = false).
  { apply Qis_zero_false. intros E0.
    assert (A0 : (Qabs (inject_Z n * u) == 0)%Q) by (rewrite E0; reflexivity).
    rewrite Er in A0.
    assert (1 <= inject_Z N)%Q
      by (change 1%Q with (inject_Z 1); rewrite <- Zle_Qle; exact HN).
    nra. }
  rewrite Znz. unfold ulp_of. rewrite Ee'. fold me'. fold u'.
  assert (Erh : round_half_even (inject_Z n * u / u') = m).
  { transitivity (round_half_even (inject_Z m)); [|apply round_half_even_Z].
    apply round_half_even_comp. rewrite <- Em. field. lra. }
  rewrite Erh.
  rewrite (@Qle_bool_comp_r _ (Qabs (inject_Z m * u')) (Qabs (inject_Z n * u)))
    by (apply Qabs_wd; exact Em).
  rewrite Eov. reflexivity.
Qed.

(** ** Shapes and indices *)

Lemma bind_ok {A B} (r : result A) (k : A -> result B) (b : B) :
  bind r k = Ok b -> exists a, r = Ok a /\ k a = Ok b.
Proof. destruct r as [a|e]; simpl; [eauto | discriminate]. Qed.

Lemma bdim_refl (a : nat) : bdim a a = Ok a.
Proof. unfold bdim. now rewrite Nat.eqb_refl. Qed.

Lemma bdim_1_r (a : nat) : bdim a 1 = Ok a.
Proof.
  unfold bdim. destruct (a =? 1) eqn:E; [|reflexivity].
  apply Nat.eqb_eq in E. now subst.
Qed.

Lemma bdim_1_l (a : nat) : bdim 1 a = Ok a.
Proof.
  unfold bdim. destruct (1 =? a) eqn:E; [|reflexivity].
  apply Nat.eqb_eq in E. now subst.
Qed.

Lemma bdim_clash (a b : nat) :
  a <> b -> a <> 1 -> b <> 1 -> bdim a b = Raise BroadcastError.
Proof.
  intros Hab Ha Hb. unfold bdim.
  apply Nat.eqb_neq in Hab, Ha, Hb. now rewrite Hab, Ha, Hb.
Qed.

(** Broadcasting two rank-4 shapes that agree on their batch axes. *)
Lemma broadcast_shapes4 (B H R C R' C' : nat) :
  broadcast_shapes [B; H; R; C] [B; H; R'; C'] =
  (c <- bdim C C' ;; r <- bdim R R' ;; Ok [B; H; r; c]).
Proof.
  unfold broadcast_shapes. cbn [rev app bshape_rev].
  destruct (bdim C C'); cbn [bind]; [|reflexivity].
  destruct (bdim R R'); cbn [bind]; [|reflexivity].
  rewrite !bdim_refl. reflexivity.
Qed.

Lemma broadcast_shapes_refl2 (B H : nat) :
  broadcast_shapes [B; H] [B; H] = Ok [B; H].
Proof.
  unfold broadcast_shapes. cbn [rev app bshape_rev].
  rewrite !bdim_refl. reflexivity.
Qed.

Lemma unit_or_lt (d i : nat) : i < d -> unit_or d i = i.
Proof.
  intros Hi. unfold unit_or. destruct (Nat.eqb_spec d 1); [lia | reflexivity].
Qed.

Lemma unit_or_idem (d i : nat) : unit_or d (unit_or d i) = unit_or d i.
Proof. unfold unit_or. now destruct (d =? 1). Qed.

Lemma bindex4 (B H R C b h i j : nat) :
  bindex [B; H; R; C] [b; h; i; j]
  = [unit_or B b; unit_or H h; unit_or R i; unit_or C j].
Proof. reflexivity. Qed.

Lemma bindex2 (B H b h : nat) :
  bindex [B; H] [b; h] = [unit_or B b; unit_or H h].
Proof. reflexivity. Qed.

Lemma zero_unit_dims_inb (s idx : list nat) :
  inb s idx = true -> zero_unit_dims s idx = idx.
Proof.
  revert idx.
  induction s as [|d s IH]; intros [|i idx]; simpl; try discriminate; auto.
  intros Hin. apply andb_prop in Hin as [Hi Hs]. apply Nat.ltb_lt in Hi.
  rewrite (IH _ Hs). fold (unit_or d i). now rewrite unit_or_lt.
Qed.

Lemma inb_length (s idx : list nat) : inb s idx = true -> length idx = length s.
Proof.
  revert idx.
  induction s as [|d s IH]; intros [|i idx]; simpl; try discriminate; auto.
  intros Hin. apply andb_prop in Hin as [_ Hs]. f_equal. auto.
Qed.

Lemma bindex_inb (s idx : list nat) : inb s idx = true -> bindex s idx = idx.
Proof.
  intros Hin. unfold bindex.
  rewrite (inb_length _ _ Hin), Nat.sub_diag. simpl.
  now apply zero_unit_dims_inb.
Qed.

Lemma inb4 (B H R C b h i j : nat) :
  inb [B; H; R; C] [b; h; i; j] = true <-> b < B /\ h < H /\ i < R /\ j < C.
Proof.
  simpl. rewrite !andb_true_iff, !Nat.ltb_lt. tauto.
Qed.

(** Resolve the broadcast reads of in-bounds indices. *)
Ltac simp_idx :=
  rewrite ?bindex4, ?bindex2;
  repeat match goal with
         | H : ?i < ?d |- context [unit_or ?d ?i] => rewrite (unit_or_lt H)
         end;
  change (unit_or 1 ?x) with 0 in *.

(** ** The operations at rank 4 *)

Lemma reduce_last4 {A B0} (f : list A -> B0) (t : tensor A) (B H R C : nat) :
  shape t = [B; H; R; C] ->
  reduce_keepdims f (-1) t
  = Ok (mkT [B; H; R; 1] (fun idx => f (lane t 3 idx))).
Proof.
  intros Hs. unfold reduce_keepdims, rank. rewrite Hs. reflexivity.
Qed.

Lemma reduce_rows4 {A B0} (f : list A -> B0) (t : tensor A) (B H R C : nat) :
  shape t = [B; H; R; C] ->
  reduce_keepdims f (-2) t
  = Ok (mkT [B; H; 1; C] (fun idx => f (lane t 2 idx))).
Proof.
  intros Hs. unfold reduce_keepdims, rank. rewrite Hs. reflexivity.
Qed.

Lemma lane_last4 {A} (t : tensor A) (B H R C b h i j : nat) :
  shape t = [B; H; R; C] -> lane t 3 [b; h; i; j] = row_of t b h i C.
Proof. intros Hs. unfold lane. rewrite Hs. reflexivity. Qed.

Lemma lane_rows4 {A} (t : tensor A) (B H R C b h i j : nat) :
  shape t = [B; H; R; C] -> lane t 2 [b; h; i; j] = col_of t b h j R.
Proof. intros Hs. unfold lane. rewrite Hs. reflexivity. Qed.

Lemma broadcast2_4 {A B0 C0} (f : A -> B0 -> C0) (x : tensor A) (y : tensor B0)
  (B H R C R' C' r c : nat) :
  shape x = [B; H; R; C] -> shape y = [B; H; R'; C'] ->
  bdim R R' = Ok r -> bdim C C' = Ok c ->
  broadcast2 f x y
  = Ok (mkT [B; H; r; c]
            (fun idx => f (get x (bindex [B; H; R; C] idx))
                          (get y (bindex [B; H; R'; C'] idx)))).
Proof.
  intros Hx Hy Hr Hc. unfold broadcast2.
  rewrite Hx, Hy, broadcast_shapes4, Hc, Hr. reflexivity.
Qed.

Lemma transpose_0132 {A} (t : tensor A) (B H R C : nat) :
  shape t = [B; H; R; C] ->
  transpose [0; 1; 3; 2] t
  = Ok (mkT [B; H; C; R]
            (fun idx => get t [nth 0 idx 0; nth 1 idx 0; nth 3 idx 0; nth 2 idx 0])).
Proof.
  intros Hs. unfold transpose, rank. rewrite Hs. reflexivity.
Qed.

Lemma matmul_with4 {A} (zero : A) (add mul : A -> A -> A) (x y : tensor A)
  (B H N K M : nat) :
  shape x = [B; H; N; K] -> shape y = [B; H; K; M] ->
  matmul_with zero add mul x y
  = Ok (mkT [B; H; N; M]
            (fun idx =>
               let bi := firstn 2 idx in
               fold_left add
                 (map (fun l => mul (get x (bindex [B; H] bi ++ [nth 2 idx 0; l]))
                                    (get y (bindex [B; H] bi ++ [l; nth 3 idx 0])))
                      (seq 0 K))
                 zero)).
Proof.
  intros Hx Hy. unfold matmul_with, split_last2. rewrite Hx, Hy.
  cbn [rev app bind]. rewrite Nat.eqb_refl, broadcast_shapes_refl2.
  reflexivity.
Qed.

Lemma matmul_with4_clash {A} (zero : A) (add mul : A -> A -> A) (x y : tensor A)
  (B H N K K' M : nat) :
  shape x = [B; H; N; K] -> shape y = [B; H; K'; M] -> K <> K' ->
  matmul_with zero add mul x y = Raise ContractionError.
Proof.
  intros Hx Hy HK. unfold matmul_with, split_last2. rewrite Hx, Hy.
  cbn [rev app bind]. apply Nat.eqb_neq in HK. now rewrite HK.
Qed.

(** ** The quantizer and the dequantized scores, elementwise *)

Lemma quantize_int8_4 (x : tensor fval) (B H R C : nat) :
  shape x = [B; H; R; C] -> C <> 0 ->
  exists x8 sc,
    quantize_int8 x = Ok (x8, sc) /\
    shape x8 = [B; H; R; C] /\ shape sc = [B; H; R; 1] /\
    (forall b h i, get sc [b; h; i; 0] = row_scale x b h i C) /\
    (forall b h i j, b < B -> h < H -> i < R -> j < C ->
       get x8 [b; h; i; j] = quantized x b h i j C).
Proof.
  intros Hx HC. unfold quantize_int8, max_keepdims, rank.
  assert (Hf : shape (tmap fabs x) = [B; H; R; C]) by exact Hx.
  rewrite Hf. change (norm_axis (length [B; H; R; C]) (-1)) with (Ok (A:=nat) 3).
  cbn [bind nth]. apply Nat.eqb_neq in HC. rewrite HC.
  rewrite (reduce_last4 _ _ Hf). cbn [bind].
  erewrite broadcast2_4;
    [| exact Hx | reflexivity | apply bdim_refl | apply bdim_1_r].
  cbn [bind]. eexists _, _. split; [reflexivity|].
  split; [reflexivity|]. split; [reflexivity|]. split.
  - intros b h i. cbn [get tmap]. now rewrite (lane_last4 _ _ _ _ _ Hf).
  - intros b h i j Hb Hh Hi Hj. cbn [get tmap shape].
    simp_idx.
    now rewrite (lane_last4 _ _ _ _ _ Hf).
Qed.

Lemma matmul_int8_4 (x y : tensor Z) (B H N K M : nat) :
  shape x = [B; H; N; K] -> shape y = [B; H; K; M] ->
  exists s,
    matmul_int8 x y = Ok s /\ shape s = [B; H; N; M] /\
    forall b h i j, b < B -> h < H ->
      get s [b; h; i; j]
      = wrap8 (fold_left Z.add
                 (map (fun l => (get x [b; h; i; l] * get y [b; h; l; j])%Z)
                      (seq 0 K)) 0%Z).
Proof.
  intros Hx Hy. unfold matmul_int8. rewrite (matmul_with4 _ _ _ _ _ Hx Hy).
  eexists. split; [reflexivity|]. split; [reflexivity|].
  intros b h i j Hb Hh. cbn [get firstn nth]. simp_idx.
  cbn [app]. change 0%Z with (wrap8 0) at 1.
  apply (fold_add8_wrap (fun l => get x [b; h; i; l]) (fun l => get y [b; h; l; j])).
Qed.

Lemma int_dot_quantized (q k : tensor fval) (q8 k8 : tensor Z)
  (b h i j n m : nat) :
  (forall l, l < n -> get q8 [b; h; i; l] = quantized q b h i l n) ->
  (forall l, l < n -> get k8 [b; h; l; j] = quantized k b h l j m) ->
  fold_left Z.add
    (map (fun l => (get q8 [b; h; i; l] * get k8 [b; h; l; j])%Z) (seq 0 n)) 0%Z
  = int_dot q k b h i j n m.
Proof.
  intros Hq Hk. unfold int_dot. f_equal. apply map_ext_in.
  intros l Hl. apply in_seq in Hl. rewrite Hq, Hk by lia. reflexivity.
Qed.

Lemma dequantized_scores_4 (q k : tensor fval) (B H Lq D Lk c : nat) :
  shape q = [B; H; Lq; D] -> shape k = [B; H; D; Lk] ->
  D <> 0 -> Lk <> 0 -> bdim Lk D = Ok c ->
  exists s,
    dequantized_scores q k = Ok s /\ shape s = [B; H; Lq; c] /\
    forall b h i j, b < B -> h < H -> i < Lq -> j < c ->
      get s [b; h; i; j] = dequantized q k b h i j D Lk.
Proof.
  intros Hq Hk HD HL Hc. unfold dequantized_scores.
  destruct (quantize_int8_4 q Hq HD) as (q8 & qs & -> & Hq8 & Hqs & Eqs & Eq8).
  destruct (quantize_int8_4 k Hk HL) as (k8 & ks & -> & Hk8 & Hks & Eks & Ek8).
  cbn [bind].
  destruct (matmul_int8_4 q8 k8 Hq8 Hk8) as (s & -> & Hs & Es).
  cbn [bind]. rewrite (transpose_0132 ks Hks). cbn [bind].
  erewrite broadcast2_4;
    [| exact Hqs | reflexivity | apply bdim_1_r | apply bdim_1_l].
  cbn [bind].
  erewrite broadcast2_4; [| exact Hs | reflexivity | apply bdim_refl | exact Hc].
  eexists. split; [reflexivity|]. split; [reflexivity|].
  intros b h i j Hb Hh Hi Hj. cbn [get tmap nth].
  simp_idx.
  rewrite Es, Eqs, Eks by assumption. cbn [nth].
  simp_idx. rewrite unit_or_idem. unfold dequantized.
  assert (Hu : unit_or Lk j < Lk).
  { unfold unit_or. unfold bdim in Hc.
    destruct (Nat.eqb_spec Lk 1); [lia|].
    destruct (Nat.eqb_spec Lk D); [congruence|].
    destruct (Nat.eqb_spec D 1); [congruence | discriminate]. }
  rewrite (@int_dot_quantized q k q8 k8 b h i (unit_or Lk j) D Lk).
  - reflexivity.
  - intros l Hl. now apply Eq8.
  - intros l Hl. now apply Ek8.
Qed.

Lemma dequantized_scores_clash (q k : tensor fval) (B H Lq D Lk : nat) :
  shape q = [B; H; Lq; D] -> shape k = [B; H; D; Lk] ->
  1 < D -> 1 < Lk -> Lk <> D ->
  dequantized_scores q k = Raise BroadcastError.
Proof.
  intros Hq Hk HD HL Hne. unfold dequantized_scores.
  destruct (quantize_int8_4 q Hq) as (q8 & qs & -> & Hq8 & Hqs & _); [lia|].
  destruct (quantize_int8_4 k Hk) as (k8 & ks & -> & Hk8 & Hks & _); [lia|].
  cbn [bind].
  destruct (matmul_int8_4 q8 k8 Hq8 Hk8) as (s & -> & Hs & _).
  cbn [bind]. rewrite (transpose_0132 ks Hks). cbn [bind].
  erewrite broadcast2_4;
    [| exact Hqs | reflexivity | apply bdim_1_r | apply bdim_1_l].
  cbn [bind]. unfold broadcast2. cbn [shape tmap].
  rewrite Hs, broadcast_shapes4, bdim_clash by lia. reflexivity.
Qed.

(** ** Smoothing, masking and the softmax input, elementwise *)

Lemma smooth_4 (k : tensor fval) (B H D Lk : nat) :
  shape k = [B; H; D; Lk] ->
  exists k',
    smooth true k = Ok k' /\ shape k' = [B; H; D; Lk] /\
    forall b h d j, b < B -> h < H -> d < D -> j < Lk ->
      get k' [b; h; d; j]
      = fsub (get k [b; h; d; j]) (fmean (col_of k b h j D)).
Proof.
  intros Hk. unfold smooth, mean_keepdims.
  rewrite (reduce_rows4 _ _ Hk). cbn [bind].
  erewrite broadcast2_4;
    [| exact Hk | reflexivity | apply bdim_1_r | apply bdim_refl].
  eexists. split; [reflexivity|]. split; [reflexivity|].
  intros b h d j Hb Hh Hd Hj. cbn [get]. simp_idx.
  now rewrite (lane_rows4 _ _ _ _ _ Hk).
Qed.

Lemma smooth_shape (smooth_k : bool) (k : tensor fval) (B H D Lk : nat) :
  shape k = [B; H; D; Lk] ->
  exists k', smooth smooth_k k = Ok k' /\ shape k' = [B; H; D; Lk].
Proof.
  intros Hk. destruct smooth_k.
  - destruct (smooth_4 k Hk) as (k' & E & Hs & _). eauto.
  - exists k. split; [reflexivity | assumption].
Qed.

Lemma causal_mask_4 (s : tensor fval) (B H R C : nat) :
  shape s = [B; H; R; C] ->
  exists s',
    causal_mask true s = Ok s' /\ shape s' = [B; H; R; C] /\
    forall b h i j,
      get s' [b; h; i; j] = if j <=? i then get s [b; h; i; j] else NInf.
Proof.
  intros Hs. unfold causal_mask, tril, ones_like, rank. cbn [shape].
  rewrite Hs. cbn [length Nat.ltb Nat.leb bind].
  eexists. split; [reflexivity|]. split; [exact Hs|].
  intros b h i j. cbn [get where_eq0 nth Nat.sub].
  destruct (j <=? i); reflexivity.
Qed.

Section KernelFacts.
Context {FL : FloatLib}.

(** What [softmax_input] is made of: the dequantized scores [sc] go to
    the masks unscaled; [pre_scores] is [sc] over [sqrt(head_dim)]. *)
Lemma softmax_input_inv (q k : tensor fval) (mp : ModelParams)
  (attn_mask : option (tensor fval)) (is_causal smooth_k : bool)
  (s pre : tensor fval) :
  softmax_input q k mp attn_mask is_causal smooth_k = Ok (s, pre) ->
  exists k' sc s1,
    smooth smooth_k k = Ok k' /\
    dequantized_scores q k' = Ok sc /\
    add_mask attn_mask sc = Ok s1 /\
    causal_mask is_causal s1 = Ok s /\
    pre = tmap (fun a => fdiv a (fsqrt (of_nat (head_dim mp)))) sc.
Proof.
  unfold softmax_input. intros E.
  apply bind_ok in E as (k' & Ek & E).
  apply bind_ok in E as (sc & Esc & E).
  apply bind_ok in E as (s1 & Es1 & E).
  apply bind_ok in E as (s2 & Es2 & E).
  inversion E; subst. exists k', sc, s1. auto.
Qed.

(** The kernel on operands of the documented shapes, with no additive
    mask, when the key length equals [head_dim]. *)
Lemma softmax_input_4 (q k : tensor fval) (mp : ModelParams)
  (is_causal smooth_k : bool) (B H Lq D : nat) :
  shape q = [B; H; Lq; D] -> shape k = [B; H; D; D] -> D <> 0 ->
  exists k' s pre,
    smooth smooth_k k = Ok k' /\
    softmax_input q k mp None is_causal smooth_k = Ok (s, pre) /\
    shape s = [B; H; Lq; D] /\ shape pre = [B; H; Lq; D] /\
    forall b h i j, b < B -> h < H -> i < Lq -> j < D ->
      get s [b; h; i; j]
      = (if is_causal && negb (j <=? i) then NInf
         else dequantized q k' b h i j D D) /\
      get pre [b; h; i; j]
      = fdiv (dequantized q k' b h i j D D) (fsqrt (of_nat (head_dim mp))).
Proof.
  intros Hq Hk HD.
  destruct (smooth_shape smooth_k k Hk) as (k' & Ek & Hk').
  destruct (dequantized_scores_4 q k' Hq Hk' HD HD (bdim_refl D))
    as (sc & Esc & Hsc & Vsc).
  unfold softmax_input. rewrite Ek. cbn [bind]. rewrite Esc. cbn [bind add_mask].
  destruct is_causal.
  - destruct (causal_mask_4 sc Hsc) as (s' & -> & Hs' & Vs'). cbn [bind].
    exists k', s', (tmap (fun a => fdiv a (fsqrt (of_nat (head_dim mp)))) sc).
    repeat split; auto.
    + rewrite Vs'. cbn [andb]. destruct (j <=? i); cbn [negb]; auto.
    + cbn [get tmap]. now rewrite Vsc.
  - cbn [causal_mask bind].
    exists k', sc, (tmap (fun a => fdiv a (fsqrt (of_nat (head_dim mp)))) sc).
    repeat split; auto.
    cbn [get tmap]. now rewrite Vsc.
Qed.

(** Away from [kv_len = head_dim] (both above 1) line 50 cannot
    broadcast, whatever the flags and the mask. *)
Lemma sageattn_broadcast_error (q k v : tensor fval) (mp : ModelParams)
  (attn_mask : option (tensor fval)) (is_causal smooth_k : bool)
  (B H Lq D Lk : nat) :
  shape q = [B; H; Lq; D] -> shape k = [B; H; D; Lk] ->
  1 < D -> 1 < Lk -> Lk <> D ->
  sageattn q k v mp attn_mask is_causal smooth_k = Raise BroadcastError.
Proof.
  intros Hq Hk HD HL Hne. unfold sageattn, softmax_input.
  destruct (smooth_shape smooth_k k Hk) as (k' & -> & Hk'). cbn [bind].
  now rewrite (dequantized_scores_clash q k' Hq Hk' HD HL Hne).
Qed.

End KernelFacts.

(** ** Softmax and the weighted sum, elementwise *)

Lemma matmul_4 (x y : tensor fval) (B H N K M : nat) :
  shape x = [B; H; N; K] -> shape y = [B; H; K; M] ->
  exists s,
    matmul x y = Ok s /\ shape s = [B; H; N; M] /\
    forall b h i j, b < B -> h < H ->
      get s [b; h; i; j]
      = fold_left fadd
          (map (fun l => fmul (get x [b; h; i; l]) (get y [b; h; l; j]))
               (seq 0 K)) fzero.
Proof.
  intros Hx Hy. unfold matmul. rewrite (matmul_with4 _ _ _ _ _ Hx Hy).
  eexists. split; [reflexivity|]. split; [reflexivity|].
  intros b h i j Hb Hh. cbn [get firstn nth]. simp_idx. reflexivity.
Qed.

Section SoftmaxFacts.
Context {FL : FloatLib}.

Lemma softmax_4 (x : tensor fval) (B H R C : nat) :
  shape x = [B; H; R; C] ->
  exists w,
    softmax x = Ok w /\ shape w = [B; H; R; C] /\
    forall b h i j, b < B -> h < H -> i < R -> j < C ->
      get w [b; h; i; j] = weight x b h i j C.
Proof.
  intros Hx. unfold softmax, sum_keepdims.
  rewrite (reduce_last4 _ _ Hx). cbn [bind].
  erewrite broadcast2_4;
    [| exact Hx | reflexivity | apply bdim_refl | apply bdim_1_r].
  cbn [bind].
  erewrite reduce_last4 by reflexivity. cbn [bind].
  erewrite broadcast2_4;
    [| reflexivity | reflexivity | apply bdim_refl | apply bdim_1_r].
  eexists. split; [reflexivity|]. split; [reflexivity|].
  intros b h i j Hb Hh Hi Hj. cbn [get tmap shape]. simp_idx.
  rewrite (lane_last4 x b h i 0 Hx).
  erewrite (lane_last4 (tmap fexp _)) by reflexivity.
  unfold weight, unnormalized, row_max. do 2 f_equal.
  unfold row_of at 1. cbn [get tmap].
  apply map_ext_in. intros l Hl. apply in_seq in Hl.
  assert (Hl' : l < C) by lia. simp_idx.
  now rewrite (lane_last4 x b h i 0 Hx).
Qed.

(** Lines 60-64 on a score array and values of the documented
    shapes. *)
Lemma weighted_values_4 (s v : tensor fval) (B H Lq D Dv : nat) :
  shape s = [B; H; Lq; D] -> shape v = [B; H; D; Dv] ->
  exists out,
    weighted_values s v = Ok out /\ shape out = [B; H; Lq; Dv] /\
    forall b h i c, b < B -> h < H -> i < Lq ->
      get out [b; h; i; c] = attended s v b h i c D.
Proof.
  intros Hs Hv.
  destruct (softmax_4 s Hs) as (w & Ew & Hw & Vw).
  assert (Hw16 : shape (tmap (cast binary16) w) = [B; H; Lq; D]) by exact Hw.
  assert (Hv16 : shape (tmap (cast binary16) v) = [B; H; D; Dv]) by exact Hv.
  destruct (matmul_4 _ _ Hw16 Hv16) as (out & Eo & Ho & Vo).
  exists (tmap (cast binary16) out). split.
  - unfold weighted_values. rewrite Ew. cbn [bind]. rewrite Eo. reflexivity.
  - split; [exact Ho|]. intros b h i c Hb Hh Hi.
    cbn [get tmap]. rewrite Vo by assumption. unfold attended. do 2 f_equal.
    apply map_ext_in. intros l Hl. apply in_seq in Hl.
    cbn [get tmap]. rewrite Vw by lia. reflexivity.
Qed.

(** The kernel returns whenever the key length equals [head_dim] (the
    documented shapes, no additive mask), and its output is the
    softmax-weighted sum of the softmax input against [v]. *)
Lemma sageattn_4 (q k v : tensor fval) (mp : ModelParams)
  (is_causal smooth_k : bool) (B H Lq D Dv : nat) :
  shape q = [B; H; Lq; D] -> shape k = [B; H; D; D] ->
  shape v = [B; H; D; Dv] -> D <> 0 ->
  exists s pre out,
    softmax_input q k mp None is_causal smooth_k = Ok (s, pre) /\
    sageattn q k v mp None is_causal smooth_k = Ok (out, pre) /\
    shape out = [B; H; Lq; Dv] /\
    forall b h i c, b < B -> h < H -> i < Lq ->
      get out [b; h; i; c] = attended s v b h i c D.
Proof.
  intros Hq Hk Hv HD.
  destruct (softmax_input_4 q k mp is_causal smooth_k Hq Hk HD)
    as (k' & s & pre & _ & Es & Hs & _ & _).
  destruct (weighted_values_4 s v Hs Hv) as (out & Eo & Ho & Vo).
  exists s, pre, out. split; [exact Es|]. split.
  - unfold sageattn. rewrite Es. cbn [bind]. rewrite Eo. reflexivity.
  - split; [exact Ho | exact Vo].
Qed.

End SoftmaxFacts.

(** ** C1: the kernel is not total on well-formed operands *)

(** C1.  On the well-formed operands of a three-token prefill at
    [head_dim = 2] ([q] of shape [1, 1, 3, 2], [k] of shape
    [1, 1, 2, 3], [v] of shape [1, 1, 3, 2]) [sageattn] raises: the
    dequantization of line 50 multiplies a [.., 3, 3] score array by a
    [.., 3, 2] scale array, which does not broadcast.  This holds for
    every mask and both settings of the two flags. *)
Theorem sageattn_raises_on_prefill (FL : FloatLib)
  (attn_mask : option (tensor fval)) (is_causal smooth_k : bool) :
  sageattn prefill_q prefill_k prefill_v (params 2) attn_mask is_causal smooth_k
  = Raise BroadcastError.
Proof.
  apply (@sageattn_broadcast_error FL prefill_q prefill_k prefill_v (params 2)
           attn_mask is_causal smooth_k 1 1 3 2 3);
    first [reflexivity | lia].
Qed.

(** ** C2: the causal mask is relative to the query block *)

(** The mask of lines 56-58 on a rank-4 score array sets exactly the
    entries with column index above row index to -inf: it compares
    indices within the block, not absolute positions. *)
Lemma causal_mask_relative (s s' : tensor fval) (B H R C : nat) :
  shape s = [B; H; R; C] -> causal_mask true s = Ok s' ->
  forall b h i j,
    (i < j -> get s' [b; h; i; j] = NInf) /\
    (j <= i -> get s' [b; h; i; j] = get s [b; h; i; j]).
Proof.
  intros Hs E b h i j.
  destruct (causal_mask_4 s Hs) as (s2 & E2 & _ & V).
  rewrite E in E2. inversion E2; subst s2. rewrite V. split; intros Hij.
  - destruct (Nat.leb_spec j i); [lia | reflexivity].
  - destruct (Nat.leb_spec j i); [reflexivity | lia].
Qed.

(** C2.  A decode step at [cur_pos = 2] (one query row at absolute
    position 2, keys at positions 0, 1, 2) with the causal flag: the
    softmax input is -inf at key positions 1 and 2, although neither
    exceeds the query's position. *)
Theorem decode_step_masks_past_keys (FL : FloatLib) :
  exists s pre,
    softmax_input decode_q decode_k (params 3) None true true = Ok (s, pre) /\
    shape s = [1; 1; 1; 3] /\
    get s [0; 0; 0; 1] = NInf /\ get s [0; 0; 0; 2] = NInf.
Proof.
  destruct (@softmax_input_4 FL decode_q decode_k (params 3) true true 1 1 1 3)
    as (k' & s & pre & _ & E & Hs & _ & V); try reflexivity; try lia.
  exists s, pre. split; [exact E|]. split; [exact Hs|]. split.
  - destruct (V 0 0 0 1) as [-> _]; try lia. reflexivity.
  - destruct (V 0 0 0 2) as [-> _]; try lia. reflexivity.
Qed.

(** ** C3: the softmax input is not scaled by [sqrt(head_dim)] *)

Lemma scaled_example_value :
  match dequantized_scores scaled_q
          (match smooth true scaled_k with Ok k' => k' | Raise _ => scaled_k end)
  with
  | Ok sc => feqb (get sc [0; 0; 0; 0]) (Fin (-33 # 16129))
  | Raise _ => false
  end = true.
Proof. vm_compute. reflexivity. Qed.

(** C3.  With [head_dim = 4], no masks: the softmax input at [0,0,0,0]
    is -33/16129, and [pre_scores] there is that value divided by
    [sqrt(4)]: the tensor that is normalized is [pre_scores] multiplied
    by [sqrt(head_dim)], not [pre_scores]. *)
Theorem softmax_input_is_unscaled (FL : FloatLib) :
  exists s pre,
    softmax_input scaled_q scaled_k (params 4) None false true = Ok (s, pre) /\
    feq (get s [0; 0; 0; 0]) (Fin (-33 # 16129)) /\
    get pre [0; 0; 0; 0] = fdiv (get s [0; 0; 0; 0]) (fsqrt (Fin 4)) /\
    ((qsqrt 4 == 2)%Q -> feq (get pre [0; 0; 0; 0]) (Fin (-33 # 32258))).
Proof.
  pose proof scaled_example_value as Hv.
  unfold softmax_input.
  destruct (smooth true scaled_k) as [k'|e] eqn:Ek; [|discriminate Hv].
  cbn [bind].
  destruct (dequantized_scores scaled_q k') as [sc|e] eqn:Esc; [|discriminate Hv].
  cbn [bind add_mask causal_mask].
  eexists _, _. split; [reflexivity|].
  destruct (get sc [0; 0; 0; 0]) as [x| | |] eqn:Ex; try discriminate Hv.
  apply Qeq_bool_iff in Hv.
  split; [exact Hv|]. split.
  - cbn [get tmap]. rewrite Ex. reflexivity.
  - intros H2. cbn [get tmap]. rewrite Ex.
    change (of_nat (head_dim (params 4))) with (Fin 4).
    cbn [fsqrt fdiv]. change (Qsgn_neg 4) with false. cbn iota.
    destruct (Qis_zero (qsqrt 4)) eqn:Ez.
    + unfold Qis_zero in Ez. apply Z.eqb_eq in Ez.
      assert (qsqrt 4 == 0)%Q by (unfold Qeq; rewrite Ez; reflexivity).
      rewrite H in H2. discriminate.
    + cbn [feq]. rewrite Hv, H2. reflexivity.
Qed.

(** ** C4: smoothing subtracts the mean over the head_dim axis *)

(** Line 37 on keys of the documented layout: each element loses the
    mean of its column, that is, of the [head_dim] channels of its own
    key position. *)
Lemma smooth_subtracts_channel_mean (k k' : tensor fval) (B H D Lk : nat) :
  shape k = [B; H; D; Lk] -> smooth true k = Ok k' ->
  forall b h d j, b < B -> h < H -> d < D -> j < Lk ->
    get k' [b; h; d; j]
    = fsub (get k [b; h; d; j]) (fmean (col_of k b h j D)).
Proof.
  intros Hk E. destruct (smooth_4 k Hk) as (k2 & E2 & _ & V).
  rewrite E in E2. inversion E2; subst k2. exact V.
Qed.

(** C4.  Keys with channel 0 = [1, 2] and channel 1 = [3, 4]: the
    smoothed [k[0,0,0,0]] is 1 minus the mean of [1, 3] (the two
    channels of position 0), which is -1; subtracting the mean over the
    key-length axis would give 1 minus the mean of [1, 2], which is
    -1/2. *)
Theorem smooth_uses_head_dim_axis :
  exists k',
    smooth true smooth_k_in = Ok k' /\
    get k' [0; 0; 0; 0] = fsub (Fin 1) (fmean [Fin 1; Fin 3]) /\
    feq (get k' [0; 0; 0; 0]) (Fin (-1)) /\
    ~ feq (get k' [0; 0; 0; 0]) (fsub (Fin 1) (fmean [Fin 1; Fin 2])).
Proof.
  destruct (@smooth_4 smooth_k_in 1 1 2 2) as (k' & E & _ & V); [reflexivity|].
  exists k'. split; [exact E|].
  rewrite (V 0 0 0 0) by lia.
  split; [reflexivity|]. split; vm_compute; [reflexivity | discriminate].
Qed.

Lemma combine_map_seq {A B} (f : nat -> A) (g : nat -> B) (l : list nat) :
  combine (map f l) (map g l) = map (fun x => (f x, g x)) l.
Proof. induction l; simpl; congruence. Qed.

(** ** C5: causal invariance *)

Section CausalLeak.
Context {FL : FloatLib}.

Lemma attended_lists (s v : tensor fval) (b h i c n : nat) :
  attended s v b h i c n
  = weighted_sum (softmax_list (row_of s b h i n)) (col_of v b h c n).
Proof.
  unfold attended, weighted_sum, softmax_list, col_of.
  assert (E : map (fun e => fdiv e (fsum (map (fun x => fexp (fsub x (fold_left fmax (row_of s b h i n) NInf))) (row_of s b h i n))))
                (map (fun x => fexp (fsub x (fold_left fmax (row_of s b h i n) NInf))) (row_of s b h i n))
              = map (fun l => weight s b h i l n) (seq 0 n)).
  { unfold row_of at 2 4. rewrite !map_map. reflexivity. }
  cbv zeta. rewrite E, combine_map_seq, map_map. reflexivity.
Qed.

(** The library's [exp] is taken within the relative tolerance
    [exp_tol] of the elementary bounds [1 + x <= exp x] and
    [exp x <= 1 / (1 - x)] (for [x <= 0]). *)
Hypothesis qexp_lower : forall x, ((1 + x) * (1 - exp_tol) <= qexp x)%Q.
Hypothesis qexp_upper :
  forall x, (x <= 0)%Q -> (qexp x * (1 - x) <= 1 + exp_tol)%Q.

Lemma softmax_list_two (a b : Q) :
  let m := if Qle_bool a b then b else a in
  let S := (0 + qexp (a + - m) + qexp (b + - m) + 0)%Q in
  (0 < S)%Q ->
  softmax_list [Fin a; Fin b; NInf]
  = [Fin (qexp (a + - m) / S); Fin (qexp (b + - m) / S); Fin (0 / S)].
Proof.
  intros m S HS. subst m S.
  unfold softmax_list, fsum.
  cbn [fold_left map fmax].
  destruct (Qle_bool a b);
    cbn [fmax fsub fneg fadd fexp map fold_left fzero];
    unfold fdiv; rewrite (Qis_zero_pos HS); reflexivity.
Qed.

(** Line 62 on one row with two visible keys, for the value column
    [0, 1, 0]: the float16 cast of the second weight, when that weight
    lies in the binade of [2^e] and its nearest multiple of the unit in
    the last place is [k]. *)
Lemma weighted_sum_second (wa wb w0 : Q) (e k : Z) :
  (0 <= wa <= 1)%Q -> (w0 == 0)%Q ->
  (-14 <= e < 15)%Z ->
  (pow2 e <= wb < pow2 (e + 1))%Q ->
  (inject_Z k - (1 # 2) < wb / pow2 (e - 11 + 1) < inject_Z k + (1 # 2))%Q ->
  (pow2 e <= inject_Z k * pow2 (e - 11 + 1) < pow2 (e + 1))%Q ->
  weighted_sum [Fin wa; Fin wb; Fin w0] [Fin 0; Fin 1; Fin 0]
  = Fin (inject_Z k * pow2 (e - 11 + 1)).
Proof.
  intros Hwa Hw0 He Hwb Hk Hr.
  set (ulp := pow2 (e - 11 + 1)) in *.
  assert (Hulp : (0 < ulp)%Q) by apply pow2_pos.
  assert (Htop : (pow2 (e + 1) <= pow2 (emax binary16 + 1))%Q)
    by (apply pow2_le; cbn; lia).
  assert (Hpe : (0 < pow2 e)%Q) by apply pow2_pos.
  assert (Ha : exists a', cast binary16 (Fin wa) = Fin a').
  { destruct (@round_to_error binary16 wa) as (r & Er & _).
    - cbn; lia.
    - cbn; lia.
    - assert (1 <= pow2 (emax binary16))%Q.
      { change 1%Q with (pow2 0). apply pow2_le. cbn. lia. }
      rewrite Qabs_pos by lra. lra.
    - exists r. exact Er. }
  destruct Ha as (a' & Ea).
  assert (Eb : cast binary16 (Fin wb) = Fin (inject_Z k * ulp)).
  { cbn [cast]. apply (@round_to_binade binary16 wb e k).
    - exact Hwb.
    - cbn; lia.
    - exact Hk.
    - change (prec binary16) with 11%Z. fold ulp.
      rewrite Qabs_pos by lra. lra. }
  assert (E0 : cast binary16 (Fin w0) = Fin 0).
  { cbn [cast]. unfold round_to.
    apply Qis_zero_iff in Hw0. rewrite Hw0. reflexivity. }
  unfold weighted_sum.
  cbn [combine map fst snd fold_left].
  rewrite Ea, Eb, E0.
  change (cast binary16 (Fin 0)) with (Fin 0).
  change (cast binary16 (Fin 1)) with (Fin (1024 # 1024)).
  cbn [fmul fadd fzero cast].
  set (x := (0 + a' * 0 + inject_Z k * ulp * (1024 # 1024) + 0 * 0)%Q).
  assert (Ex : (x == inject_Z k * ulp)%Q).
  { unfold x. setoid_replace (1024 # 1024)%Q with 1%Q by reflexivity. ring. }
  apply (@round_to_binade binary16 x e k).
  - rewrite Ex. exact Hr.
  - cbn; lia.
  - change (prec binary16) with 11%Z. fold ulp.
    setoid_replace (x / ulp)%Q with (inject_Z k)
      by (rewrite Ex; field; lra).
    lra.
  - change (prec binary16) with 11%Z. fold ulp.
    rewrite Qabs_pos by lra. lra.
Qed.

Lemma causal_output_1 :
  weighted_sum (softmax_list [Fin (-3 # 48387); Fin (3 # 48387); NInf])
               [Fin 0; Fin 1; Fin 0]
  = Fin (inject_Z 1024 * pow2 (-1 - 11 + 1)).
Proof.
  pose proof (qexp_lower ((-3 # 48387) + - (3 # 48387))) as La.
  pose proof (@qexp_upper ((-3 # 48387) + - (3 # 48387))) as Ua.
  pose proof (qexp_lower ((3 # 48387) + - (3 # 48387))) as Lb.
  pose proof (@qexp_upper ((3 # 48387) + - (3 # 48387))) as Ub.
  unfold exp_tol in *.
  rewrite softmax_list_two;
    replace (Qle_bool (-3 # 48387) (3 # 48387)) with true by reflexivity.
  2: { cbv zeta. lra. }
  cbv zeta.
  set (ea := qexp ((-3 # 48387) + - (3 # 48387))) in *.
  set (eb := qexp ((3 # 48387) + - (3 # 48387))) in *.
  set (S := (0 + ea + eb + 0)%Q).
  assert (Ua' : (ea * (1 - ((-3 # 48387) + - (3 # 48387))) <= 1 + (1 # 1000000))%Q)
    by (apply Ua; lra).
  assert (Ub' : (eb * (1 - ((3 # 48387) + - (3 # 48387))) <= 1 + (1 # 1000000))%Q)
    by (apply Ub; lra).
  assert (HS : (0 < S)%Q) by (unfold S; lra).
  apply weighted_sum_second.
  - split.
    + apply Qle_shift_div_l; [exact HS|]. lra.
    + apply Qle_shift_div_r; [exact HS|]. unfold S. lra.
  - unfold Qdiv. ring.
  - lia.
  - change (pow2 (-1)) with (1 # 2)%Q. change (pow2 (-1 + 1)) with 1%Q.
    split.
    + apply Qle_shift_div_l; [exact HS|]. unfold S. lra.
    + apply Qlt_shift_div_r; [exact HS|]. unfold S. lra.
  - change (pow2 (-1 - 11 + 1)) with (1 # 2048)%Q.
    change (inject_Z 1024) with 1024%Q.
    setoid_replace (eb / S / (1 # 2048))%Q with (2048 * eb / S)%Q
      by (field; lra).
    split.
    + apply Qlt_shift_div_l; [exact HS|]. unfold S. lra.
    + apply Qlt_shift_div_r; [exact HS|]. unfold S. lra.
  - vm_compute. split; [discriminate | reflexivity].
Qed.

Lemma causal_output_2 :
  weighted_sum (softmax_list [Fin (800 # 48387); Fin (-200 # 48387); NInf])
               [Fin 0; Fin 1; Fin 0]
  = Fin (inject_Z 2027 * pow2 (-2 - 11 + 1)).
Proof.
  pose proof (qexp_lower ((800 # 48387) + - (800 # 48387))) as La.
  pose proof (@qexp_upper ((800 # 48387) + - (800 # 48387))) as Ua.
  pose proof (qexp_lower ((-200 # 48387) + - (800 # 48387))) as Lb.
  pose proof (@qexp_upper ((-200 # 48387) + - (800 # 48387))) as Ub.
  unfold exp_tol in *.
  rewrite softmax_list_two;
    replace (Qle_bool (800 # 48387) (-200 # 48387)) with false by reflexivity.
  2: { cbv zeta. lra. }
  cbv zeta.
  set (ea := qexp ((800 # 48387) + - (800 # 48387))) in *.
  set (eb := qexp ((-200 # 48387) + - (800 # 48387))) in *.
  set (S := (0 + ea + eb + 0)%Q).
  assert (Ua' : (ea * (1 - ((800 # 48387) + - (800 # 48387))) <= 1 + (1 # 1000000))%Q)
    by (apply Ua; lra).
  assert (Ub' : (eb * (1 - ((-200 # 48387) + - (800 # 48387))) <= 1 + (1 # 1000000))%Q)
    by (apply Ub; lra).
  assert (HS : (0 < S)%Q) by (unfold S; lra).
  apply weighted_sum_second.
  - split.
    + apply Qle_shift_div_l; [exact HS|]. lra.
    + apply Qle_shift_div_r; [exact HS|]. unfold S. lra.
  - unfold Qdiv. ring.
  - lia.
  - change (pow2 (-2)) with (1 # 4)%Q. change (pow2 (-2 + 1)) with (1 # 2)%Q.
    split.
    + apply Qle_shift_div_l; [exact HS|]. unfold S. lra.
    + apply Qlt_shift_div_r; [exact HS|]. unfold S. lra.
  - change (pow2 (-2 - 11 + 1)) with (1 # 4096)%Q.
    change (inject_Z 2027) with 2027%Q.
    setoid_replace (eb / S / (1 # 4096))%Q with (4096 * eb / S)%Q
      by (field; lra).
    split.
    + apply Qlt_shift_div_l; [exact HS|]. unfold S. lra.
    + apply Qlt_shift_div_r; [exact HS|]. unfold S. lra.
  - vm_compute. split; [discriminate | reflexivity].
Qed.

Lemma causal_row_1 :
  match softmax_input causal_q causal_k1 (params 3) None true true with
  | Ok (s, _) => row_of s 0 0 1 3
  | Raise _ => []
  end = [Fin (-3 # 48387); Fin (3 # 48387); NInf].
Proof. vm_compute. reflexivity. Qed.

Lemma causal_row_2 :
  match softmax_input causal_q causal_k2 (params 3) None true true with
  | Ok (s, _) => row_of s 0 0 1 3
  | Raise _ => []
  end = [Fin (800 # 48387); Fin (-200 # 48387); NInf].
Proof. vm_compute. reflexivity. Qed.

Lemma causal_keys_agree (d j : nat) :
  j <= 1 -> get causal_k1 [0; 0; d; j] = get causal_k2 [0; 0; d; j].
Proof.
  intros Hj. destruct j as [|[|j]]; [| |lia];
    destruct d as [|[|[|d]]]; reflexivity.
Qed.

(** C5.  Two calls with [causal=True] and the default smoothing that
    agree on [q], on [v] and on the keys at positions 0 and 1, and
    differ only in the key at position 2: the output at query position
    1 differs.  With the float16 casts of line 62 and any [exp] within
    [exp_tol] of the elementary bounds, the first run returns
    [output[0,0,1,0] = 1/2] and the second
    [output[0,0,1,0] = 2027/4096], which is smaller. *)
Theorem causal_output_reads_future_key :
  (forall d j, j <= 1 -> get causal_k1 [0; 0; d; j] = get causal_k2 [0; 0; d; j]) /\
  exists out1 pre1 out2 pre2 o1 o2,
    sageattn causal_q causal_k1 causal_v (params 3) None true true
      = Ok (out1, pre1) /\
    sageattn causal_q causal_k2 causal_v (params 3) None true true
      = Ok (out2, pre2) /\
    get out1 [0; 0; 1; 0] = Fin o1 /\ get out2 [0; 0; 1; 0] = Fin o2 /\
    (o1 == 1 # 2)%Q /\ (o2 == 2027 # 4096)%Q /\ (o2 < o1)%Q.
Proof.
  split; [exact causal_keys_agree|].
  destruct (@sageattn_4 FL causal_q causal_k1 causal_v (params 3) true true
              1 1 3 3 3) as (s1 & pre1 & out1 & Es1 & Eo1 & _ & V1);
    try reflexivity; try lia.
  destruct (@sageattn_4 FL causal_q causal_k2 causal_v (params 3) true true
              1 1 3 3 3) as (s2 & pre2 & out2 & Es2 & Eo2 & _ & V2);
    try reflexivity; try lia.
  pose proof causal_row_1 as R1. rewrite Es1 in R1.
  pose proof causal_row_2 as R2. rewrite Es2 in R2.
  exists out1, pre1, out2, pre2,
    (inject_Z 1024 * pow2 (-1 - 11 + 1))%Q,
    (inject_Z 2027 * pow2 (-2 - 11 + 1))%Q.
  split; [exact Eo1|]. split; [exact Eo2|].
  split; [|split; [|split; [|split]]].
  - rewrite V1 by lia. rewrite attended_lists, R1. exact causal_output_1.
  - rewrite V2 by lia. rewrite attended_lists, R2. exact causal_output_2.
  - reflexivity.
  - reflexivity.
  - reflexivity.
Qed.

End CausalLeak.

Lemma exp_pade_lower (x : Q) : ((1 + x) * (1 - exp_tol) <= exp_pade x)%Q.
Proof.
  unfold exp_pade, exp_tol. destruct (Qle_bool 0 x) eqn:E.
  - apply Qle_bool_iff in E. nra.
  - assert (Hx : (x < 0)%Q).
    { apply Qnot_le_lt. intros Hle. apply Qle_bool_iff in Hle. congruence. }
    apply Qle_shift_div_l; [lra|].
    destruct (Qlt_le_dec (1 + x) 0) as [Hn|Hp]; nra.
Qed.

Lemma exp_pade_upper (x : Q) :
  (x <= 0)%Q -> (exp_pade x * (1 - x) <= 1 + exp_tol)%Q.
Proof.
  intros Hx. unfold exp_pade, exp_tol. destruct (Qle_bool 0 x) eqn:E.
  - apply Qle_bool_iff in E.
    assert (E0 : (x == 0)%Q) by lra. rewrite E0. lra.
  - setoid_replace (1 / (1 - x) * (1 - x))%Q with 1%Q by (field; lra).
    lra.
Qed.

Lemma causal_output_reads_future_key_witness :
  (forall x, ((1 + x) * (1 - exp_tol) <= @qexp RefLib x)%Q) /\
  (forall x, (x <= 0)%Q -> (@qexp RefLib x * (1 - x) <= 1 + exp_tol)%Q) /\
  exists out1 pre1 out2 pre2 o1 o2,
    @sageattn RefLib causal_q causal_k1 causal_v (params 3) None true true
      = Ok (out1, pre1) /\
    @sageattn RefLib causal_q causal_k2 causal_v (params 3) None true true
      = Ok (out2, pre2) /\
    get out1 [0; 0; 1; 0] = Fin o1 /\ get out2 [0; 0; 1; 0] = Fin o2 /\
    (o1 == 1 # 2)%Q /\ (o2 == 2027 # 4096)%Q /\ (o2 < o1)%Q.
Proof.
  split; [exact exp_pade_lower|]. split; [exact exp_pade_upper|].
  exact (proj2 (@causal_output_reads_future_key RefLib exp_pade_lower exp_pade_upper)).
Defined.


(** ** C6: the integer scores are int8 and wrap *)

Lemma inject_Z_mul_cancel (a b : Z) (c : Q) :
  ~ (c == 0)%Q -> (inject_Z a * c == inject_Z b * c)%Q -> a = b.
Proof.
  intros Hc E. apply Qmult_inj_r in E; [|exact Hc].
  unfold Qeq in E. simpl in E. lia.
Qed.

Lemma exact_dot_quantized (q k : tensor fval) (q8 k8 : tensor Z)
  (b h i j n m : nat) :
  (forall l, l < n -> get q8 [b; h; i; l] = quantized q b h i l n) ->
  (forall l, l < n -> get k8 [b; h; l; j] = quantized k b h l j m) ->
  exact_dot q8 k8 b h i j n = int_dot q k b h i j n m.
Proof. apply int_dot_quantized. Qed.

(** C6.  For operands of the documented shapes, the product of line 49
    of the two quantized arrays is an int8 array: each entry is the
    int8 wrap of the exact integer dot product, congruent to it modulo
    256 and inside [-128, 127], and equal to it if and only if the
    exact dot product fits in int8.  Where line 50 is defined
    ([kv_len = head_dim]) the dequantized score is that int8 entry times
    the two row scales: it equals (exact dot product) * scales when the
    dot product fits and, for a non-zero scale, only then. *)
Theorem int8_scores_wrap (q k : tensor fval) (B H Lq D Lk : nat) :
  shape q = [B; H; Lq; D] -> shape k = [B; H; D; Lk] -> D <> 0 -> Lk <> 0 ->
  exists q8 qs k8 ks s8,
    quantize_int8 q = Ok (q8, qs) /\ quantize_int8 k = Ok (k8, ks) /\
    matmul_int8 q8 k8 = Ok s8 /\ shape s8 = [B; H; Lq; Lk] /\
    (forall b h i j, b < B -> h < H -> i < Lq -> j < Lk ->
       let exact := exact_dot q8 k8 b h i j D in
       get s8 [b; h; i; j] = wrap8 exact /\
       (get s8 [b; h; i; j] mod 256 = exact mod 256)%Z /\
       (-128 <= get s8 [b; h; i; j] <= 127)%Z /\
       (get s8 [b; h; i; j] = exact <-> (-128 <= exact <= 127)%Z)) /\
    (Lk = D ->
     exists s,
       dequantized_scores q k = Ok s /\
       forall b h i j, b < B -> h < H -> i < Lq -> j < D ->
         let exact := exact_dot q8 k8 b h i j D in
         let scale := fmul (get qs [b; h; i; 0]) (get ks [b; h; j; 0]) in
         get s [b; h; i; j] = fmul (of_int8 (get s8 [b; h; i; j])) scale /\
         ((-128 <= exact <= 127)%Z ->
            get s [b; h; i; j] = fmul (of_int8 exact) scale) /\
         (forall c, scale = Fin c -> ~ (c == 0)%Q ->
            feq (get s [b; h; i; j]) (fmul (of_int8 exact) scale) ->
            (-128 <= exact <= 127)%Z)).
Proof.
  intros Hq Hk HD HL.
  destruct (quantize_int8_4 q Hq HD) as (q8 & qs & Eq & Hq8 & Hqs & Vqs & Vq8).
  destruct (quantize_int8_4 k Hk HL) as (k8 & ks & Ek & Hk8 & Hks & Vks & Vk8).
  destruct (matmul_int8_4 q8 k8 Hq8 Hk8) as (s8 & Es8 & Hs8 & Vs8).
  exists q8, qs, k8, ks, s8.
  split; [exact Eq|]. split; [exact Ek|]. split; [exact Es8|].
  split; [exact Hs8|]. split.
  - intros b h i j Hb Hh Hi Hj exact.
    assert (Eg : get s8 [b; h; i; j] = wrap8 exact) by now apply Vs8.
    rewrite Eg. split; [reflexivity|].
    split; [apply wrap8_mod|]. split; [apply wrap8_range | apply wrap8_fits].
  - intros ->.
    destruct (dequantized_scores_4 q k Hq Hk HD HD (bdim_refl D))
      as (s & Es & _ & V).
    exists s. split; [exact Es|].
    intros b h i j Hb Hh Hi Hj exact scale.
    assert (Ex : exact = int_dot q k b h i j D D).
    { apply exact_dot_quantized.
      - intros l Hl. now apply Vq8.
      - intros l Hl. now apply Vk8. }
    assert (Eg : get s8 [b; h; i; j] = wrap8 exact) by now apply Vs8.
    assert (Egs : get s [b; h; i; j] = fmul (of_int8 (wrap8 exact)) scale).
    { rewrite V by assumption. unfold dequantized, scale.
      rewrite !(unit_or_lt Hj), Vqs, Vks, Ex. reflexivity. }
    split; [now rewrite Eg|]. split.
    + intros Hfit. rewrite Egs. apply wrap8_fits in Hfit. now rewrite Hfit.
    + intros c Hc Hnz Hfeq. rewrite Egs, Hc in Hfeq.
      unfold of_int8 in Hfeq. cbn [fmul feq] in Hfeq.
      apply wrap8_fits. exact (@inject_Z_mul_cancel _ _ c Hnz Hfeq).
Qed.

(** The hypotheses of [int8_scores_wrap] hold of a one-query,
    four-key call at [head_dim = 4]. *)
Lemma int8_scores_wrap_witness :
  exists q8 qs k8 ks s8,
    quantize_int8 scaled_q = Ok (q8, qs) /\
    quantize_int8 scaled_k = Ok (k8, ks) /\
    matmul_int8 q8 k8 = Ok s8 /\ shape s8 = [1; 1; 1; 4] /\
    (forall b h i j, b < 1 -> h < 1 -> i < 1 -> j < 4 ->
       let exact := exact_dot q8 k8 b h i j 4 in
       get s8 [b; h; i; j] = wrap8 exact /\
       (get s8 [b; h; i; j] mod 256 = exact mod 256)%Z /\
       (-128 <= get s8 [b; h; i; j] <= 127)%Z /\
       (get s8 [b; h; i; j] = exact <-> (-128 <= exact <= 127)%Z)) /\
    (4 = 4 ->
     exists s,
       dequantized_scores scaled_q scaled_k = Ok s /\
       forall b h i j, b < 1 -> h < 1 -> i < 1 -> j < 4 ->
         let exact := exact_dot q8 k8 b h i j 4 in
         let scale := fmul (get qs [b; h; i; 0]) (get ks [b; h; j; 0]) in
         get s [b; h; i; j] = fmul (of_int8 (get s8 [b; h; i; j])) scale /\
         ((-128 <= exact <= 127)%Z ->
            get s [b; h; i; j] = fmul (of_int8 exact) scale) /\
         (forall c, scale = Fin c -> ~ (c == 0)%Q ->
            feq (get s [b; h; i; j]) (fmul (of_int8 exact) scale) ->
            (-128 <= exact <= 127)%Z)).
Proof.
  apply (@int8_scores_wrap scaled_q scaled_k 1 1 1 4 4 eq_refl eq_refl);
    discriminate.
Defined.

(** On that call the exact dot product of the query with key 0 is
    64 * 127 = 8128; the int8 product holds -64. *)
Example int8_wrap_observed :
  int_dot scaled_q scaled_k 0 0 0 0 4 4 = 8128%Z /\
  wrap8 (int_dot scaled_q scaled_k 0 0 0 0 4 4) = (-64)%Z.
Proof. vm_compute. split; reflexivity. Qed.

(** ** C7: the rounding error of the quantizer *)














(** Below the normal range the scale underflows: for the row
    [2^-149] the stored scale is 0, the quotient is +inf, and the
    product of the stored value with the scale is 0, not within any
    multiple of the scale of [2^-149]. *)
Example quantize_row_f32_underflow :
  exists s,
    row_scale_f32 (tmap Fin quant_in_tiny) 0 0 0 1 = Fin s /\ (s == 0)%Q /\
    quantized_f32 (tmap Fin quant_in_tiny) 0 0 0 0 1 = 127%Z.
Proof. eexists. vm_compute. repeat split. Qed.

(** The row [5.5, 11] in float32: the quotient [5.5 / scale] rounds to
    a binary32 just below 63.5 and is stored as 63, where the exact
    quotient 63.5 would give 64. *)
Example quantize_row_f32_stores_63 :
  quantized_f32 (tmap Fin quant_in_f32) 0 0 1 0 2 = 63%Z /\
  quantized (tmap Fin quant_in_f32) 0 0 1 0 2 = 64%Z.
Proof. vm_compute. split; reflexivity. Qed.

(** ** C8: the rotary transform at angle 0 *)

Lemma size_app (p t : list nat) : size (p ++ t) = size p * size t.
Proof.
  induction p as [|d p IH]; simpl; [lia|]. unfold size in *. simpl. rewrite IH. lia.
Qed.

Lemma is_wild_of_nat (n : nat) : is_wild (Z.of_nat n) = false.
Proof. unfold is_wild. apply Z.eqb_neq. lia. Qed.

Lemma filter_wild_dims (p : list nat) : filter is_wild (dims p) = [].
Proof.
  induction p as [|d p IH]; simpl; [reflexivity|]. now rewrite is_wild_of_nat.
Qed.

Lemma filter_known_dims (p : list nat) :
  filter (fun z => negb (is_wild z)) (dims p) = dims p.
Proof.
  induction p as [|d p IH]; simpl; [reflexivity|].
  rewrite is_wild_of_nat. simpl. now rewrite IH.
Qed.

Lemma to_nat_dims (p : list nat) : map Z.to_nat (dims p) = p.
Proof.
  induction p as [|d p IH]; simpl; [reflexivity|]. now rewrite Nat2Z.id, IH.
Qed.

Lemma resolve_wild_dims (f : Z -> nat) (p : list nat) :
  (forall n, f (Z.of_nat n) = n) -> map f (dims p) = p.
Proof.
  intros Hf. induction p as [|d p IH]; simpl; [reflexivity|]. now rewrite Hf, IH.
Qed.

(** [reshape] to [p ++ [-1] ++ t]: the wildcard takes what is left. *)
Lemma resolve_shape_wild (total : nat) (p t : list nat) (w : nat) :
  size p * size t <> 0 -> total = w * (size p * size t) ->
  resolve_shape total (dims p ++ (-1)%Z :: dims t) = Ok (p ++ w :: t).
Proof.
  intros Hk Ht. unfold resolve_shape.
  rewrite !filter_app. cbn [filter]. change (is_wild (-1)) with true.
  cbn [negb]. rewrite !filter_wild_dims, !filter_known_dims.
  cbn [app length]. rewrite map_app, !to_nat_dims, size_app.
  apply Nat.eqb_neq in Hk. rewrite Hk. cbn [orb].
  assert (Hm : total mod (size p * size t) = 0).
  { rewrite Ht. apply Nat.Div0.mod_mul. }
  rewrite Hm. cbn [Nat.eqb negb].
  assert (Hd : total / (size p * size t) = w).
  { rewrite Ht. apply Nat.div_mul. now apply Nat.eqb_neq. }
  rewrite Hd, map_app. cbn [map]. change (is_wild (-1)) with true.
  cbn iota. f_equal. f_equal.
  - apply resolve_wild_dims. intros n. now rewrite is_wild_of_nat, Nat2Z.id.
  - f_equal. apply resolve_wild_dims. intros n. now rewrite is_wild_of_nat, Nat2Z.id.
Qed.

Lemma ravel_lt (s idx : list nat) : inb s idx = true -> ravel s idx < size s.
Proof.
  revert idx. induction s as [|d s IH]; intros [|i idx]; simpl; try discriminate.
  - intros _. unfold size. simpl. lia.
  - intros Hin. apply andb_prop in Hin as [Hi Hs]. apply Nat.ltb_lt in Hi.
    specialize (IH _ Hs). change (size (d :: s)) with (d * size s). nia.
Qed.

Lemma unravel_ravel (s idx : list nat) :
  inb s idx = true -> unravel s (ravel s idx) = idx.
Proof.
  revert idx. induction s as [|d s IH]; intros [|i idx]; simpl; try discriminate.
  - reflexivity.
  - intros Hin. apply andb_prop in Hin as [Hi Hs].
    pose proof (ravel_lt _ _ Hs) as Hlt.
    assert (Hpos : size s <> 0) by lia.
    rewrite Nat.div_add_l by exact Hpos.
    rewrite (Nat.div_small _ _ Hlt), Nat.add_0_r.
    rewrite Nat.add_comm, Nat.Div0.mod_add, (Nat.mod_small _ _ Hlt).
    now rewrite IH.
Qed.

Lemma broadcast_shapes_f (B S H M : nat) :
  broadcast_shapes [B; S; H; M] [1; S; 1; M] = Ok [B; S; H; M].
Proof.
  unfold broadcast_shapes. cbn [rev app bshape_rev].
  rewrite !bdim_refl, !bdim_1_r. reflexivity.
Qed.

Lemma half_index (M j : nat) : j < 2 * M -> j / 2 < M /\ j mod 2 < 2.
Proof.
  intros Hj. split.
  - apply Nat.Div0.div_lt_upper_bound. lia.
  - apply Nat.mod_upper_bound. lia.
Qed.

(** When each operand goes through lines 24-31, [apply_rotary_emb]
    returns the two results. *)
Lemma rotate_both (xq xk : tensor fval) (f : tensor cval)
  (q' k' : tensor fval) :
  rotate xq f = Ok q' -> rotate xk f = Ok k' ->
  apply_rotary_emb xq xk f = Ok (q', k').
Proof.
  unfold rotate. intros Eq Ek.
  apply bind_ok in Eq as (rq & Erq & Eq).
  apply bind_ok in Eq as (req & Ereq & Eq).
  apply bind_ok in Eq as (imq & Eimq & Eq).
  apply bind_ok in Eq as (cq & Ecq & Eq).
  apply bind_ok in Eq as (fq & Efq & Eq).
  apply bind_ok in Eq as (oq & Eoq & Eq).
  apply bind_ok in Ek as (rk & Erk & Ek).
  apply bind_ok in Ek as (rek & Erek & Ek).
  apply bind_ok in Ek as (imk & Eimk & Ek).
  apply bind_ok in Ek as (ck & Eck & Ek).
  apply bind_ok in Ek as (fk & Efk & Ek).
  apply bind_ok in Ek as (ok & Eok & Ek).
  unfold apply_rotary_emb.
  rewrite Erq, Erk. cbn [bind]. rewrite Ereq, Eimq. cbn [bind].
  rewrite Ecq. cbn [bind]. rewrite Erek, Eimk. cbn [bind].
  rewrite Eck. cbn [bind]. rewrite Efq. cbn [bind].
  rewrite Eoq. cbn [bind].
  rewrite Efq in Efk. inversion Efk; subst fk.
  rewrite Eok. cbn [bind]. rewrite Eq. cbn [bind]. now rewrite Ek.
Qed.

Lemma rotate_identity (xq : tensor Q) (f : tensor cval) (B S H M : nat) :
  shape xq = [B; S; H; 2 * M] -> all_ones f S M ->
  0 < B -> 0 < S -> 0 < H ->
  exists x',
    rotate (tmap Fin xq) f = Ok x' /\ shape x' = [B; S; H; 2 * M] /\
    forall b s h j, b < B -> s < S -> h < H -> j < 2 * M ->
      feq (get x' [b; s; h; j]) (Fin (get xq [b; s; h; j])).
Proof.
  intros Hx [Hf Vf] HB HS HH.
  assert (Hk3 : size [B; S; H] <> 0) by (unfold size; simpl; nia).
  assert (E1 : resolve_shape (size [B; S; H; 2 * M])
                 (dims (removelast [B; S; H; 2 * M]) ++ [(-1)%Z; 2%Z])
               = Ok [B; S; H; M; 2]).
  { apply (@resolve_shape_wild _ [B; S; H] [2] M).
    - unfold size in *. simpl in *. nia.
    - unfold size. simpl. nia. }
  assert (E2 : resolve_shape (size [B; S; H; M; 2])
                 (dims (removelast [B; S; H; M]) ++ [(-1)%Z])
               = Ok [B; S; H; 2 * M]).
  { apply (@resolve_shape_wild _ [B; S; H] [] (2 * M)).
    - unfold size in *. simpl in *. nia.
    - unfold size. simpl. nia. }
  unfold rotate, reshape. cbn [shape tmap]. rewrite Hx, E1. cbn [bind].
  unfold take_last. cbn [shape last]. cbn [Nat.ltb Nat.leb bind removelast].
  unfold complex, broadcast2. cbn [shape].
  rewrite broadcast_shapes4, !bdim_refl. cbn [bind].
  unfold expand_0_2. rewrite Hf. cbn [bind shape].
  rewrite broadcast_shapes_f. cbn [bind].
  unfold stack_re_im at 1. cbn [shape app]. rewrite E2. cbn [bind].
  eexists. split; [reflexivity|]. split; [reflexivity|].
  intros b s h j Hb Hs Hh Hj.
  destruct (@half_index M j Hj) as [Hm Hc].
  set (m := j / 2) in *. set (c := j mod 2) in *.
  assert (Ej : j = 2 * m + c) by (unfold m, c; apply Nat.div_mod_eq).
  clearbody m c. subst j.
  assert (R1 : ravel [B; S; H; 2 * M] [b; s; h; 2 * m + c]
               = ravel [B; S; H; M; 2] [b; s; h; m; c]).
  { unfold ravel, size. cbn [fold_right]. ring. }
  assert (I1 : inb [B; S; H; M; 2] [b; s; h; m; c] = true).
  { simpl. rewrite !andb_true_iff, !Nat.ltb_lt. lia. }
  assert (P : forall c', c' < 2 ->
             unravel [B; S; H; 2 * M] (ravel [B; S; H; M; 2] [b; s; h; m; c'])
             = [b; s; h; 2 * m + c']).
  { intros c' Hc'.
    replace (ravel [B; S; H; M; 2] [b; s; h; m; c'])
      with (ravel [B; S; H; 2 * M] [b; s; h; 2 * m + c'])
      by (unfold ravel, size; cbn [fold_right]; ring).
    apply unravel_ravel. simpl. rewrite !andb_true_iff, !Nat.ltb_lt. lia. }
  cbn [get]. rewrite R1. unfold stack_re_im. cbn [shape app].
  rewrite (unravel_ravel _ _ I1).
  cbn [get removelast last]. simp_idx. cbn [nth skipn app].
  rewrite !P by lia. rewrite (Vf s m Hs Hm).
  cbn [tmap get cmul fst snd].
  destruct c as [|[|c']]; [| |lia]; cbn [Nat.eqb];
    rewrite ?Nat.add_0_r; unfold fone, fzero;
    cbn [fmul fsub fadd fneg feq]; ring.
Qed.

Lemma inb4_inv (B H R C : nat) (idx : list nat) :
  inb [B; H; R; C] idx = true ->
  exists b h i j, idx = [b; h; i; j] /\ b < B /\ h < H /\ i < R /\ j < C.
Proof.
  destruct idx as [|b [|h [|i [|j [|? ?]]]]]; simpl;
    rewrite ?andb_false_r; try discriminate.
  rewrite !andb_true_iff, !Nat.ltb_lt. intros (Hb & Hh & Hi & Hj & _).
  exists b, h, i, j. auto.
Qed.

(** C8.  For queries and keys of finite values of shapes
    [batch, seq, heads, head_dim] with [head_dim] even (non-empty in
    batch, positions and heads), and the all-ones [freqs_cis] of shape
    [seq, head_dim / 2], [apply_rotary_emb] returns arrays of the same
    shapes whose elements equal those of its arguments. *)
Theorem rotary_all_ones_identity (xq xk : tensor Q) (f : tensor cval)
  (B S H Hk M : nat) :
  shape xq = [B; S; H; 2 * M] -> shape xk = [B; S; Hk; 2 * M] ->
  all_ones f S M -> 0 < B -> 0 < S -> 0 < H -> 0 < Hk ->
  exists xq_out xk_out,
    apply_rotary_emb (tmap Fin xq) (tmap Fin xk) f = Ok (xq_out, xk_out) /\
    teq feq xq_out (tmap Fin xq) /\ teq feq xk_out (tmap Fin xk).
Proof.
  intros Hq Hxk Hf HB HS HH HHk.
  destruct (rotate_identity xq Hq Hf HB HS HH) as (q' & Eq & Sq & Vq).
  destruct (rotate_identity xk Hxk Hf HB HS HHk) as (k' & Ek & Sk & Vk).
  exists q', k'. rewrite (@rotate_both _ _ _ _ _ Eq Ek).
  split; [reflexivity|]. split.
  - split; [cbn [shape tmap]; congruence|]. intros idx Hin. rewrite Sq in Hin.
    apply inb4_inv in Hin as (b & s & h & j & -> & Hb & Hs & Hh & Hj).
    now apply Vq.
  - split; [cbn [shape tmap]; congruence|]. intros idx Hin. rewrite Sk in Hin.
    apply inb4_inv in Hin as (b & s & h & j & -> & Hb & Hs & Hh & Hj).
    now apply Vk.
Qed.

(** The hypotheses of [rotary_all_ones_identity] hold of two positions
    of one head at [head_dim = 4]. *)
Lemma rotary_all_ones_identity_witness :
  exists xq_out xk_out,
    apply_rotary_emb (tmap Fin rot_q) (tmap Fin rot_k) ones_2x2
      = Ok (xq_out, xk_out) /\
    teq feq xq_out (tmap Fin rot_q) /\ teq feq xk_out (tmap Fin rot_k).
Proof.
  apply (@rotary_all_ones_identity rot_q rot_k ones_2x2 1 2 1 1 2);
    try reflexivity; try lia.
  split; [reflexivity | intros; reflexivity].
Defined.

(** With [head_dim] odd the reshape of line 24 raises. *)
Example rotary_odd_head_dim_raises :
  rotate (mkT [1; 1; 1; 3] (fun _ => fone)) (mkT [1; 1] (fun _ => (fone, fzero)))
  = Raise ReshapeError.
Proof. reflexivity. Qed.

(** ** The causal flag of a layer *)

Lemma causal_mask_on (s1 s : tensor fval) :
  causal_mask true s1 = Ok s -> causally_masked s1 s.
Proof.
  unfold causal_mask, tril. cbn [bind].
  change (rank (ones_like s1)) with (rank s1).
  destruct (rank s1 <? 2) eqn:Hr; [discriminate|].
  cbn [bind]. intros E. inversion E; subst s. clear E.
  apply Nat.ltb_ge in Hr.
  split; [exact Hr|]. split; [reflexivity|].
  intros idx. cbv zeta. cbn [get where_eq0].
  destruct (nth (rank s1 - 1) idx 0 <=? nth (rank s1 - 2) idx 0); reflexivity.
Qed.

(** A two-token prefill at [cur_pos = 0]: the softmax input of query 0
    at key 1 is finite, so the first token attends to the second. *)
Example prefill_sees_future_key (FL : FloatLib) :
  match attention_operands (mkT [1; 2; 2] (fun idx => get (qmat 2 [[1; 2]; [5; 6]]%Q) (skipn 1 idx)))
          tiny_layer tiny_params 0 0 tiny_freqs tiny_cache with
  | Ok (xq, keys, _, _) =>
      match softmax_input xq keys tiny_params None (0 <? 0) true with
      | Ok (s, _) => is_finite (get s [0; 0; 0; 1])
      | Raise _ => false
      end
  | Raise _ => false
  end = true.
Proof. vm_compute. reflexivity. Qed.

(** ** The layer loop *)

Lemma last_nonempty_indep {A} (l : list A) (d d' : A) :
  l <> [] -> last l d = last l d'.
Proof.
  induction l as [|x l IH]; [congruence|]. intros _.
  destruct l as [|y l]; [reflexivity|].
  change (last (x :: y :: l) d) with (last (y :: l) d).
  change (last (x :: y :: l) d') with (last (y :: l) d').
  apply IH. discriminate.
Qed.


Section Loop.
Context {FL : FloatLib}.
Variable AttnStats : Type.
Variable stats_new : nat -> nat -> nat -> AttnStats.
Variable stats_update : AttnStats -> tensor fval -> nat -> AttnStats.

Local Abbreviation Carry := (Carry AttnStats).

(** A loop that returns has run its body on every index, in order,
    each time on the carry the previous iteration left. *)
Lemma for_each_trace (body : nat -> Carry -> result Carry)
  (ixs : list nat) (c c' : Carry) :
  for_each body ixs c = Ok c' ->
  exists cs,
    length cs = length ixs /\
    (forall k, k < length ixs ->
       body (nth k ixs 0) (nth k (c :: cs) c) = Ok (nth k cs c)) /\
    c' = last cs c.
Proof.
  revert c. induction ixs as [|i ixs IH]; intros c E; simpl in E.
  - inversion E; subst. exists []. repeat split. intros k Hk. inversion Hk.
  - apply bind_ok in E as (c1 & E1 & E).
    destruct (IH _ E) as (cs & Hlen & Hstep & Hlast).
    exists (c1 :: cs). split; [simpl; congruence|]. split.
    + intros [|k] Hk; cbn [nth length] in *; [exact E1|].
      assert (Hk' : k < length ixs) by lia.
      specialize (Hstep k Hk').
      rewrite (nth_indep cs c c1) by lia.
      destruct k as [|m]; [exact Hstep|].
      rewrite (nth_indep cs c c1) by lia. exact Hstep.
    + rewrite Hlast. destruct cs as [|c2 cs]; [reflexivity|].
      change (last (c1 :: c2 :: cs) c) with (last (c2 :: cs) c).
      apply last_nonempty_indep. discriminate.
Qed.

Lemma last_query_inv {A} (t l : tensor A) :
  last_query t = Ok l -> last_position t l.
Proof.
  unfold last_query, last_position.
  destruct (shape t) as [|a [|b [|c [|d [|e rest]]]]] eqn:Hs;
    try discriminate.
  destruct (c =? 0) eqn:Hc; [discriminate|].
  intros E. inversion E; subst l. clear E.
  apply Nat.eqb_neq in Hc.
  exists a, b, c, d. split; [reflexivity|]. split; [lia|].
  split; reflexivity.
Qed.

Lemma layer_body_inv (w : XfmrWeights) (mp : ModelParams) (cur_pos : nat)
  (f : tensor cval) (mask : option (tensor fval)) (i : nat) (c c' : Carry) :
  layer_body stats_update w mp cur_pos f mask i c = Ok c' ->
  ran_layer stats_update w mp cur_pos f mask i c c'.
Proof.
  unfold layer_body, nth_layer, ran_layer. intros E.
  apply bind_ok in E as (lw & Elw & E).
  destruct (nth_error (layer_weights w) i) as [lw'|] eqn:En; [|discriminate].
  inversion Elw; subst lw'.
  apply bind_ok in E as (norm_x & Enx & E).
  apply bind_ok in E as ([[h_attn kv] sc] & Ea & E). cbn zeta in E.
  apply bind_ok in E as (ls & Els & E).
  apply bind_ok in E as (h1 & Eh1 & E).
  apply bind_ok in E as (n & En1 & E).
  apply bind_ok in E as (ff & Eff & E).
  apply bind_ok in E as (h2 & Eh2 & E).
  inversion E; subst c'. cbn [c_h c_kvcache c_scores c_attn_stats].
  exists lw, norm_x, h_attn, sc, ls, h1, n, ff.
  repeat split; try assumption. now apply last_query_inv.
Qed.

End Loop.

(** The recording [AttnStats] after the loop over layers
    [a .. a + n - 1] holds one more entry per layer, in that order. *)
Lemma for_each_log (FL : FloatLib) (w : XfmrWeights) (mp : ModelParams)
  (cur_pos : nat) (f : tensor cval) (mask : option (tensor fval))
  (n a : nat) (c c' : Carry StatsLog) :
  for_each (layer_body log_update w mp cur_pos f mask) (seq a n) c = Ok c' ->
  map fst (c_attn_stats c') = map fst (c_attn_stats c) ++ seq a n.
Proof.
  revert a c. induction n as [|n IH]; intros a c E; simpl in E.
  - inversion E; subst. now rewrite app_nil_r.
  - apply bind_ok in E as (c1 & E1 & E).
    apply IH in E. rewrite E.
    apply layer_body_inv in E1
      as (lw & nx & ha & sc & ls & h1 & n1 & ff
          & _ & _ & _ & _ & _ & _ & Est & _).
    rewrite Est. unfold log_update. rewrite map_app, <- app_assoc. reflexivity.
Qed.

(** With the recording [AttnStats], a forward pass that returns has
    called [update] exactly once per layer, for layers
    [0, 1, .., n_layers - 1] in this order. *)
Lemma xfmr_updates_once_per_layer (FL : FloatLib) (w : XfmrWeights)
  (mp : ModelParams) (tokens : tensor nat) (cur_pos : nat) (f : tensor cval)
  (kvcache : KVCache) (mask : option (tensor fval))
  (logits : tensor fval) (kvcache' : KVCache) (scores : tensor fval)
  (log : StatsLog) :
  xfmr log_new log_update w mp tokens cur_pos f kvcache mask
  = Ok (logits, kvcache', scores, log) ->
  map fst log = seq 0 (n_layers mp).
Proof.
  unfold xfmr. intros E.
  apply bind_ok in E as (h0 & _ & E).
  apply bind_ok in E as (bsz & _ & E).
  apply bind_ok in E as (c & Ec & E).
  apply bind_ok in E as (n & _ & E).
  apply bind_ok in E as (out_t & _ & E).
  apply bind_ok in E as (lg & _ & E).
  destruct (c_scores c); [|discriminate]. inversion E; subst.
  apply for_each_log in Ec. exact Ec.
Qed.

Lemma two_layer_run_ok :
  is_ok (@xfmr RefLib StatsLog log_new log_update two_layer_weights
           two_layer_params tiny_tokens 0 tiny_freqs two_layer_cache None) = true.
Proof. vm_compute. reflexivity. Qed.

(** On that run the recorded updates are those of layer 0, then
    layer 1, each with scores of shape [batch, heads, kv_len]. *)
Example two_layer_run_log :
  match two_layer_run with
  | Ok (logits, _, scores, log) =>
      (shape logits, shape scores, map (fun e => (fst e, shape (snd e))) log)
  | Raise _ => ([], [], [])
  end = ([1; 2; 3], [1; 1; 2; 2], [(0, [1; 1; 2]); (1, [1; 1; 2])]).
Proof. vm_compute. reflexivity. Qed.

(** With no layer the loop leaves [scores] unbound and line 109
    raises. *)
Example xfmr_no_layer_raises :
  @xfmr RefLib StatsLog log_new log_update
    (mkWeights (tok_embeddings tiny_weights) (norm tiny_weights)
       (output tiny_weights) [])
    (mkParams 0 1 1 2) tiny_tokens 0 tiny_freqs two_layer_cache None
  = Raise UnboundLocalError.
Proof. reflexivity. Qed.

(** ** Further properties of the kernel and of the loop *)

(** X1.  On operands of the documented shapes with
    [kv_len = head_dim] (not zero) and no additive mask the kernel
    returns, whatever the two flags: [output] has the shape of [q] with
    the last axis of [v], [pre_scores] has shape
    [batch, heads, q_len, kv_len]. *)
Theorem sageattn_returns_when_kv_len_is_head_dim (FL : FloatLib)
  (q k v : tensor fval) (mp : ModelParams) (is_causal smooth_k : bool)
  (B H Lq D Dv : nat) :
  shape q = [B; H; Lq; D] -> shape k = [B; H; D; D] ->
  shape v = [B; H; D; Dv] -> D <> 0 ->
  exists out pre,
    sageattn q k v mp None is_causal smooth_k = Ok (out, pre) /\
    shape out = [B; H; Lq; Dv] /\ shape pre = [B; H; Lq; D].
Proof.
  intros Hq Hk Hv HD.
  destruct (sageattn_4 q k v mp is_causal smooth_k Hq Hk Hv HD)
    as (s & pre & out & Es & Eo & Ho & _).
  destruct (softmax_input_4 q k mp is_causal smooth_k Hq Hk HD)
    as (k' & s2 & pre2 & _ & Es2 & _ & Hp & _).
  rewrite Es in Es2. inversion Es2; subst.
  exists out, pre2. auto.
Qed.

Lemma sageattn_returns_when_kv_len_is_head_dim_witness :
  exists out pre,
    @sageattn RefLib causal_q causal_k1 causal_v (params 3) None true true
      = Ok (out, pre) /\
    shape out = [1; 1; 3; 3] /\ shape pre = [1; 1; 3; 3].
Proof.
  apply (@sageattn_returns_when_kv_len_is_head_dim RefLib causal_q causal_k1
           causal_v (params 3) true true 1 1 3 3 3 eq_refl eq_refl eq_refl).
  discriminate.
Defined.

(** X2.  On operands of the documented shapes with [kv_len] and
    [head_dim] both above 1 and different, the kernel raises the
    broadcasting error of line 50, whatever the mask and the flags. *)
Theorem sageattn_raises_when_kv_len_is_not_head_dim (FL : FloatLib)
  (q k v : tensor fval) (mp : ModelParams) (attn_mask : option (tensor fval))
  (is_causal smooth_k : bool) (B H Lq D Lk : nat) :
  shape q = [B; H; Lq; D] -> shape k = [B; H; D; Lk] ->
  1 < D -> 1 < Lk -> Lk <> D ->
  sageattn q k v mp attn_mask is_causal smooth_k = Raise BroadcastError.
Proof. apply sageattn_broadcast_error. Qed.

Lemma sageattn_raises_when_kv_len_is_not_head_dim_witness :
  @sageattn RefLib prefill_q prefill_k prefill_v (params 2) None false true
  = Raise BroadcastError.
Proof.
  apply (@sageattn_raises_when_kv_len_is_not_head_dim RefLib prefill_q
           prefill_k prefill_v (params 2) None false true 1 1 3 2 3
           eq_refl eq_refl); lia.
Defined.

(** X3.  The causal mask of lines 56-58 on a rank-4 score array sets an
    entry to -inf exactly when its column index exceeds its row index,
    and leaves the others unchanged. *)
Theorem causal_mask_compares_block_indices (s s' : tensor fval)
  (B H R C : nat) :
  shape s = [B; H; R; C] -> causal_mask true s = Ok s' ->
  shape s' = [B; H; R; C] /\
  forall b h i j,
    (i < j -> get s' [b; h; i; j] = NInf) /\
    (j <= i -> get s' [b; h; i; j] = get s [b; h; i; j]).
Proof.
  intros Hs E. destruct (causal_mask_4 s Hs) as (s2 & E2 & Hs2 & _).
  rewrite E in E2. inversion E2; subst s2.
  split; [exact Hs2|]. exact (causal_mask_relative s Hs E).
Qed.

Lemma causal_mask_compares_block_indices_witness :
  exists s',
    causal_mask true causal_v = Ok s' /\
    shape s' = [1; 1; 3; 3] /\
    forall b h i j,
      (i < j -> get s' [b; h; i; j] = NInf) /\
      (j <= i -> get s' [b; h; i; j] = get causal_v [b; h; i; j]).
Proof.
  destruct (@causal_mask_4 causal_v 1 1 3 3 eq_refl) as (s' & E & _ & _).
  exists s'. split; [exact E|].
  exact (@causal_mask_compares_block_indices causal_v s' 1 1 3 3 eq_refl E).
Defined.

(** X4.  With no additive mask and the causal flag off, [pre_scores]
    is, element by element, the softmax input divided by
    [sqrt(head_dim)]. *)
Theorem pre_scores_is_softmax_input_over_sqrt (FL : FloatLib)
  (q k : tensor fval) (mp : ModelParams) (smooth_k : bool)
  (s pre : tensor fval) :
  softmax_input q k mp None false smooth_k = Ok (s, pre) ->
  shape pre = shape s /\
  forall idx, get pre idx = fdiv (get s idx) (fsqrt (of_nat (head_dim mp))).
Proof.
  intros E.
  apply softmax_input_inv in E as (k' & sc & s1 & _ & _ & Em & Ec & ->).
  cbn [add_mask] in Em. inversion Em; subst s1.
  cbn [causal_mask] in Ec. inversion Ec; subst s.
  split; reflexivity.
Qed.

Lemma pre_scores_is_softmax_input_over_sqrt_witness :
  exists s pre,
    @softmax_input RefLib scaled_q scaled_k (params 4) None false true
      = Ok (s, pre) /\
    shape pre = shape s /\
    forall idx,
      get pre idx
      = fdiv (get s idx) (@fsqrt RefLib (of_nat (head_dim (params 4)))).
Proof.
  destruct (@softmax_input_4 RefLib scaled_q scaled_k (params 4) false true
              1 1 1 4 eq_refl eq_refl) as (k' & s & pre & _ & E & _);
    [discriminate|].
  exists s, pre. split; [exact E|].
  exact (@pre_scores_is_softmax_input_over_sqrt RefLib scaled_q scaled_k
           (params 4) true s pre E).
Defined.

(** X5.  Line 37 on keys of the layout
    [batch, heads, head_dim, kv_len]: each element loses the mean over
    the [head_dim] channels of its own key position. *)
Theorem smooth_subtracts_mean_over_head_dim (k k' : tensor fval)
  (B H D Lk : nat) :
  shape k = [B; H; D; Lk] -> smooth true k = Ok k' ->
  shape k' = [B; H; D; Lk] /\
  forall b h d j, b < B -> h < H -> d < D -> j < Lk ->
    get k' [b; h; d; j]
    = fsub (get k [b; h; d; j]) (fmean (col_of k b h j D)).
Proof.
  intros Hk E. destruct (smooth_4 k Hk) as (k2 & E2 & Hs & _).
  rewrite E in E2. inversion E2; subst k2.
  split; [exact Hs|]. exact (smooth_subtracts_channel_mean k Hk E).
Qed.

Lemma smooth_subtracts_mean_over_head_dim_witness :
  exists k',
    smooth true smooth_k_in = Ok k' /\
    shape k' = [1; 1; 2; 2] /\
    forall b h d j, b < 1 -> h < 1 -> d < 2 -> j < 2 ->
      get k' [b; h; d; j]
      = fsub (get smooth_k_in [b; h; d; j]) (fmean (col_of smooth_k_in b h j 2)).
Proof.
  destruct (@smooth_4 smooth_k_in 1 1 2 2 eq_refl) as (k' & E & _ & _).
  exists k'. split; [exact E|].
  exact (@smooth_subtracts_mean_over_head_dim smooth_k_in k' 1 1 2 2 eq_refl E).
Defined.

(** X6.  With an [AttnStats] that records its updates, a forward pass
    that returns has called [update] once per layer, for the layers
    [0, 1, .., n_layers - 1] in this order. *)
Theorem xfmr_update_log_is_the_layer_sequence (FL : FloatLib)
  (w : XfmrWeights) (mp : ModelParams) (tokens : tensor nat) (cur_pos : nat)
  (f : tensor cval) (kvcache : KVCache) (mask : option (tensor fval))
  (logits : tensor fval) (kvcache' : KVCache) (scores : tensor fval)
  (log : StatsLog) :
  xfmr log_new log_update w mp tokens cur_pos f kvcache mask
  = Ok (logits, kvcache', scores, log) ->
  map fst log = seq 0 (n_layers mp) /\ length log = n_layers mp.
Proof.
  intros E. apply xfmr_updates_once_per_layer in E.
  split; [exact E|].
  rewrite <- (length_map fst), E. apply length_seq.
Qed.

Lemma xfmr_update_log_is_the_layer_sequence_witness :
  exists logits kvcache' scores log,
    @xfmr RefLib StatsLog log_new log_update two_layer_weights
      two_layer_params tiny_tokens 0 tiny_freqs two_layer_cache None
    = Ok (logits, kvcache', scores, log) /\
    map fst log = seq 0 (n_layers two_layer_params) /\
    length log = n_layers two_layer_params.
Proof.
  pose proof two_layer_run_ok as Hok.
  destruct (@xfmr RefLib StatsLog log_new log_update two_layer_weights
              two_layer_params tiny_tokens 0 tiny_freqs two_layer_cache None)
    as [[[[l c] s] st]|e] eqn:E; [|discriminate Hok].
  exists l, c, s, st. split; [reflexivity|].
  apply (@xfmr_update_log_is_the_layer_sequence RefLib two_layer_weights
           two_layer_params tiny_tokens 0 tiny_freqs two_layer_cache None
           l c s st).
  exact E.
Defined.

(** ** The layer loop: what makes a forward pass raise *)

Lemma seq_split_at (i n : nat) :
  i < n -> seq 0 n = seq 0 i ++ i :: seq (S i) (n - S i).
Proof.
  intros Hi. replace n with (i + S (n - S i)) at 1 by lia.
  rewrite seq_app. reflexivity.
Qed.

Section LoopErrors.
Context {FL : FloatLib}.
Variable AttnStats : Type.
Variable stats_new : nat -> nat -> nat -> AttnStats.
Variable stats_update : AttnStats -> tensor fval -> nat -> AttnStats.

Local Abbreviation Carry := (Carry AttnStats).

Lemma for_each_app (body : nat -> Carry -> result Carry)
  (l1 l2 : list nat) (c : Carry) :
  for_each body (l1 ++ l2) c = (c' <- for_each body l1 c ;; for_each body l2 c').
Proof.
  revert c. induction l1 as [|i l1 IH]; intros c; simpl; [reflexivity|].
  destruct (body i c) as [c1|e]; simpl; [apply IH | reflexivity].
Qed.

Lemma xfmr_ok_inv (w : XfmrWeights) (mp : ModelParams) (tokens : tensor nat)
  (cur_pos : nat) (f : tensor cval) (kvcache : KVCache)
  (mask : option (tensor fval)) :
  is_ok (xfmr stats_new stats_update w mp tokens cur_pos f kvcache mask) = true ->
  exists h0 bsz c sc,
    for_each (layer_body stats_update w mp cur_pos f mask)
      (seq 0 (n_layers mp))
      (mkCarry h0 kvcache None
         (stats_new bsz (n_layers mp) (n_local_heads mp))) = Ok c /\
    c_scores c = Some sc.
Proof.
  unfold xfmr. intros Hok.
  destruct (gather (tok_embeddings w) tokens) as [h0|e]; [|discriminate].
  cbn [bind] in Hok.
  destruct (shape tokens) as [|bsz rest]; [discriminate|]. cbn [bind] in Hok.
  match type of Hok with
  | context [for_each ?b ?l ?c0] => destruct (for_each b l c0) as [c|e] eqn:Ec
  end; [|discriminate].
  cbn [bind] in Hok.
  destruct (c_scores c) as [sc|] eqn:Esc.
  - exists h0, bsz, c, sc. auto.
  - destruct (rms_norm (c_h c) (norm w)); [|discriminate]. cbn [bind] in Hok.
    destruct (transpose_T (output w)); [|discriminate]. cbn [bind] in Hok.
    destruct (dot _ _); discriminate.
Qed.

(** X7.  With [n_layers = 0] the loop body never runs, [scores] is
    never bound, and [xfmr] cannot return: whatever the other
    arguments, it raises. *)
Theorem xfmr_without_layers_raises (w : XfmrWeights) (mp : ModelParams)
  (tokens : tensor nat) (cur_pos : nat) (f : tensor cval) (kvcache : KVCache)
  (mask : option (tensor fval)) :
  n_layers mp = 0 ->
  is_ok (xfmr stats_new stats_update w mp tokens cur_pos f kvcache mask) = false.
Proof.
  intros Hn.
  destruct (is_ok (xfmr stats_new stats_update w mp tokens cur_pos f kvcache mask))
    eqn:Hok; [|reflexivity].
  apply xfmr_ok_inv in Hok as (h0 & bsz & c & sc & Ec & Esc).
  rewrite Hn in Ec. simpl in Ec. inversion Ec; subst c. discriminate.
Qed.

(** X8.  [xfmr] reads [layer_weights[i]] for every [i < n_layers]: with
    fewer layer weights than [n_layers] it cannot return. *)
Theorem xfmr_needs_weights_of_every_layer (w : XfmrWeights) (mp : ModelParams)
  (tokens : tensor nat) (cur_pos : nat) (f : tensor cval) (kvcache : KVCache)
  (mask : option (tensor fval)) :
  length (layer_weights w) < n_layers mp ->
  is_ok (xfmr stats_new stats_update w mp tokens cur_pos f kvcache mask) = false.
Proof.
  intros Hlen.
  destruct (is_ok (xfmr stats_new stats_update w mp tokens cur_pos f kvcache mask))
    eqn:Hok; [|reflexivity].
  apply xfmr_ok_inv in Hok as (h0 & bsz & c & sc & Ec & _).
  apply for_each_trace in Ec as (cs & _ & Hstep & _).
  rewrite length_seq in Hstep.
  specialize (Hstep (length (layer_weights w)) Hlen).
  rewrite seq_nth in Hstep by exact Hlen. cbn [Nat.add] in Hstep.
  apply layer_body_inv in Hstep as (lw & ? & ? & ? & ? & ? & ? & ? & Hnth & _).
  assert (Hnone : nth_error (layer_weights w) (length (layer_weights w)) = None)
    by (apply nth_error_None; lia).
  congruence.
Qed.

(** X9.  A layer that raises aborts the forward pass with its own
    exception: when layers [0 .. i - 1] have run and layer [i] raises
    [e], [xfmr] raises [e]; the later layers and the output projection
    do not run and nothing is returned. *)
Theorem xfmr_raises_what_a_layer_raises (w : XfmrWeights) (mp : ModelParams)
  (tokens : tensor nat) (cur_pos : nat) (f : tensor cval) (kvcache : KVCache)
  (mask : option (tensor fval)) (h0 : tensor fval) (bsz i : nat)
  (c : Carry) (e : error) :
  gather (tok_embeddings w) tokens = Ok h0 ->
  hd_error (shape tokens) = Some bsz ->
  i < n_layers mp ->
  for_each (layer_body stats_update w mp cur_pos f mask) (seq 0 i)
    (mkCarry h0 kvcache None (stats_new bsz (n_layers mp) (n_local_heads mp)))
  = Ok c ->
  layer_body stats_update w mp cur_pos f mask i c = Raise e ->
  xfmr stats_new stats_update w mp tokens cur_pos f kvcache mask = Raise e.
Proof.
  intros Eh Eb Hi Ec Ei. unfold xfmr. rewrite Eh. cbn [bind].
  destruct (shape tokens) as [|b rest]; [discriminate|].
  inversion Eb; subst b. cbn [bind].
  replace (seq 0 (n_layers mp))
    with (seq 0 i ++ i :: seq (S i) (n_layers mp - S i)).
  - rewrite for_each_app, Ec. cbn [bind for_each]. rewrite Ei. reflexivity.
  - symmetry. apply seq_split_at. exact Hi.
Qed.

End LoopErrors.

Lemma xfmr_without_layers_raises_witness :
  is_ok (@xfmr RefLib StatsLog log_new log_update tiny_weights
           (mkParams 0 1 1 2) tiny_tokens 0 tiny_freqs tiny_cache None) = false.
Proof.
  apply (@xfmr_without_layers_raises RefLib StatsLog log_new log_update).
  reflexivity.
Defined.

Lemma xfmr_needs_weights_of_every_layer_witness :
  is_ok (@xfmr RefLib StatsLog log_new log_update tiny_weights
           two_of_one_params tiny_tokens 0 tiny_freqs two_layer_cache None)
  = false.
Proof.
  apply (@xfmr_needs_weights_of_every_layer RefLib StatsLog log_new log_update).
  simpl. lia.
Defined.

Lemma xfmr_raises_what_a_layer_raises_witness :
  @xfmr RefLib StatsLog log_new log_update tiny_weights tiny_params
    one_token 0 one_freq tiny_cache None = Raise ContractionError.
Proof.
  eapply (@xfmr_raises_what_a_layer_raises RefLib StatsLog log_new log_update
            tiny_weights tiny_params one_token 0 one_freq tiny_cache None
            _ 1 0).
  - reflexivity.
  - reflexivity.
  - simpl. lia.
  - reflexivity.
  - vm_compute. reflexivity.
Defined.

(** ** The rotary transform *)

Lemma rotate_formula (x : tensor fval) (f : tensor cval) (B S H M : nat) :
  shape x = [B; S; H; 2 * M] -> shape f = [S; M] ->
  0 < B -> 0 < S -> 0 < H ->
  exists x',
    rotate x f = Ok x' /\ shape x' = [B; S; H; 2 * M] /\
    forall b s h m, b < B -> s < S -> h < H -> m < M ->
      pair_at x' b s h m = rotated_pair x f b s h m.
Proof.
  intros Hx Hf HB HS HH.
  assert (Hk3 : size [B; S; H] <> 0) by (unfold size; simpl; nia).
  assert (E1 : resolve_shape (size [B; S; H; 2 * M])
                 (dims (removelast [B; S; H; 2 * M]) ++ [(-1)%Z; 2%Z])
               = Ok [B; S; H; M; 2]).
  { apply (@resolve_shape_wild _ [B; S; H] [2] M).
    - unfold size in *. simpl in *. nia.
    - unfold size. simpl. nia. }
  assert (E2 : resolve_shape (size [B; S; H; M; 2])
                 (dims (removelast [B; S; H; M]) ++ [(-1)%Z])
               = Ok [B; S; H; 2 * M]).
  { apply (@resolve_shape_wild _ [B; S; H] [] (2 * M)).
    - unfold size in *. simpl in *. nia.
    - unfold size. simpl. nia. }
  unfold rotate, reshape. rewrite Hx, E1. cbn [bind].
  unfold take_last. cbn [shape last]. cbn [Nat.ltb Nat.leb bind removelast].
  unfold complex, broadcast2. cbn [shape].
  rewrite broadcast_shapes4, !bdim_refl. cbn [bind].
  unfold expand_0_2. rewrite Hf. cbn [bind shape].
  rewrite broadcast_shapes_f. cbn [bind].
  unfold stack_re_im at 1. cbn [shape app]. rewrite E2. cbn [bind].
  eexists. split; [reflexivity|]. split; [reflexivity|].
  intros b s h m Hb Hs Hh Hm.
  assert (P : forall c', c' < 2 ->
             unravel [B; S; H; 2 * M] (ravel [B; S; H; M; 2] [b; s; h; m; c'])
             = [b; s; h; 2 * m + c']).
  { intros c' Hc'.
    replace (ravel [B; S; H; M; 2] [b; s; h; m; c'])
      with (ravel [B; S; H; 2 * M] [b; s; h; 2 * m + c'])
      by (unfold ravel, size; cbn [fold_right]; ring).
    apply unravel_ravel. simpl. rewrite !andb_true_iff, !Nat.ltb_lt. lia. }
  assert (R : forall c, ravel [B; S; H; 2 * M] [b; s; h; 2 * m + c]
               = ravel [B; S; H; M; 2] [b; s; h; m; c]).
  { intros c. unfold ravel, size. cbn [fold_right]. ring. }
  assert (I : forall c, c < 2 -> inb [B; S; H; M; 2] [b; s; h; m; c] = true).
  { intros c Hc. simpl. rewrite !andb_true_iff, !Nat.ltb_lt. lia. }
  rewrite (surjective_pairing (rotated_pair x f b s h m)).
  unfold pair_at at 1. f_equal.
  - rewrite <- (Nat.add_0_r (2 * m)) at 1.
    cbn [get]. rewrite R. unfold stack_re_im. cbn [shape app].
    rewrite (unravel_ravel _ _ (I 0 ltac:(lia))).
    cbn [get removelast last]. simp_idx. cbn [nth skipn app].
    rewrite !P by lia. unfold rotated_pair, pair_at.
    rewrite Nat.add_0_r. reflexivity.
  - cbn [get]. rewrite R. unfold stack_re_im. cbn [shape app].
    rewrite (unravel_ravel _ _ (I 1 ltac:(lia))).
    cbn [get removelast last]. simp_idx. cbn [nth skipn app].
    rewrite !P by lia. unfold rotated_pair, pair_at.
    rewrite Nat.add_0_r. reflexivity.
Qed.

(** X10.  [apply_rotary_emb] on queries and keys of shapes
    [batch, seq, heads, head_dim] with [head_dim] even (non-empty in
    batch, positions and heads) and [freqs_cis] of shape
    [seq, head_dim / 2] returns arrays of the shapes of its arguments,
    in which elements [2m] and [2m + 1] of position [s] are the real
    and imaginary parts of [(x[2m] + i x[2m + 1]) * freqs_cis[s, m]]:
    adjacent elements are paired, and batch and head do not enter. *)
Theorem apply_rotary_emb_multiplies_adjacent_pairs (xq xk : tensor fval)
  (f : tensor cval) (B S H Hk M : nat) :
  shape xq = [B; S; H; 2 * M] -> shape xk = [B; S; Hk; 2 * M] ->
  shape f = [S; M] -> 0 < B -> 0 < S -> 0 < H -> 0 < Hk ->
  exists xq_out xk_out,
    apply_rotary_emb xq xk f = Ok (xq_out, xk_out) /\
    shape xq_out = shape xq /\ shape xk_out = shape xk /\
    forall b s m, b < B -> s < S -> m < M ->
      (forall h, h < H ->
         pair_at xq_out b s h m = rotated_pair xq f b s h m) /\
      (forall h, h < Hk ->
         pair_at xk_out b s h m = rotated_pair xk f b s h m).
Proof.
  intros Hq Hxk Hf HB HS HH HHk.
  destruct (@rotate_formula xq f B S H M Hq Hf HB HS HH) as (q' & Eq & Sq & Vq).
  destruct (@rotate_formula xk f B S Hk M Hxk Hf HB HS HHk) as (k' & Ek & Sk & Vk).
  exists q', k'. rewrite (@rotate_both _ _ _ _ _ Eq Ek).
  split; [reflexivity|]. split; [congruence|]. split; [congruence|].
  intros b s m Hb Hs Hm. split; intros h Hh; [now apply Vq | now apply Vk].
Qed.

Lemma apply_rotary_emb_multiplies_adjacent_pairs_witness :
  exists xq_out xk_out,
    apply_rotary_emb (tmap Fin rot_q) (tmap Fin rot_k) (tmap cfin unit_freqs)
      = Ok (xq_out, xk_out) /\
    shape xq_out = shape (tmap Fin rot_q) /\
    shape xk_out = shape (tmap Fin rot_k) /\
    forall b s m, b < 1 -> s < 2 -> m < 2 ->
      (forall h, h < 1 ->
         pair_at xq_out b s h m
         = rotated_pair (tmap Fin rot_q) (tmap cfin unit_freqs) b s h m) /\
      (forall h, h < 1 ->
         pair_at xk_out b s h m
         = rotated_pair (tmap Fin rot_k) (tmap cfin unit_freqs) b s h m).
Proof.
  apply (@apply_rotary_emb_multiplies_adjacent_pairs
           (tmap Fin rot_q) (tmap Fin rot_k) (tmap cfin unit_freqs) 1 2 1 1 2);
    try reflexivity; lia.
Defined.

Lemma resolve_shape_wild_raises (total : nat) (p t : list nat) :
  size p * size t = 0 \/ total mod (size p * size t) <> 0 ->
  resolve_shape total (dims p ++ (-1)%Z :: dims t) = Raise ReshapeError.
Proof.
  intros Hk. unfold resolve_shape.
  rewrite !filter_app. cbn [filter]. change (is_wild (-1)) with true.
  cbn [negb]. rewrite !filter_wild_dims, !filter_known_dims.
  cbn [app length]. rewrite map_app, !to_nat_dims, size_app.
  destruct (size p * size t =? 0) eqn:E0; [reflexivity|].
  destruct Hk as [Hk|Hk]; [apply Nat.eqb_neq in E0; contradiction|].
  apply Nat.eqb_neq in Hk. rewrite Hk. reflexivity.
Qed.

(** X13.  With [head_dim] odd the reshape of line 24 has no solution
    for its [-1]: [apply_rotary_emb] raises at the queries, whatever
    the keys and the frequencies. *)
Theorem apply_rotary_emb_odd_head_dim_raises (xq xk : tensor fval)
  (f : tensor cval) (B S H M : nat) :
  shape xq = [B; S; H; 2 * M + 1] ->
  apply_rotary_emb xq xk f = Raise ReshapeError.
Proof.
  intros Hq. unfold apply_rotary_emb. unfold reshape at 1. rewrite Hq.
  change (removelast [B; S; H; 2 * M + 1]) with [B; S; H].
  rewrite (@resolve_shape_wild_raises _ [B; S; H] [2]); [reflexivity|].
  destruct (Nat.eq_dec (size [B; S; H]) 0) as [E0|E0].
  - left. rewrite E0. reflexivity.
  - right. change (size [2]) with 2.
    replace (size [B; S; H; 2 * M + 1])
      with (size [B; S; H] + M * (size [B; S; H] * 2))
      by (unfold size; cbn [fold_right]; ring).
    rewrite Nat.Div0.mod_add, Nat.mod_small; lia.
Qed.

Lemma apply_rotary_emb_odd_head_dim_raises_witness :
  apply_rotary_emb (mkT [1; 2; 1; 3] (fun _ => fone)) (tmap Fin rot_k)
    (tmap cfin unit_freqs) = Raise ReshapeError.
Proof.
  apply (@apply_rotary_emb_odd_head_dim_raises _ _ _ 1 2 1 1). reflexivity.
Defined.

(** X14.  [freqs_cis] must cover exactly the positions of the queries:
    on queries and keys of even [head_dim] (so that lines 24-27 pass),
    with [S'] rows of frequencies for [S] positions, [S' <> S] and
    neither of them 1, the product of line 28 does not broadcast and
    [apply_rotary_emb] raises. *)
Theorem apply_rotary_emb_freqs_length_mismatch_raises (xq xk : tensor fval)
  (f : tensor cval) (B S S' H Hk M : nat) :
  shape xq = [B; S; H; 2 * M] -> shape xk = [B; S; Hk; 2 * M] ->
  shape f = [S'; M] ->
  0 < B -> 0 < S -> 0 < H -> 0 < Hk ->
  S' <> S -> S <> 1 -> S' <> 1 ->
  apply_rotary_emb xq xk f = Raise BroadcastError.
Proof.
  intros Hx Hxk Hf HB HS HH HHk Hne HS1 HS'1.
  assert (E1 : resolve_shape (size [B; S; H; 2 * M])
                 (dims (removelast [B; S; H; 2 * M]) ++ [(-1)%Z; 2%Z])
               = Ok [B; S; H; M; 2]).
  { apply (@resolve_shape_wild _ [B; S; H] [2] M).
    - unfold size in *. simpl in *. nia.
    - unfold size. simpl. nia. }
  assert (E2 : resolve_shape (size [B; S; Hk; 2 * M])
                 (dims (removelast [B; S; Hk; 2 * M]) ++ [(-1)%Z; 2%Z])
               = Ok [B; S; Hk; M; 2]).
  { apply (@resolve_shape_wild _ [B; S; Hk] [2] M).
    - unfold size in *. simpl in *. nia.
    - unfold size. simpl. nia. }
  unfold apply_rotary_emb, reshape. rewrite Hx, Hxk, E1, E2. cbn [bind].
  unfold take_last. cbn [shape last]. cbn [Nat.ltb Nat.leb bind removelast].
  unfold complex, broadcast2. cbn [shape].
  rewrite !broadcast_shapes4, !bdim_refl. cbn [bind].
  unfold expand_0_2. rewrite Hf. cbn [bind shape].
  unfold broadcast_shapes. cbn [rev app bshape_rev].
  rewrite bdim_refl, bdim_1_r. cbn [bind].
  rewrite (@bdim_clash S S') by congruence. reflexivity.
Qed.

Lemma apply_rotary_emb_freqs_length_mismatch_raises_witness :
  apply_rotary_emb (tmap Fin rot_q) (tmap Fin rot_k) long_freqs
  = Raise BroadcastError.
Proof.
  apply (@apply_rotary_emb_freqs_length_mismatch_raises _ _ _ 1 2 3 1 1 2);
    try reflexivity; lia.
Defined.

(** ** The causal mask and the values *)

Lemma feq_refl (x : fval) : feq x x.
Proof. destruct x; cbn; auto. reflexivity. Qed.

Lemma cast_feq (f : format) (x y : fval) :
  feq x y -> feq (cast f x) (cast f y).
Proof.
  destruct x as [a| | |], y as [b| | |]; cbn [feq cast]; try tauto.
  intros E. rewrite (round_to_comp f E). apply feq_refl.
Qed.

Lemma fadd_feq (a a' b b' : fval) :
  feq a a' -> feq b b' -> feq (fadd a b) (fadd a' b').
Proof.
  destruct a as [x| | |], a' as [x'| | |]; cbn [feq]; try tauto;
    destruct b as [y| | |], b' as [y'| | |]; cbn [feq fadd]; try tauto.
  intros E1 E2. now rewrite E1, E2.
Qed.

Lemma fold_fadd_feq (t t' : nat -> fval) (l : list nat) (a a' : fval) :
  (forall j, In j l -> feq (t j) (t' j)) -> feq a a' ->
  feq (fold_left fadd (map t l) a) (fold_left fadd (map t' l) a').
Proof.
  revert a a'. induction l as [|j l IH]; intros a a' Ht Ha; cbn [map fold_left].
  - exact Ha.
  - apply IH.
    + intros j' Hj'. apply Ht. now right.
    + apply fadd_feq; [exact Ha | apply Ht; now left].
Qed.

Lemma cast_zero_or_nan (f : format) (w : fval) :
  zero_or_nan w -> zero_or_nan (cast f w).
Proof.
  destruct w as [z| | |]; cbn [zero_or_nan cast]; try tauto.
  intros E. unfold round_to. apply Qis_zero_iff in E. rewrite E.
  cbn. reflexivity.
Qed.

Lemma fmul_zero_or_nan (w y y' : fval) :
  zero_or_nan w -> is_finite y = true -> is_finite y' = true ->
  feq (fmul w y) (fmul w y').
Proof.
  intros Hw Hy Hy'.
  destruct y as [a| | |]; try discriminate Hy.
  destruct y' as [a'| | |]; try discriminate Hy'.
  destruct w as [z| | |]; cbn [zero_or_nan] in Hw; try contradiction;
    cbn [fmul feq].
  - rewrite Hw. ring.
  - exact I.
Qed.

Section MaskedWeights.
Context {FL : FloatLib}.

Lemma masked_weight (s : tensor fval) (b h i j n : nat) :
  get s [b; h; i; j] = NInf -> zero_or_nan (weight s b h i j n).
Proof.
  intros E. unfold weight, unnormalized. rewrite E.
  set (S := fsum _). clearbody S.
  destruct (row_max s b h i n) as [m| | |]; cbn [fsub fneg fadd fexp];
    destruct S as [q| | |]; cbn [fdiv zero_or_nan]; try exact I;
    try reflexivity.
  all: destruct (Qis_zero q); cbn [Qis_zero Qnum Z.eqb zero_or_nan];
    try exact I; unfold Qdiv; ring.
Qed.

(** X16.  With the causal flag on, the output at query row [i] does not
    read the values at rows above [i]: two value arrays that agree on
    rows [0 .. i] of a column, and are finite in float16 above, give
    the same output at row [i] of that column, whatever the queries
    and keys. *)
Theorem sageattn_causal_output_ignores_later_values (q k v v' : tensor fval)
  (mp : ModelParams) (smooth_k : bool) (B H Lq D Dv : nat) (b h i c : nat) :
  shape q = [B; H; Lq; D] -> shape k = [B; H; D; D] ->
  shape v = [B; H; D; Dv] -> shape v' = [B; H; D; Dv] -> D <> 0 ->
  b < B -> h < H -> i < Lq ->
  (forall j, j <= i -> get v [b; h; j; c] = get v' [b; h; j; c]) ->
  (forall j, i < j -> j < D ->
     is_finite (cast binary16 (get v [b; h; j; c])) = true /\
     is_finite (cast binary16 (get v' [b; h; j; c])) = true) ->
  exists out out' pre,
    sageattn q k v mp None true smooth_k = Ok (out, pre) /\
    sageattn q k v' mp None true smooth_k = Ok (out', pre) /\
    feq (get out [b; h; i; c]) (get out' [b; h; i; c]).
Proof.
  intros Hq Hk Hv Hv' HD Hb Hh Hi Hag Hfin.
  destruct (@sageattn_4 FL q k v mp true smooth_k B H Lq D Dv Hq Hk Hv HD)
    as (s & pre & out & Es & Eo & _ & Vo).
  destruct (@sageattn_4 FL q k v' mp true smooth_k B H Lq D Dv Hq Hk Hv' HD)
    as (s2 & pre2 & out' & Es2 & Eo' & _ & Vo').
  rewrite Es in Es2. inversion Es2; subst s2 pre2. clear Es2.
  destruct (@softmax_input_4 FL q k mp true smooth_k B H Lq D Hq Hk HD)
    as (k' & s3 & pre3 & _ & Es3 & _ & _ & Vs).
  rewrite Es in Es3. inversion Es3; subst s3 pre3. clear Es3.
  exists out, out', pre. split; [exact Eo|]. split; [exact Eo'|].
  rewrite (Vo b h i c Hb Hh Hi), (Vo' b h i c Hb Hh Hi).
  unfold attended. apply cast_feq. apply fold_fadd_feq; [|apply feq_refl].
  intros j Hj. apply in_seq in Hj.
  destruct (Nat.le_gt_cases j i) as [Hle|Hgt].
  - rewrite (Hag j Hle). apply feq_refl.
  - destruct (Hfin j Hgt ltac:(lia)) as [F1 F2].
    apply fmul_zero_or_nan; [|exact F1|exact F2].
    apply cast_zero_or_nan, masked_weight.
    destruct (Vs b h i j Hb Hh Hi ltac:(lia)) as [-> _].
    assert (E : (j <=? i) = false) by (apply Nat.leb_gt; lia).
    now rewrite E.
Qed.

End MaskedWeights.

Lemma feq_sym (x y : fval) : feq x y -> feq y x.
Proof.
  destruct x, y; cbn [feq]; try tauto. intros E. now symmetry.
Qed.

Lemma feq_trans (x y z : fval) : feq x y -> feq y z -> feq x z.
Proof.
  destruct x, y, z; cbn [feq]; try tauto. intros E1 E2. now rewrite E1.
Qed.

Lemma cast_idem (f : format) (x : fval) :
  (1 <= prec f)%Z -> feq (cast f (cast f x)) (cast f x).
Proof.
  intros Hp. destruct x as [q| | |]; cbn [cast]; try exact I.
  destruct (round_to f q) as [r| | |] eqn:E; cbn [cast]; try exact I.
  destruct (@round_to_idem f q r Hp E) as (r' & -> & Er). exact Er.
Qed.

Lemma fold_fmax_masked (g : nat -> fval) (l : list nat) (a : Q) :
  (forall j, In j l -> g j = NInf) ->
  fold_left fmax (map g l) (Fin a) = Fin a.
Proof.
  induction l as [|j l IH]; intros Hg; cbn [map fold_left]; [reflexivity|].
  rewrite (Hg j) by now left. cbn [fmax]. apply IH.
  intros j' Hj'. apply Hg. now right.
Qed.

Lemma fold_fadd_zeros (t : nat -> fval) (l : list nat) (a : Q) :
  (forall j, In j l -> t j = Fin 0) ->
  exists S, fold_left fadd (map t l) (Fin a) = Fin S /\ (S == a)%Q.
Proof.
  revert a. induction l as [|j l IH]; intros a Ht; cbn [map fold_left].
  - exists a. split; reflexivity.
  - rewrite (Ht j) by now left. cbn [fadd].
    destruct (IH (a + 0)%Q) as (S & E & ES).
    { intros j' Hj'. apply Ht. now right. }
    exists S. split; [exact E|]. rewrite ES. ring.
Qed.

Lemma fold_fadd_feq_zeros (t : nat -> fval) (l : list nat) (a : fval) :
  (forall j, In j l -> t j = Fin 0) ->
  feq (fold_left fadd (map t l) a) a.
Proof.
  revert a. induction l as [|j l IH]; intros a Ht; cbn [map fold_left].
  - apply feq_refl.
  - rewrite (Ht j) by now left.
    apply feq_trans with (fadd a (Fin 0)).
    + apply IH. intros j' Hj'. apply Ht. now right.
    + destruct a as [x| | |]; cbn [fadd feq]; try exact I. ring.
Qed.

Lemma fmul_one_feq (r : Q) (y : fval) :
  (r == 1)%Q -> feq (fmul (Fin r) y) y.
Proof.
  intros E.
  assert (Z1 : Qis_zero r = false) by (apply Qis_zero_false; lra).
  assert (P1 : Qsgn_pos r = true) by (rewrite (Qsgn_pos_comp E); reflexivity).
  destruct y as [a| | |]; cbn [fmul feq]; unfold inf_signed;
    rewrite ?Z1, ?P1; cbn; try exact I.
  rewrite E. ring.
Qed.

Section FirstRow.
Context {FL : FloatLib}.

(** [exp] of zero is positive. *)
Hypothesis qexp_zero_pos : forall y, (y == 0)%Q -> (0 < qexp y)%Q.

(** X17.  With the causal flag on, query row 0 sees key 0 only: when
    its score at key 0 is finite and the values of the later rows are
    finite in float16, its output is the float16 value of row 0 of
    [v]. *)
Theorem sageattn_causal_first_row_is_first_value (q k v : tensor fval)
  (mp : ModelParams) (smooth_k : bool) (B H Lq D Dv : nat) (b h c : nat)
  (s pre : tensor fval) :
  shape q = [B; H; Lq; D] -> shape k = [B; H; D; D] ->
  shape v = [B; H; D; Dv] -> D <> 0 ->
  b < B -> h < H -> 0 < Lq ->
  softmax_input q k mp None true smooth_k = Ok (s, pre) ->
  is_finite (get s [b; h; 0; 0]) = true ->
  (forall j, 0 < j -> j < D ->
     is_finite (cast binary16 (get v [b; h; j; c])) = true) ->
  exists out,
    sageattn q k v mp None true smooth_k = Ok (out, pre) /\
    feq (get out [b; h; 0; c]) (cast binary16 (get v [b; h; 0; c])).
Proof.
  intros Hq Hk Hv HD Hb Hh Hi Es Hs0 Hfin.
  destruct (@sageattn_4 FL q k v mp true smooth_k B H Lq D Dv Hq Hk Hv HD)
    as (s2 & pre2 & out & Es2 & Eo & _ & Vo).
  rewrite Es in Es2. inversion Es2; subst s2 pre2. clear Es2.
  destruct (@softmax_input_4 FL q k mp true smooth_k B H Lq D Hq Hk HD)
    as (k' & s3 & pre3 & _ & Es3 & _ & _ & Vs).
  rewrite Es in Es3. inversion Es3; subst s3 pre3. clear Es3.
  exists out. split; [exact Eo|].
  destruct (get s [b; h; 0; 0]) as [x| | |] eqn:Ex; try discriminate Hs0.
  assert (Hmask : forall j, 0 < j -> j < D -> get s [b; h; 0; j] = NInf).
  { intros j Hj HjD. destruct (Vs b h 0 j Hb Hh Hi HjD) as [-> _].
    assert (E : (j <=? 0) = false) by (apply Nat.leb_gt; lia).
    now rewrite E. }
  rewrite (Vo b h 0 c Hb Hh Hi). unfold attended.
  destruct D as [|D']; [congruence|].
  assert (Hseq : forall j, In j (seq 1 D') -> 0 < j /\ j < Datatypes.S D')
    by (intros j Hj; apply in_seq in Hj; lia).
  (* the row maximum is the score at key 0 *)
  assert (Em : row_max s b h 0 (Datatypes.S D') = Fin x).
  { unfold row_max, row_of. cbn [seq map fold_left]. rewrite Ex. cbn [fmax].
    apply fold_fmax_masked. intros j Hj.
    destruct (Hseq j Hj). now apply Hmask. }
  assert (U0 : unnormalized s b h 0 0 (Datatypes.S D') = Fin (qexp (x + - x))).
  { unfold unnormalized. rewrite Ex, Em. reflexivity. }
  assert (Uj : forall j, In j (seq 1 D') ->
                 unnormalized s b h 0 j (Datatypes.S D') = Fin 0).
  { intros j Hj. destruct (Hseq j Hj). unfold unnormalized.
    rewrite Hmask, Em by assumption. reflexivity. }
  set (e := qexp (x + - x)) in *.
  assert (He : (0 < e)%Q) by (apply qexp_zero_pos; ring).
  destruct (@fold_fadd_zeros
              (fun j => unnormalized s b h 0 j (Datatypes.S D'))
              (seq 1 D') (0 + e) Uj) as (S & ES & HS).
  assert (Esum : fsum (map (fun j' => unnormalized s b h 0 j' (Datatypes.S D'))
                           (seq 0 (Datatypes.S D'))) = Fin S).
  { unfold fsum. cbn [seq map fold_left]. rewrite U0. cbn [fzero fadd].
    exact ES. }
  assert (ZS : Qis_zero S = false) by (apply Qis_zero_false; lra).
  assert (W0 : weight s b h 0 0 (Datatypes.S D') = Fin (e / S)).
  { unfold weight. rewrite Esum, U0. cbn [fdiv]. now rewrite ZS. }
  assert (Wj : forall j, In j (seq 1 D') ->
                 weight s b h 0 j (Datatypes.S D') = Fin (0 / S)).
  { intros j Hj. unfold weight. rewrite Esum, (Uj j Hj). cbn [fdiv].
    now rewrite ZS. }
  set (t' := fun j : nat =>
               if j =? 0 then cast binary16 (get v [b; h; 0; c]) else Fin 0).
  eapply feq_trans; [|apply (@cast_idem binary16); cbn; lia].
  apply cast_feq.
  eapply feq_trans.
  { apply (@fold_fadd_feq _ t' (seq 0 (Datatypes.S D')) fzero fzero);
      [|apply feq_refl].
    intros j Hj. cbn [seq] in Hj. destruct Hj as [<-|Hj].
    - rewrite W0. unfold t'. cbn [Nat.eqb cast].
      rewrite (@round_to_comp binary16 (e / S) 1) by (rewrite HS; field; lra).
      apply fmul_one_feq. reflexivity.
    - destruct (Hseq j Hj) as [Hj0 HjD].
      rewrite (Wj j Hj). unfold t'.
      assert (E0 : (j =? 0) = false) by (apply Nat.eqb_neq; lia).
      rewrite E0. cbn [cast].
      assert (Z0 : Qis_zero (0 / S) = true) by reflexivity.
      unfold round_to at 1. rewrite Z0.
      specialize (Hfin j Hj0 HjD).
      destruct (cast binary16 (get v [b; h; j; c])) as [y| | |];
        try discriminate Hfin.
      cbn [fmul feq]. ring. }
  cbn [seq map fold_left]. unfold t' at 2. cbn [Nat.eqb].
  eapply feq_trans.
  { apply fold_fadd_feq_zeros. intros j Hj. destruct (Hseq j Hj).
    unfold t'. assert (E0 : (j =? 0) = false) by (apply Nat.eqb_neq; lia).
    now rewrite E0. }
  destruct (cast binary16 (get v [b; h; 0; c])) as [y| | |];
    cbn [fzero fadd feq]; try exact I. ring.
Qed.

End FirstRow.

Lemma sageattn_causal_output_ignores_later_values_witness :
  exists out out' pre,
    @sageattn RefLib causal_q causal_k1 causal_v (params 3) None true true
      = Ok (out, pre) /\
    @sageattn RefLib causal_q causal_k1 causal_v_later (params 3) None true true
      = Ok (out', pre) /\
    feq (get out [0; 0; 1; 0]) (get out' [0; 0; 1; 0]).
Proof.
  apply (@sageattn_causal_output_ignores_later_values RefLib
           causal_q causal_k1 causal_v causal_v_later (params 3) true
           1 1 3 3 3 0 0 1 0); try reflexivity; try lia.
  - intros [|[|j]] Hj; [reflexivity | reflexivity | lia].
  - intros j H1 H2. assert (Ej : j = 2) by lia. subst j.
    split; reflexivity.
Defined.

(** In float16 the value 2049 is stored as 2048. *)
Example cast_binary16_2049 : feq (cast binary16 (Fin 2049)) (Fin 2048).
Proof. vm_compute. reflexivity. Qed.

Lemma exp_pade_zero_pos (y : Q) : (y == 0)%Q -> (0 < exp_pade y)%Q.
Proof.
  intros E. unfold exp_pade.
  assert (H : Qle_bool 0 y = true) by (apply Qle_bool_iff; lra).
  rewrite H. lra.
Qed.

Lemma causal_first_score_finite :
  match @softmax_input RefLib causal_q causal_k1 (params 3) None true true with
  | Ok (s, _) => is_finite (get s [0; 0; 0; 0])
  | Raise _ => false
  end = true.
Proof. vm_compute. reflexivity. Qed.

Lemma sageattn_causal_first_row_is_first_value_witness :
  exists s pre out,
    @softmax_input RefLib causal_q causal_k1 (params 3) None true true
      = Ok (s, pre) /\
    is_finite (get s [0; 0; 0; 0]) = true /\
    @sageattn RefLib causal_q causal_k1 causal_v_later (params 3) None true true
      = Ok (out, pre) /\
    feq (get out [0; 0; 0; 2]) (cast binary16 (get causal_v_later [0; 0; 0; 2])).
Proof.
  pose proof causal_first_score_finite as Hs.
  destruct (@softmax_input RefLib causal_q causal_k1 (params 3) None true true)
    as [[s pre]|err] eqn:Es; [|discriminate Hs].
  destruct (@sageattn_causal_first_row_is_first_value RefLib exp_pade_zero_pos
              causal_q causal_k1 causal_v_later (params 3) true
              1 1 3 3 3 0 0 2 s pre) as (out & Eo & Ho);
    try reflexivity; try lia; try assumption.
  { intros j H1 H2. destruct j as [|[|[|j]]]; try lia; reflexivity. }
  exists s, pre, out. repeat split; assumption.
Defined.

(** ** What the masks do not reach *)

(** X18.  [pre_scores] is taken before the masks: two calls that differ
    in the additive mask and in the causal flag only, and both return,
    return the same [pre_scores] (the scores [xfmr] hands to
    [AttnStats] never show a mask). *)
Theorem sageattn_pre_scores_ignore_the_masks (FL : FloatLib)
  (q k v : tensor fval) (mp : ModelParams)
  (mask1 mask2 : option (tensor fval)) (causal1 causal2 smooth_k : bool)
  (out1 pre1 out2 pre2 : tensor fval) :
  sageattn q k v mp mask1 causal1 smooth_k = Ok (out1, pre1) ->
  sageattn q k v mp mask2 causal2 smooth_k = Ok (out2, pre2) ->
  pre1 = pre2.
Proof.
  unfold sageattn. intros E1 E2.
  apply bind_ok in E1 as ([s1 p1] & I1 & E1).
  apply bind_ok in E1 as (w1 & _ & E1).
  apply bind_ok in E2 as ([s2 p2] & I2 & E2).
  apply bind_ok in E2 as (w2 & _ & E2).
  inversion E1; inversion E2; subst.
  apply softmax_input_inv in I1 as (k1 & sc1 & ? & Ek1 & Esc1 & _ & _ & ->).
  apply softmax_input_inv in I2 as (k2 & sc2 & ? & Ek2 & Esc2 & _ & _ & ->).
  rewrite Ek1 in Ek2. inversion Ek2; subst k2.
  rewrite Esc1 in Esc2. inversion Esc2; subst sc2. reflexivity.
Qed.

Lemma sageattn_pre_scores_ignore_the_masks_witness :
  exists out1 out2 pre,
    @sageattn RefLib causal_q causal_k1 causal_v (params 3) None false true
      = Ok (out1, pre) /\
    @sageattn RefLib causal_q causal_k1 causal_v (params 3)
      (Some (ones_like causal_v)) true true = Ok (out2, pre).
Proof.
  destruct (@sageattn RefLib causal_q causal_k1 causal_v (params 3) None
              false true) as [[o1 p1]|e] eqn:E1; [|discriminate E1].
  destruct (@sageattn RefLib causal_q causal_k1 causal_v (params 3)
              (Some (ones_like causal_v)) true true)
    as [[o2 p2]|e] eqn:E2; [|discriminate E2].
  exists o1, o2, p1. split; [reflexivity|].
  rewrite (@sageattn_pre_scores_ignore_the_masks RefLib causal_q causal_k1
             causal_v (params 3) None (Some (ones_like causal_v)) false true
             true o1 p1 o2 p2 E1 E2).
  reflexivity.
Defined.

(** ** The quantizer: the ends of the range, and empty rows *)






Section EmptyRows.
Context {FL : FloatLib}.

(** X20.  [quantize_int8] takes the maximum of each row: with no
    channel ([head_dim = 0]) or no key position ([kv_len = 0]) a row is
    empty, the maximum does not exist, and the kernel raises, whatever
    the values, the mask and the flags. *)
Theorem sageattn_raises_on_empty_rows (q k v : tensor fval)
  (mp : ModelParams) (attn_mask : option (tensor fval))
  (is_causal smooth_k : bool) (B H Lq D Lk : nat) :
  shape q = [B; H; Lq; D] -> shape k = [B; H; D; Lk] ->
  D = 0 \/ Lk = 0 ->
  sageattn q k v mp attn_mask is_causal smooth_k = Raise EmptyReduction.
Proof.
  intros Hq Hk Hz. unfold sageattn, softmax_input.
  destruct (smooth_shape smooth_k k Hk) as (k' & -> & Hk'). cbn [bind].
  unfold dequantized_scores.
  destruct (Nat.eq_dec D 0) as [HD|HD].
  - subst D. unfold quantize_int8 at 1, max_keepdims, rank. cbn [shape tmap].
    rewrite Hq. reflexivity.
  - destruct Hz as [Hz|Hz]; [contradiction|]. subst Lk.
    destruct (quantize_int8_4 q Hq HD) as (q8 & qs & -> & _). cbn [bind].
    unfold quantize_int8, max_keepdims, rank. cbn [shape tmap].
    rewrite Hk'. reflexivity.
Qed.

End EmptyRows.

Lemma sageattn_raises_on_empty_rows_witness :
  @sageattn RefLib no_channel_q no_channel_k prefill_v (params 0) None true true
  = Raise EmptyReduction /\
  @sageattn RefLib prefill_q no_position_k prefill_v (params 2) None true true
  = Raise EmptyReduction.
Proof.
  split.
  - apply (@sageattn_raises_on_empty_rows RefLib no_channel_q no_channel_k
             prefill_v (params 0) None true true 1 1 2 0 2 eq_refl eq_refl).
    now left.
  - apply (@sageattn_raises_on_empty_rows RefLib prefill_q no_position_k
             prefill_v (params 2) None true true 1 1 3 2 0 eq_refl eq_refl).
    now right.
Defined.

(** ** The operations at rank 3 *)

Lemma reduce_last3 {A B0} (f : list A -> B0) (t : tensor A) (B S D : nat) :
  shape t = [B; S; D] ->
  reduce_keepdims f (-1) t
  = Ok (mkT [B; S; 1] (fun idx => f (lane t 2 idx))).
Proof.
  intros Hs. unfold reduce_keepdims, rank. rewrite Hs. reflexivity.
Qed.

Lemma lane_last3 {A} (t : tensor A) (B S D b s d : nat) :
  shape t = [B; S; D] -> lane t 2 [b; s; d] = row3 t b s D.
Proof. intros Hs. unfold lane. rewrite Hs. reflexivity. Qed.

Lemma bindex3 (B S D b s d : nat) :
  bindex [B; S; D] [b; s; d] = [unit_or B b; unit_or S s; unit_or D d].
Proof. reflexivity. Qed.

Lemma bindex1_3 (D b s d : nat) : bindex [D] [b; s; d] = [unit_or D d].
Proof. reflexivity. Qed.

Lemma broadcast_shapes3 (B S D D' : nat) :
  broadcast_shapes [B; S; D] [B; S; D'] = (d <- bdim D D' ;; Ok [B; S; d]).
Proof.
  unfold broadcast_shapes. cbn [rev app bshape_rev].
  destruct (bdim D D'); cbn [bind]; [|reflexivity].
  rewrite !bdim_refl. reflexivity.
Qed.

Lemma broadcast_shapes1_3 (B S D D' : nat) :
  broadcast_shapes [D'] [B; S; D] = (d <- bdim D' D ;; Ok [B; S; d]).
Proof.
  unfold broadcast_shapes. cbn [rev app bshape_rev].
  destruct (bdim D' D); reflexivity.
Qed.

Lemma transpose_T_2 {A} (w : tensor A) (F D : nat) :
  shape w = [F; D] ->
  transpose_T w
  = Ok (mkT [D; F] (fun idx => get w [nth 1 idx 0; nth 0 idx 0])).
Proof.
  intros Hs. unfold transpose_T, transpose, rank. rewrite Hs. reflexivity.
Qed.

Lemma dot_3 (x y : tensor fval) (B S D F : nat) :
  shape x = [B; S; D] -> shape y = [D; F] ->
  exists p,
    dot x y = Ok p /\ shape p = [B; S; F] /\
    forall b s f, b < B ->
      get p [b; s; f]
      = fold_left fadd
          (map (fun l => fmul (get x [b; s; l]) (get y [l; f])) (seq 0 D))
          fzero.
Proof.
  intros Hx Hy. unfold dot, rank.
  rewrite Hx, Hy.
  cbn [length Nat.eqb orb last removelast nth Nat.sub firstn app].
  rewrite Nat.eqb_refl.
  eexists. split; [reflexivity|]. split; [reflexivity|].
  intros b s f Hb. reflexivity.
Qed.

Lemma dot_3_clash (x y : tensor fval) (B S D D' F : nat) :
  shape x = [B; S; D] -> shape y = [D'; F] -> D <> D' ->
  dot x y = Raise ContractionError.
Proof.
  intros Hx Hy Hne. unfold dot, rank.
  rewrite Hx, Hy.
  cbn [length Nat.eqb orb last removelast nth Nat.sub firstn app].
  apply Nat.eqb_neq in Hne. now rewrite Hne.
Qed.

(** ** Normalization, position by position *)

Section NormFacts.
Context {FL : FloatLib}.

(** Line 19 on activations of shape [batch, seq, dim] with a weight
    vector of length [dim]: each element is scaled by its weight and
    by the inverse root mean square of its own position. *)
Lemma rms_norm_3 (x w : tensor fval) (B S D : nat) :
  shape x = [B; S; D] -> shape w = [D] ->
  exists out,
    rms_norm x w = Ok out /\ shape out = [B; S; D] /\
    forall b s d, b < B -> s < S -> d < D ->
      get out [b; s; d]
      = fmul (get w [d])
          (fmul (get x [b; s; d])
             (frsqrt (fadd (fmean (map (fun a => fmul a a) (row3 x b s D)))
                           (Fin (1 # 1000000))))).
Proof.
  intros Hx Hw. unfold rms_norm, mean_keepdims.
  assert (Hx2 : shape (tmap (fun a => fmul a a) x) = [B; S; D]) by exact Hx.
  rewrite (reduce_last3 _ _ Hx2). cbn [bind].
  unfold broadcast2 at 1. cbn [shape tmap]. rewrite Hx.
  rewrite broadcast_shapes3, bdim_1_r. cbn [bind].
  unfold broadcast2. cbn [shape]. rewrite Hw.
  rewrite broadcast_shapes1_3, bdim_refl. cbn [bind].
  eexists. split; [reflexivity|]. split; [reflexivity|].
  intros b s d Hb Hs Hd. cbn [get tmap].
  rewrite bindex1_3, !bindex3. simp_idx.
  rewrite ?(unit_or_lt Hd), ?(unit_or_lt Hb), ?(unit_or_lt Hs).
  rewrite (lane_last3 _ b s 0 Hx2).
  unfold row3. rewrite map_map. reflexivity.
Qed.

(** X22.  [rms_norm] treats every position on its own: two activation
    arrays of shape [batch, seq, dim] that agree at position [s] of
    batch [b] are normalized to arrays that agree there, whatever they
    hold elsewhere. *)
Theorem rms_norm_keeps_positions_apart (x y w : tensor fval)
  (B S D b s : nat) :
  shape x = [B; S; D] -> shape y = [B; S; D] -> shape w = [D] ->
  b < B -> s < S ->
  (forall d, d < D -> get x [b; s; d] = get y [b; s; d]) ->
  exists ox oy,
    rms_norm x w = Ok ox /\ rms_norm y w = Ok oy /\
    shape ox = [B; S; D] /\ shape oy = [B; S; D] /\
    forall d, d < D -> get ox [b; s; d] = get oy [b; s; d].
Proof.
  intros Hx Hy Hw Hb Hs Hxy.
  destruct (rms_norm_3 x w Hx Hw) as (ox & Ex & Sx & Vx).
  destruct (rms_norm_3 y w Hy Hw) as (oy & Ey & Sy & Vy).
  exists ox, oy. repeat split; try assumption.
  intros d Hd. rewrite Vx, Vy by assumption.
  assert (Er : row3 x b s D = row3 y b s D).
  { unfold row3. apply map_ext_in. intros l Hl. apply in_seq in Hl.
    apply Hxy. lia. }
  rewrite Er, (Hxy d Hd). reflexivity.
Qed.

(** X23.  A weight vector whose length is neither [dim] nor 1 does not
    broadcast against the activations: [rms_norm] raises. *)
Theorem rms_norm_weight_length_mismatch_raises (x w : tensor fval)
  (B S D D' : nat) :
  shape x = [B; S; D] -> shape w = [D'] ->
  D' <> D -> D' <> 1 -> D <> 1 ->
  rms_norm x w = Raise BroadcastError.
Proof.
  intros Hx Hw Hne H1 H2. unfold rms_norm, mean_keepdims.
  assert (Hx2 : shape (tmap (fun a => fmul a a) x) = [B; S; D]) by exact Hx.
  rewrite (reduce_last3 _ _ Hx2). cbn [bind].
  unfold broadcast2 at 1. cbn [shape tmap]. rewrite Hx.
  rewrite broadcast_shapes3, bdim_1_r. cbn [bind].
  unfold broadcast2. cbn [shape]. rewrite Hw.
  rewrite broadcast_shapes1_3, bdim_clash by assumption. reflexivity.
Qed.

End NormFacts.

Lemma rms_norm_keeps_positions_apart_witness :
  exists ox oy,
    @rms_norm RefLib (tmap Fin act_q) (qvec [1; 1]%Q) = Ok ox /\
    @rms_norm RefLib (tmap Fin act_q') (qvec [1; 1]%Q) = Ok oy /\
    shape ox = [1; 3; 2] /\ shape oy = [1; 3; 2] /\
    forall d, d < 2 -> get ox [0; 1; d] = get oy [0; 1; d].
Proof.
  apply (@rms_norm_keeps_positions_apart RefLib (tmap Fin act_q)
           (tmap Fin act_q') (qvec [1; 1]%Q) 1 3 2 0 1);
    try reflexivity; lia.
Defined.

Lemma rms_norm_weight_length_mismatch_raises_witness :
  @rms_norm RefLib (tmap Fin act_q) (qvec [1; 1; 1]%Q) = Raise BroadcastError.
Proof.
  apply (@rms_norm_weight_length_mismatch_raises RefLib (tmap Fin act_q)
           (qvec [1; 1; 1]%Q) 1 3 2 3);
    try reflexivity; lia.
Defined.

(** ** The feed-forward block *)

Section FeedForwardFacts.
Context {FL : FloatLib}.

(** Line 92 on activations of shape [batch, seq, dim] with [w1] and
    [w3] of shape [hidden, dim] and [w2] of shape [out, hidden]. *)
Lemma feed_forward_3 (x : tensor fval) (lw : LayerWeights) (B S D F Do : nat) :
  shape x = [B; S; D] -> shape (w1 lw) = [F; D] -> shape (w3 lw) = [F; D] ->
  shape (w2 lw) = [Do; F] ->
  exists out,
    feed_forward x lw = Ok out /\ shape out = [B; S; Do] /\
    forall b s d, b < B -> s < S -> d < Do ->
      get out [b; s; d]
      = fold_left fadd
          (map (fun f => fmul (fmul (fsilu (dot_row x (w1 lw) b s f D))
                                    (dot_row x (w3 lw) b s f D))
                              (get (w2 lw) [d; f]))
               (seq 0 F))
          fzero.
Proof.
  intros Hx H1 H3 H2. unfold feed_forward.
  rewrite (transpose_T_2 _ H1), (transpose_T_2 _ H3), (transpose_T_2 _ H2).
  cbn [bind].
  destruct (@dot_3 x (mkT [D; F] (fun idx => get (w1 lw) [nth 1 idx 0; nth 0 idx 0]))
              B S D F Hx eq_refl) as (g & -> & Sg & Vg).
  cbn [bind].
  destruct (@dot_3 x (mkT [D; F] (fun idx => get (w3 lw) [nth 1 idx 0; nth 0 idx 0]))
              B S D F Hx eq_refl) as (u & -> & Su & Vu).
  cbn [bind].
  unfold broadcast2. cbn [shape tmap]. rewrite Sg, Su.
  rewrite broadcast_shapes3, bdim_refl. cbn [bind].
  match goal with
  | |- context [dot ?gu ?w2t] =>
      destruct (@dot_3 gu w2t B S F Do eq_refl eq_refl) as (o & -> & So & Vo)
  end.
  exists o. split; [reflexivity|]. split; [exact So|].
  intros b s d Hb Hs Hd. rewrite (Vo b s d Hb).
  apply f_equal2; [|reflexivity]. apply map_ext_in. intros f Hf.
  apply in_seq in Hf. assert (Hf' : f < F) by lia.
  cbn [get tmap nth]. rewrite !bindex3.
  rewrite (unit_or_lt Hb), (unit_or_lt Hs), (unit_or_lt Hf').
  rewrite (Vg b s f Hb), (Vu b s f Hb). reflexivity.
Qed.

(** X25.  [feed_forward] returns exactly when its weights fit: [w1] and
    [w3] have as many columns as the activations have channels, their
    row counts broadcast against one another (equal, or one of them
    1), and the result is the column count of [w2]; what it returns
    has the shape [batch, seq, rows of w2]. *)
Theorem feed_forward_returns_iff_weights_fit (x : tensor fval)
  (lw : LayerWeights) (B S D F1 D1 F3 D3 D2 F2 : nat) :
  shape x = [B; S; D] -> shape (w1 lw) = [F1; D1] ->
  shape (w3 lw) = [F3; D3] -> shape (w2 lw) = [D2; F2] ->
  (is_ok (feed_forward x lw) = true
   <-> D1 = D /\ D3 = D /\ bdim F1 F3 = Ok F2) /\
  (forall out, feed_forward x lw = Ok out -> shape out = [B; S; D2]).
Proof.
  intros Hx H1 H3 H2. unfold feed_forward.
  rewrite (transpose_T_2 _ H1), (transpose_T_2 _ H3), (transpose_T_2 _ H2).
  cbn [bind].
  destruct (Nat.eq_dec D D1) as [E1|E1].
  2:{ match goal with
      | |- context [dot x ?w] =>
          rewrite (@dot_3_clash x w B S D D1 F1 Hx eq_refl E1)
      end. cbn [bind is_ok].
      split; [|discriminate].
      split; [discriminate | intros (? & _); congruence]. }
  subst D1.
  destruct (@dot_3 x (mkT [D; F1] (fun idx => get (w1 lw) [nth 1 idx 0; nth 0 idx 0]))
              B S D F1 Hx eq_refl) as (g & -> & Sg & _).
  cbn [bind].
  destruct (Nat.eq_dec D D3) as [E3|E3].
  2:{ match goal with
      | |- context [dot x ?w] =>
          rewrite (@dot_3_clash x w B S D D3 F3 Hx eq_refl E3)
      end. cbn [bind is_ok].
      split; [|discriminate].
      split; [discriminate | intros (_ & ? & _); congruence]. }
  subst D3.
  destruct (@dot_3 x (mkT [D; F3] (fun idx => get (w3 lw) [nth 1 idx 0; nth 0 idx 0]))
              B S D F3 Hx eq_refl) as (u & -> & Su & _).
  cbn [bind].
  unfold broadcast2. cbn [shape tmap]. rewrite Sg, Su, broadcast_shapes3.
  destruct (bdim F1 F3) as [F|e] eqn:EF; cbn [bind].
  2:{ cbn [is_ok]. split; [|discriminate].
      split; [discriminate | intros (_ & _ & ?); discriminate]. }
  destruct (Nat.eq_dec F F2) as [E2|E2].
  - subst F2.
    match goal with
    | |- context [dot ?gu ?w2t] =>
        destruct (@dot_3 gu w2t B S F D2 eq_refl eq_refl) as (o & -> & So & _)
    end.
    cbn [is_ok]. split.
    + split; [auto | reflexivity].
    + intros out E. inversion E; subst out. exact So.
  - match goal with
    | |- context [dot ?gu ?w2t] =>
        rewrite (@dot_3_clash gu w2t B S F F2 D2 eq_refl eq_refl E2)
    end.
    cbn [is_ok]. split; [|discriminate].
    split; [discriminate | intros (_ & _ & E); congruence].
Qed.

(** X26.  [feed_forward] treats every position on its own: two
    activation arrays that agree at position [s] of batch [b] give
    results that agree there. *)
Theorem feed_forward_keeps_positions_apart (x y : tensor fval)
  (lw : LayerWeights) (B S D F Do b s : nat) :
  shape x = [B; S; D] -> shape y = [B; S; D] ->
  shape (w1 lw) = [F; D] -> shape (w3 lw) = [F; D] ->
  shape (w2 lw) = [Do; F] ->
  b < B -> s < S ->
  (forall d, d < D -> get x [b; s; d] = get y [b; s; d]) ->
  exists ox oy,
    feed_forward x lw = Ok ox /\ feed_forward y lw = Ok oy /\
    forall d, d < Do -> get ox [b; s; d] = get oy [b; s; d].
Proof.
  intros Hx Hy H1 H3 H2 Hb Hs Hxy.
  destruct (feed_forward_3 x lw Hx H1 H3 H2) as (ox & Ex & _ & Vx).
  destruct (feed_forward_3 y lw Hy H1 H3 H2) as (oy & Ey & _ & Vy).
  exists ox, oy. split; [exact Ex|]. split; [exact Ey|].
  intros d Hd. rewrite Vx, Vy by assumption.
  assert (Er : forall w f, dot_row x w b s f D = dot_row y w b s f D).
  { intros w f. unfold dot_row. f_equal. apply map_ext_in. intros l Hl.
    apply in_seq in Hl. rewrite Hxy by lia. reflexivity. }
  f_equal. apply map_ext_in. intros f _. now rewrite !Er.
Qed.

End FeedForwardFacts.

Lemma feed_forward_returns_iff_weights_fit_witness :
  (is_ok (@feed_forward RefLib (tmap Fin act_q) ffn_layer) = true
   <-> 2 = 2 /\ 2 = 2 /\ bdim 3 3 = Ok 3) /\
  (forall out, @feed_forward RefLib (tmap Fin act_q) ffn_layer = Ok out ->
     shape out = [1; 3; 2]).
Proof.
  apply (@feed_forward_returns_iff_weights_fit RefLib (tmap Fin act_q)
           ffn_layer 1 3 2 3 2 3 2 2 3); reflexivity.
Defined.

Lemma feed_forward_keeps_positions_apart_witness :
  exists ox oy,
    @feed_forward RefLib (tmap Fin act_q) ffn_layer = Ok ox /\
    @feed_forward RefLib (tmap Fin act_q') ffn_layer = Ok oy /\
    forall d, d < 2 -> get ox [0; 1; d] = get oy [0; 1; d].
Proof.
  apply (@feed_forward_keeps_positions_apart RefLib (tmap Fin act_q)
           (tmap Fin act_q') ffn_layer 1 3 2 3 2 0 1);
    try reflexivity; lia.
Defined.

(** ** A layer on a prompt: the shapes that reach the kernel *)

Lemma transpose_0213 {A} (t : tensor A) (a b c d : nat) :
  shape t = [a; b; c; d] ->
  exists t', transpose [0; 2; 1; 3] t = Ok t' /\ shape t' = [a; c; b; d].
Proof.
  intros Hs. unfold transpose, rank. rewrite Hs. cbn [length is_perm].
  eexists. split; [reflexivity|]. cbn [shape map nth]. reflexivity.
Qed.

Lemma transpose_0231 {A} (t : tensor A) (a b c d : nat) :
  shape t = [a; b; c; d] ->
  exists t', transpose [0; 2; 3; 1] t = Ok t' /\ shape t' = [a; c; d; b].
Proof.
  intros Hs. unfold transpose, rank. rewrite Hs. cbn [length is_perm].
  eexists. split; [reflexivity|]. cbn [shape map nth]. reflexivity.
Qed.

Lemma project_4 (x w : tensor fval) (B S Dm heads hd : nat) :
  shape x = [B; S; Dm] -> shape w = [heads * hd; Dm] ->
  0 < B -> 0 < heads -> 0 < hd ->
  exists p, project x w B heads hd = Ok p /\ shape p = [B; S; heads; hd].
Proof.
  intros Hx Hw HB Hh Hd. unfold project.
  rewrite (transpose_T_2 _ Hw). cbn [bind].
  destruct (@dot_3 x (mkT [Dm; heads * hd]
                        (fun idx => get w [nth 1 idx 0; nth 0 idx 0]))
              B S Dm (heads * hd) Hx eq_refl) as (p & -> & Sp & _).
  cbn [bind]. unfold reshape. rewrite Sp.
  change [Z.of_nat B; (-1)%Z; Z.of_nat heads; Z.of_nat hd]
    with (dims [B] ++ (-1)%Z :: dims [heads; hd]).
  rewrite (@resolve_shape_wild _ [B] [heads; hd] S).
  - cbn [bind]. eexists. split; reflexivity.
  - unfold size. cbn [fold_right]. nia.
  - unfold size. cbn [fold_right]. nia.
Qed.

Section LayerShapes.
Context {FL : FloatLib}.

(** Lines 68-78 on well-formed arguments: what the kernel is handed.
    The keys arrive as [batch, heads, head_dim, kv_len] with
    [kv_len = cur_pos + seqlen]. *)
Lemma attention_operands_shapes (x : tensor fval) (lw : LayerWeights)
  (mp : ModelParams) (cur_pos layer_idx : nat) (f : tensor cval)
  (cache : KVCache) (B S Dm M r nl maxlen : nat) :
  let nh := n_local_heads mp in
  let kvh := n_local_kv_heads mp in
  let hd := head_dim mp in
  shape x = [B; S; Dm] ->
  shape (wq lw) = [nh * hd; Dm] -> shape (wk lw) = [kvh * hd; Dm] ->
  shape (wv lw) = [kvh * hd; Dm] ->
  hd = 2 * M -> shape f = [S; M] ->
  nh = kvh * r -> 0 < kvh -> 0 < r -> 0 < B -> 0 < S -> 0 < M ->
  shape (cache_k cache) = [nl; B; maxlen; kvh; hd] ->
  shape (cache_v cache) = [nl; B; maxlen; kvh; hd] ->
  layer_idx < nl -> cur_pos + S <= maxlen ->
  exists xq keys values cache',
    attention_operands x lw mp cur_pos layer_idx f cache
      = Ok (xq, keys, values, cache') /\
    shape xq = [B; nh; S; hd] /\
    shape keys = [B; nh; hd; cur_pos + S] /\
    shape values = [B; nh; cur_pos + S; hd] /\
    shape (cache_k cache') = shape (cache_k cache) /\
    shape (cache_v cache') = shape (cache_v cache).
Proof.
  intros nh kvh hd Hx Hwq Hwk Hwv Hhd Hf Hnh Hkvh Hr HB HS HM Hck Hcv Hl Hcap.
  assert (Hnh0 : 0 < nh) by nia.
  assert (Hhd0 : 0 < hd) by lia.
  unfold attention_operands. rewrite Hx. fold kvh nh hd.
  assert (Ek : (kvh =? 0) = false) by (apply Nat.eqb_neq; lia).
  rewrite Ek.
  destruct (@project_4 x (wq lw) B S Dm nh hd Hx Hwq HB Hnh0 Hhd0)
    as (xq & -> & Sq).
  destruct (@project_4 x (wk lw) B S Dm kvh hd Hx Hwk HB Hkvh Hhd0)
    as (xk & -> & Sk).
  destruct (@project_4 x (wv lw) B S Dm kvh hd Hx Hwv HB Hkvh Hhd0)
    as (xv & -> & Sv).
  cbn [bind]. rewrite Hhd in Sq, Sk.
  destruct (@rotate_formula xq f B S nh M Sq Hf HB HS Hnh0) as (xq' & Eq & Sq' & _).
  destruct (@rotate_formula xk f B S kvh M Sk Hf HB HS Hkvh) as (xk' & Ek' & Sk' & _).
  rewrite (@rotate_both _ _ _ _ _ Eq Ek'). cbn [bind].
  rewrite <- Hhd in Sq', Sk'.
  unfold cache_update. rewrite Hck, Sk', Sv, Hcv.
  assert (Es : forall s, shape_eqb s s = true).
  { induction s as [|a s IH]; [reflexivity|]. simpl.
    now rewrite Nat.eqb_refl, IH. }
  rewrite !Es, !Nat.eqb_refl. cbn [andb negb].
  assert (E1 : (layer_idx <? nl) = true) by (apply Nat.ltb_lt; lia).
  assert (E2 : (cur_pos + S <=? maxlen) = true) by (apply Nat.leb_le; lia).
  rewrite E1, E2. cbn [negb bind].
  assert (Erep : kvh * (nh / kvh) = nh).
  { rewrite Hnh, (Nat.mul_comm kvh r), Nat.div_mul by lia. apply Nat.mul_comm. }
  destruct (@transpose_0213 _ xq' B S nh hd Sq') as (xqt & -> & Sxqt).
  cbn [bind].
  match goal with
  | |- context [transpose [0; 2; 3; 1] ?k] =>
      destruct (@transpose_0231 _ k B (cur_pos + S) nh hd) as (kt & -> & Skt)
  end.
  { unfold cache_read, cache_write. cbn [shape]. rewrite Hck. cbn [nth].
    now rewrite Erep. }
  cbn [bind].
  match goal with
  | |- context [transpose [0; 2; 1; 3] ?v] =>
      destruct (@transpose_0213 _ v B (cur_pos + S) nh hd) as (vt & -> & Svt)
  end.
  { unfold cache_read, cache_write. cbn [shape]. rewrite Hcv. cbn [nth].
    now rewrite Erep. }
  cbn [bind]. eexists _, _, _, _. split; [reflexivity|].
  repeat split; assumption || reflexivity.
Qed.

(** Away from [kv_len = head_dim] a well-formed layer cannot get past
    line 50. *)
Lemma attention_broadcast_error (x : tensor fval)
  (lw : LayerWeights) (mp : ModelParams) (cur_pos layer_idx : nat)
  (f : tensor cval) (cache : KVCache) (attn_mask : option (tensor fval))
  (B S Dm M r nl maxlen : nat) :
  shape x = [B; S; Dm] ->
  shape (wq lw) = [n_local_heads mp * head_dim mp; Dm] ->
  shape (wk lw) = [n_local_kv_heads mp * head_dim mp; Dm] ->
  shape (wv lw) = [n_local_kv_heads mp * head_dim mp; Dm] ->
  head_dim mp = 2 * M -> shape f = [S; M] ->
  n_local_heads mp = n_local_kv_heads mp * r ->
  0 < n_local_kv_heads mp -> 0 < r -> 0 < B -> 0 < S -> 0 < M ->
  shape (cache_k cache) = [nl; B; maxlen; n_local_kv_heads mp; head_dim mp] ->
  shape (cache_v cache) = [nl; B; maxlen; n_local_kv_heads mp; head_dim mp] ->
  layer_idx < nl -> cur_pos + S <= maxlen ->
  1 < cur_pos + S -> cur_pos + S <> head_dim mp ->
  attention x lw mp cur_pos layer_idx f cache attn_mask = Raise BroadcastError.
Proof.
  intros Hx Hwq Hwk Hwv Hhd Hf Hnh Hkvh Hr HB HS HM Hck Hcv Hl Hcap Hk1 Hne.
  destruct (@attention_operands_shapes x lw mp cur_pos layer_idx f cache
              B S Dm M r nl maxlen Hx Hwq Hwk Hwv Hhd Hf Hnh Hkvh Hr HB HS HM
              Hck Hcv Hl Hcap)
    as (xq & keys & values & cache' & E & Sq & Sk & _).
  unfold attention. rewrite E. cbn [bind].
  rewrite (@sageattn_broadcast_error FL xq keys values mp attn_mask
             (0 <? cur_pos) true B (n_local_heads mp) S (head_dim mp)
             (cur_pos + S) Sq Sk); [reflexivity | lia | lia | exact Hne].
Qed.

(** X27.  A layer's attention on well-formed weights, frequencies and
    cache reaches the kernel with keys of [kv_len = cur_pos + seqlen]
    positions, and the kernel needs [kv_len = head_dim]: whenever the
    two differ (and both exceed 1) [attention] raises the broadcasting
    error of line 50, whatever the values and the mask. *)
Theorem attention_raises_unless_kv_len_is_head_dim (x : tensor fval)
  (lw : LayerWeights) (mp : ModelParams) (cur_pos layer_idx : nat)
  (f : tensor cval) (cache : KVCache) (attn_mask : option (tensor fval))
  (B S Dm M r nl maxlen : nat) :
  shape x = [B; S; Dm] ->
  shape (wq lw) = [n_local_heads mp * head_dim mp; Dm] ->
  shape (wk lw) = [n_local_kv_heads mp * head_dim mp; Dm] ->
  shape (wv lw) = [n_local_kv_heads mp * head_dim mp; Dm] ->
  head_dim mp = 2 * M -> shape f = [S; M] ->
  n_local_heads mp = n_local_kv_heads mp * r ->
  0 < n_local_kv_heads mp -> 0 < r -> 0 < B -> 0 < S -> 0 < M ->
  shape (cache_k cache) = [nl; B; maxlen; n_local_kv_heads mp; head_dim mp] ->
  shape (cache_v cache) = [nl; B; maxlen; n_local_kv_heads mp; head_dim mp] ->
  layer_idx < nl -> cur_pos + S <= maxlen ->
  1 < cur_pos + S -> cur_pos + S <> head_dim mp ->
  attention x lw mp cur_pos layer_idx f cache attn_mask = Raise BroadcastError.
Proof.
  intros. eapply attention_broadcast_error; eassumption.
Qed.

Variable AttnStats : Type.
Variable stats_new : nat -> nat -> nat -> AttnStats.
Variable stats_update : AttnStats -> tensor fval -> nat -> AttnStats.

(** X28.  So the forward pass: on a prompt of [seqlen] tokens at
    [cur_pos] with [cur_pos + seqlen] different from [head_dim] (both
    above 1), with well-formed embedding, first-layer weights,
    frequencies and cache, [xfmr] raises in its first layer. *)
Theorem xfmr_raises_unless_kv_len_is_head_dim (w : XfmrWeights)
  (lw : LayerWeights) (mp : ModelParams) (tokens : tensor nat)
  (cur_pos : nat) (f : tensor cval) (cache : KVCache)
  (attn_mask : option (tensor fval)) (B S V Dm M r nl maxlen : nat) :
  shape tokens = [B; S] -> shape (tok_embeddings w) = [V; Dm] ->
  0 < n_layers mp -> nth_error (layer_weights w) 0 = Some lw ->
  shape (attention_norm lw) = [Dm] ->
  shape (wq lw) = [n_local_heads mp * head_dim mp; Dm] ->
  shape (wk lw) = [n_local_kv_heads mp * head_dim mp; Dm] ->
  shape (wv lw) = [n_local_kv_heads mp * head_dim mp; Dm] ->
  head_dim mp = 2 * M -> shape f = [S; M] ->
  n_local_heads mp = n_local_kv_heads mp * r ->
  0 < n_local_kv_heads mp -> 0 < r -> 0 < B -> 0 < S -> 0 < M ->
  shape (cache_k cache) = [nl; B; maxlen; n_local_kv_heads mp; head_dim mp] ->
  shape (cache_v cache) = [nl; B; maxlen; n_local_kv_heads mp; head_dim mp] ->
  0 < nl -> cur_pos + S <= maxlen ->
  1 < cur_pos + S -> cur_pos + S <> head_dim mp ->
  xfmr stats_new stats_update w mp tokens cur_pos f cache attn_mask
  = Raise BroadcastError.
Proof.
  intros Ht He Hn Hlw Han Hwq Hwk Hwv Hhd Hf Hnh Hkvh Hr HB HS HM Hck Hcv Hl
    Hcap Hk1 Hne.
  unfold xfmr, gather. rewrite He, Ht. cbn [bind app].
  destruct (n_layers mp) as [|n] eqn:En; [lia|].
  cbn [seq for_each]. unfold layer_body at 1, nth_layer. rewrite Hlw.
  cbn [bind c_h c_kvcache].
  match goal with
  | |- context [rms_norm ?h (attention_norm lw)] =>
      destruct (@rms_norm_3 FL h (attention_norm lw) B S Dm eq_refl Han)
        as (nx & -> & Snx & _)
  end.
  cbn [bind].
  rewrite (@attention_broadcast_error nx lw mp cur_pos 0 f
             cache attn_mask B S Dm M r nl maxlen); try assumption.
  reflexivity.
Qed.

End LayerShapes.

Lemma attention_raises_unless_kv_len_is_head_dim_witness :
  @attention RefLib (tmap Fin act_q) tiny_layer tiny_params 0 0 three_freqs
    tiny_cache None = Raise BroadcastError.
Proof.
  apply (@attention_raises_unless_kv_len_is_head_dim RefLib (tmap Fin act_q)
           tiny_layer tiny_params 0 0 three_freqs tiny_cache None
           1 3 2 1 1 1 4);
    try reflexivity; try (simpl; lia).
Defined.

Lemma xfmr_raises_unless_kv_len_is_head_dim_witness :
  @xfmr RefLib StatsLog log_new log_update tiny_weights tiny_params
    three_tokens 0 three_freqs tiny_cache None = Raise BroadcastError.
Proof.
  apply (@xfmr_raises_unless_kv_len_is_head_dim RefLib StatsLog log_new
           log_update tiny_weights tiny_layer tiny_params three_tokens 0
           three_freqs tiny_cache None 1 3 3 2 1 1 1 4);
    try reflexivity; try (simpl; lia).
Defined.

(** ** A layer on a prompt of [head_dim] positions *)

Lemma attention_output_3 (xq output : tensor fval) (lw : LayerWeights)
  (B nh S hd Do : nat) :
  shape xq = [B; nh; S; hd] -> shape output = [B; nh; S; hd] ->
  shape (wo lw) = [Do; nh * hd] -> 0 < B -> 0 < S ->
  exists out, attention_output xq output lw = Ok out /\ shape out = [B; S; Do].
Proof.
  intros Sq So Hwo HB HS. unfold attention_output.
  destruct (@transpose_0213 _ output B nh S hd So) as (o & -> & Sot).
  cbn [bind]. rewrite Sq. cbn [nth]. unfold reshape. rewrite Sot.
  change [Z.of_nat B; Z.of_nat S; (-1)%Z] with (dims [B; S] ++ (-1)%Z :: dims []).
  rewrite (@resolve_shape_wild _ [B; S] [] (nh * hd)).
  - cbn [bind app]. rewrite (transpose_T_2 _ Hwo). cbn [bind].
    match goal with
    | |- context [dot ?a ?b] =>
        destruct (@dot_3 a b B S (nh * hd) Do eq_refl eq_refl) as (out & -> & Sout & _)
    end.
    exists out. split; [reflexivity | exact Sout].
  - unfold size. cbn [fold_right]. nia.
  - unfold size. cbn [fold_right]. nia.
Qed.

Lemma last_query_4 {A} (t : tensor A) (a b c d : nat) :
  shape t = [a; b; c; d] -> 0 < c ->
  exists l, last_query t = Ok l /\ shape l = [a; b; d].
Proof.
  intros Hs Hc. unfold last_query. rewrite Hs.
  assert (E : (c =? 0) = false) by (apply Nat.eqb_neq; lia). rewrite E.
  eexists. split; reflexivity.
Qed.

Lemma broadcast2_same3 {A B0 C0} (f : A -> B0 -> C0) (x : tensor A)
  (y : tensor B0) (B S D : nat) :
  shape x = [B; S; D] -> shape y = [B; S; D] ->
  exists z, broadcast2 f x y = Ok z /\ shape z = [B; S; D].
Proof.
  intros Hx Hy. unfold broadcast2. rewrite Hx, Hy, broadcast_shapes3, bdim_refl.
  cbn [bind]. eexists. split; reflexivity.
Qed.

Section LayerReturns.
Context {FL : FloatLib}.

(** Lines 67-88 on well-formed arguments with
    [cur_pos + seqlen = head_dim] and no additive mask. *)
Lemma attention_shapes (x : tensor fval) (lw : LayerWeights)
  (mp : ModelParams) (cur_pos layer_idx : nat) (f : tensor cval)
  (cache : KVCache) (B S Dm F M r nl maxlen : nat) :
  shape x = [B; S; Dm] -> layer_fits lw mp Dm F ->
  head_dim mp = 2 * M -> shape f = [S; M] ->
  n_local_heads mp = n_local_kv_heads mp * r ->
  0 < n_local_kv_heads mp -> 0 < r -> 0 < B -> 0 < S -> 0 < M ->
  cache_fits cache mp nl B maxlen ->
  layer_idx < nl -> cur_pos + S <= maxlen ->
  cur_pos + S = head_dim mp ->
  exists out cache' pre,
    attention x lw mp cur_pos layer_idx f cache None = Ok (out, cache', pre) /\
    shape out = [B; S; Dm] /\
    shape pre = [B; n_local_heads mp; S; cur_pos + S] /\
    cache_fits cache' mp nl B maxlen.
Proof.
  intros Hx (Hwq & Hwk & Hwv & Hwo & _) Hhd Hf Hnh Hkvh Hr HB HS HM
    [Hck Hcv] Hl Hcap Hkv.
  destruct (@attention_operands_shapes x lw mp cur_pos layer_idx f cache
              B S Dm M r nl maxlen Hx Hwq Hwk Hwv Hhd Hf Hnh Hkvh Hr HB HS HM
              Hck Hcv Hl Hcap)
    as (xq & keys & values & cache' & E & Sq & Sk & Sv & Sck & Scv).
  unfold attention. rewrite E. cbn [bind].
  rewrite Hkv in Sk, Sv.
  assert (HD : head_dim mp <> 0) by lia.
  destruct (@sageattn_4 FL xq keys values mp (0 <? cur_pos) true
              B (n_local_heads mp) S (head_dim mp) (head_dim mp) Sq Sk Sv HD)
    as (s & pre & o & Es & Eo & So & _).
  destruct (@softmax_input_4 FL xq keys mp (0 <? cur_pos) true
              B (n_local_heads mp) S (head_dim mp) Sq Sk HD)
    as (k' & s2 & pre2 & _ & Es2 & _ & Sp & _).
  rewrite Es in Es2. inversion Es2; subst s2 pre2.
  rewrite Eo. cbn [bind].
  destruct (@attention_output_3 xq o lw B (n_local_heads mp) S (head_dim mp) Dm
              Sq So Hwo HB HS) as (out & -> & Sout).
  cbn [bind]. exists out, cache', pre. split; [reflexivity|].
  split; [exact Sout|]. split; [now rewrite Hkv|].
  split; congruence.
Qed.

(** X29.  The other side of the kernel's shape condition: on a
    well-formed layer with [cur_pos + seqlen = head_dim] and no mask,
    [attention] returns an output of the shape of its input
    [batch, seqlen, dim], scores of shape
    [batch, heads, seqlen, cur_pos + seqlen], and a cache of the shape
    it was given. *)
Theorem attention_returns_when_kv_len_is_head_dim (x : tensor fval)
  (lw : LayerWeights) (mp : ModelParams) (cur_pos layer_idx : nat)
  (f : tensor cval) (cache : KVCache) (B S Dm F M r nl maxlen : nat) :
  shape x = [B; S; Dm] -> layer_fits lw mp Dm F ->
  head_dim mp = 2 * M -> shape f = [S; M] ->
  n_local_heads mp = n_local_kv_heads mp * r ->
  0 < n_local_kv_heads mp -> 0 < r -> 0 < B -> 0 < S -> 0 < M ->
  cache_fits cache mp nl B maxlen ->
  layer_idx < nl -> cur_pos + S <= maxlen ->
  cur_pos + S = head_dim mp ->
  exists out cache' pre,
    attention x lw mp cur_pos layer_idx f cache None = Ok (out, cache', pre) /\
    shape out = [B; S; Dm] /\
    shape pre = [B; n_local_heads mp; S; cur_pos + S] /\
    cache_fits cache' mp nl B maxlen.
Proof.
  intros. eapply attention_shapes; eassumption.
Qed.

(** ** C9: the causal mask of a layer *)

(** C9.  Whenever [attention] returns, the tensor [s] that line 60
    hands to [jax.nn.softmax] is determined by [cur_pos]: [s1] being
    the dequantized scores of the layer's operands with the additive
    mask applied, at [cur_pos = 0] it is [s1] itself, whatever the
    shape of [x] (so whatever the sequence length), and at any
    [cur_pos > 0] it is [s1] with every entry whose key index exceeds
    its query index replaced by -inf.  And [attention] does return on
    well-formed arguments with no additive mask and
    [cur_pos + seqlen = head_dim], at [cur_pos = 0] and above. *)
Theorem attention_causal_flag (x : tensor fval)
  (lw : LayerWeights) (mp : ModelParams) (cur_pos layer_idx : nat)
  (freqs_cis : tensor cval) (kvcache : KVCache) :
  (forall (attn_mask : option (tensor fval))
     (out : tensor fval) (cache' : KVCache) (pre : tensor fval),
     attention x lw mp cur_pos layer_idx freqs_cis kvcache attn_mask
     = Ok (out, cache', pre) ->
     exists xq keys values k' sc s1 s o,
       attention_operands x lw mp cur_pos layer_idx freqs_cis kvcache
       = Ok (xq, keys, values, cache') /\
       smooth true keys = Ok k' /\
       dequantized_scores xq k' = Ok sc /\
       add_mask attn_mask sc = Ok s1 /\
       (cur_pos = 0 -> s = s1) /\
       (0 < cur_pos -> causally_masked s1 s) /\
       weighted_values s values = Ok o /\
       attention_output xq o lw = Ok out) /\
  (forall B S Dm F M r nl maxlen : nat,
     shape x = [B; S; Dm] -> layer_fits lw mp Dm F ->
     head_dim mp = 2 * M -> shape freqs_cis = [S; M] ->
     n_local_heads mp = n_local_kv_heads mp * r ->
     0 < n_local_kv_heads mp -> 0 < r -> 0 < B -> 0 < S -> 0 < M ->
     cache_fits kvcache mp nl B maxlen ->
     layer_idx < nl -> cur_pos + S <= maxlen ->
     cur_pos + S = head_dim mp ->
     exists out cache' pre,
       attention x lw mp cur_pos layer_idx freqs_cis kvcache None
       = Ok (out, cache', pre)).
Proof.
  split.
  - intros attn_mask out cache' pre. unfold attention. intros E.
    apply bind_ok in E as ([[[xq keys] values] c] & Eop & E).
    apply bind_ok in E as ([output pre'] & Ek & E).
    apply bind_ok in E as (out' & Eout & E).
    inversion E; subst out' c pre'. clear E.
    unfold sageattn in Ek.
    apply bind_ok in Ek as ([s p] & Es & Ek).
    apply bind_ok in Ek as (o & Eo & Ek).
    inversion Ek; subst o p. clear Ek.
    apply softmax_input_inv in Es as (k' & sc & s1 & Ek' & Esc & Es1 & Ecm & _).
    exists xq, keys, values, k', sc, s1, s, output.
    repeat (split; [assumption|]).
    split; [|split; [|split; assumption]].
    + intros ->. cbn in Ecm. now inversion Ecm.
    + intros Hpos. apply causal_mask_on.
      apply Nat.ltb_lt in Hpos. now rewrite Hpos in Ecm.
  - intros B S Dm F M r nl maxlen
      Hx Hfit Hhd Hf Hnh Hkvh Hr HB HS HM Hc Hl Hcap Hkv.
    destruct (@attention_shapes x lw mp cur_pos layer_idx freqs_cis kvcache
                B S Dm F M r nl maxlen
                Hx Hfit Hhd Hf Hnh Hkvh Hr HB HS HM Hc Hl Hcap Hkv)
      as (out & cache' & pre & E & _).
    exists out, cache', pre. exact E.
Qed.

Variable AttnStats : Type.
Variable stats_new : nat -> nat -> nat -> AttnStats.
Variable stats_update : AttnStats -> tensor fval -> nat -> AttnStats.

Local Abbreviation Carry := (Carry AttnStats).

(** One iteration of the loop keeps the shapes of the carry. *)
Lemma layer_body_shapes (w : XfmrWeights) (lw : LayerWeights)
  (mp : ModelParams) (cur_pos i : nat) (f : tensor cval) (c : Carry)
  (B S Dm F M r nl maxlen : nat) :
  nth_error (layer_weights w) i = Some lw -> layer_fits lw mp Dm F ->
  shape (c_h c) = [B; S; Dm] -> cache_fits (c_kvcache c) mp nl B maxlen ->
  head_dim mp = 2 * M -> shape f = [S; M] ->
  n_local_heads mp = n_local_kv_heads mp * r ->
  0 < n_local_kv_heads mp -> 0 < r -> 0 < B -> 0 < S -> 0 < M ->
  i < nl -> cur_pos + S <= maxlen -> cur_pos + S = head_dim mp ->
  exists c' sc,
    layer_body stats_update w mp cur_pos f None i c = Ok c' /\
    shape (c_h c') = [B; S; Dm] /\ cache_fits (c_kvcache c') mp nl B maxlen /\
    c_scores c' = Some sc /\
    shape sc = [B; n_local_heads mp; S; cur_pos + S].
Proof.
  intros Hlw Hfit Hh Hc Hhd Hf Hnh Hkvh Hr HB HS HM Hi Hcap Hkv.
  pose proof Hfit as (_ & _ & _ & _ & Hw1 & Hw3 & Hw2 & Han & Hfn).
  unfold layer_body, nth_layer. rewrite Hlw. cbn [bind].
  destruct (@rms_norm_3 FL (c_h c) (attention_norm lw) B S Dm Hh Han)
    as (nx & -> & Snx & _).
  cbn [bind].
  destruct (@attention_shapes nx lw mp cur_pos i f (c_kvcache c)
              B S Dm F M r nl maxlen Snx Hfit Hhd Hf Hnh Hkvh Hr HB HS HM
              Hc Hi Hcap Hkv) as (ha & cache' & pre & -> & Sha & Spre & Hc').
  cbn [bind].
  destruct (@last_query_4 _ pre B (n_local_heads mp) S (cur_pos + S) Spre HS)
    as (ls & -> & _).
  cbn [bind].
  destruct (@broadcast2_same3 _ _ _ fadd (c_h c) ha B S Dm Hh Sha)
    as (h1 & -> & Sh1).
  cbn [bind].
  destruct (@rms_norm_3 FL h1 (ffn_norm lw) B S Dm Sh1 Hfn) as (n & -> & Sn & _).
  cbn [bind].
  destruct (@feed_forward_3 FL n lw B S Dm F Dm Sn Hw1 Hw3 Hw2)
    as (ff & -> & Sff & _).
  cbn [bind].
  destruct (@broadcast2_same3 _ _ _ fadd h1 ff B S Dm Sh1 Sff) as (h2 & -> & Sh2).
  cbn [bind]. eexists _, pre. split; [reflexivity|].
  cbn [c_h c_kvcache c_scores]. auto.
Qed.

(** The loop over layers [a .. a + n - 1], all well-formed. *)
Lemma for_each_shapes (w : XfmrWeights) (mp : ModelParams) (cur_pos : nat)
  (f : tensor cval) (B S Dm F M r nl maxlen : nat) (n a : nat) (c : Carry) :
  (forall i, a <= i < a + n ->
     exists lw, nth_error (layer_weights w) i = Some lw /\
                layer_fits lw mp Dm F) ->
  shape (c_h c) = [B; S; Dm] -> cache_fits (c_kvcache c) mp nl B maxlen ->
  head_dim mp = 2 * M -> shape f = [S; M] ->
  n_local_heads mp = n_local_kv_heads mp * r ->
  0 < n_local_kv_heads mp -> 0 < r -> 0 < B -> 0 < S -> 0 < M ->
  a + n <= nl -> cur_pos + S <= maxlen -> cur_pos + S = head_dim mp ->
  exists c',
    for_each (layer_body stats_update w mp cur_pos f None) (seq a n) c = Ok c' /\
    shape (c_h c') = [B; S; Dm] /\ cache_fits (c_kvcache c') mp nl B maxlen /\
    (0 < n -> exists sc, c_scores c' = Some sc /\
                shape sc = [B; n_local_heads mp; S; cur_pos + S]).
Proof.
  revert a c. induction n as [|n IH]; intros a c Hw Hh Hc Hhd Hf Hnh Hkvh Hr
    HB HS HM Hnl Hcap Hkv.
  - exists c. cbn [seq for_each]. split; [reflexivity|]. split; [exact Hh|].
    split; [exact Hc|]. intros H0. inversion H0.
  - destruct (Hw a ltac:(lia)) as (lw & Hlw & Hfit).
    destruct (@layer_body_shapes w lw mp cur_pos a f c B S Dm F M r nl maxlen
                Hlw Hfit Hh Hc Hhd Hf Hnh Hkvh Hr HB HS HM ltac:(lia) Hcap Hkv)
      as (c1 & sc & E1 & Sh1 & Hc1 & Esc & Ssc).
    cbn [seq for_each]. rewrite E1. cbn [bind].
    destruct (IH (Datatypes.S a) c1) as (c' & E & Sh' & Hc' & Hsc');
      try assumption; try lia.
    { intros i Hi. apply Hw. lia. }
    exists c'. split; [exact E|]. split; [exact Sh'|]. split; [exact Hc'|].
    intros _. destruct n as [|n'].
    + cbn [seq for_each] in E. inversion E; subst c'. eauto.
    + apply Hsc'. lia.
Qed.

(** Lines 95-109 on well-formed arguments with
    [cur_pos + seqlen = head_dim] and no additive mask. *)
Lemma xfmr_shapes (w : XfmrWeights)
  (mp : ModelParams) (tokens : tensor nat) (cur_pos : nat) (f : tensor cval)
  (cache : KVCache) (B S V Vout Dm F M r nl maxlen : nat) :
  shape tokens = [B; S] -> shape (tok_embeddings w) = [V; Dm] ->
  shape (norm w) = [Dm] -> shape (output w) = [Vout; Dm] ->
  0 < n_layers mp -> n_layers mp <= nl ->
  (forall i, i < n_layers mp ->
     exists lw, nth_error (layer_weights w) i = Some lw /\
                layer_fits lw mp Dm F) ->
  cache_fits cache mp nl B maxlen ->
  head_dim mp = 2 * M -> shape f = [S; M] ->
  n_local_heads mp = n_local_kv_heads mp * r ->
  0 < n_local_kv_heads mp -> 0 < r -> 0 < B -> 0 < S -> 0 < M ->
  cur_pos + S <= maxlen -> cur_pos + S = head_dim mp ->
  exists logits cache' scores stats,
    xfmr stats_new stats_update w mp tokens cur_pos f cache None
      = Ok (logits, cache', scores, stats) /\
    shape logits = [B; S; Vout] /\
    shape scores = [B; n_local_heads mp; S; cur_pos + S] /\
    cache_fits cache' mp nl B maxlen.
Proof.
  intros Ht He Hn Ho Hl0 Hlnl Hw Hc Hhd Hf Hnh Hkvh Hr HB HS HM Hcap Hkv.
  unfold xfmr, gather. rewrite He, Ht. cbn [bind app].
  match goal with
  | |- context [for_each ?b (seq 0 ?n) ?c0] =>
      destruct (@for_each_shapes w mp cur_pos f B S Dm F M r nl maxlen n 0 c0)
        as (c' & -> & Sh & Hc' & Hsc); try assumption; try reflexivity
  end.
  { intros i Hi. apply Hw. lia. }
  cbn [bind]. destruct (Hsc Hl0) as (sc & Esc & Ssc).
  destruct (@rms_norm_3 FL (c_h c') (norm w) B S Dm Sh Hn) as (n & -> & Sn & _).
  cbn [bind]. rewrite (transpose_T_2 _ Ho). cbn [bind].
  match goal with
  | |- context [dot ?a ?b] =>
      destruct (@dot_3 a b B S Dm Vout Sn eq_refl) as (lg & -> & Slg & _)
  end.
  cbn [bind]. rewrite Esc. eexists _, _, _, _. split; [reflexivity|]. auto.
Qed.


(** X30.  The forward pass returns on a prompt whose positions fill
    [head_dim]: with well-formed embedding, layers, final norm, output
    matrix, frequencies and cache, no mask, and
    [cur_pos + seqlen = head_dim], [xfmr] returns logits of shape
    [batch, seqlen, vocabulary] and the scores
    [batch, heads, seqlen, cur_pos + seqlen] of its last layer. *)
Theorem xfmr_returns_when_kv_len_is_head_dim (w : XfmrWeights)
  (mp : ModelParams) (tokens : tensor nat) (cur_pos : nat) (f : tensor cval)
  (cache : KVCache) (B S V Vout Dm F M r nl maxlen : nat) :
  shape tokens = [B; S] -> shape (tok_embeddings w) = [V; Dm] ->
  shape (norm w) = [Dm] -> shape (output w) = [Vout; Dm] ->
  0 < n_layers mp -> n_layers mp <= nl ->
  (forall i, i < n_layers mp ->
     exists lw, nth_error (layer_weights w) i = Some lw /\
                layer_fits lw mp Dm F) ->
  cache_fits cache mp nl B maxlen ->
  head_dim mp = 2 * M -> shape f = [S; M] ->
  n_local_heads mp = n_local_kv_heads mp * r ->
  0 < n_local_kv_heads mp -> 0 < r -> 0 < B -> 0 < S -> 0 < M ->
  cur_pos + S <= maxlen -> cur_pos + S = head_dim mp ->
  exists logits cache' scores stats,
    xfmr stats_new stats_update w mp tokens cur_pos f cache None
      = Ok (logits, cache', scores, stats) /\
    shape logits = [B; S; Vout] /\
    shape scores = [B; n_local_heads mp; S; cur_pos + S] /\
    cache_fits cache' mp nl B maxlen.
Proof.
  intros. eapply xfmr_shapes; eassumption.
Qed.

(** ** C10: every layer runs *)


End LayerReturns.

Lemma tiny_layer_fits : layer_fits tiny_layer two_layer_params 2 2.
Proof. repeat split. Qed.


(** [attention_causal_flag] at a two-token prefill ([cur_pos = 0]) and
    at a decode step of one token at [cur_pos = 1], both of which
    return. *)
Lemma attention_causal_flag_witness :
  (exists out cache' pre xq keys values k' sc s1 s o,
     @attention RefLib (tmap Fin act2) tiny_layer two_layer_params 0 1
       tiny_freqs two_layer_cache None = Ok (out, cache', pre) /\
     attention_operands (tmap Fin act2) tiny_layer two_layer_params
       0 1 tiny_freqs two_layer_cache = Ok (xq, keys, values, cache') /\
     smooth true keys = Ok k' /\
     dequantized_scores xq k' = Ok sc /\
     add_mask None sc = Ok s1 /\
     (0 = 0 -> s = s1) /\
     (0 < 0 -> causally_masked s1 s) /\
     @weighted_values RefLib s values = Ok o /\
     attention_output xq o tiny_layer = Ok out) /\
  (exists out cache' pre xq keys values k' sc s1 s o,
     @attention RefLib (tmap Fin act1) tiny_layer two_layer_params 1 1
       one_freq two_layer_cache None = Ok (out, cache', pre) /\
     attention_operands (tmap Fin act1) tiny_layer two_layer_params
       1 1 one_freq two_layer_cache = Ok (xq, keys, values, cache') /\
     smooth true keys = Ok k' /\
     dequantized_scores xq k' = Ok sc /\
     add_mask None sc = Ok s1 /\
     (1 = 0 -> s = s1) /\
     (0 < 1 -> causally_masked s1 s) /\
     @weighted_values RefLib s values = Ok o /\
     attention_output xq o tiny_layer = Ok out).
Proof.
  split.
  - destruct (@attention_causal_flag RefLib (tmap Fin act2) tiny_layer
                two_layer_params 0 1 tiny_freqs two_layer_cache)
      as [Mask Returns].
    destruct (Returns 1 2 2 2 1 1 2 4) as (out & cache' & pre & E);
      try reflexivity; try (simpl; lia); try (split; reflexivity);
      [exact tiny_layer_fits|].
    exists out, cache', pre.
    destruct (Mask None out cache' pre E)
      as (xq & keys & values & k' & sc & s1 & s & o & H).
    exists xq, keys, values, k', sc, s1, s, o. split; [exact E | exact H].
  - destruct (@attention_causal_flag RefLib (tmap Fin act1) tiny_layer
                two_layer_params 1 1 one_freq two_layer_cache)
      as [Mask Returns].
    destruct (Returns 1 1 2 2 1 1 2 4) as (out & cache' & pre & E);
      try reflexivity; try (simpl; lia); try (split; reflexivity);
      [exact tiny_layer_fits|].
    exists out, cache', pre.
    destruct (Mask None out cache' pre E)
      as (xq & keys & values & k' & sc & s1 & s & o & H).
    exists xq, keys, values, k', sc, s1, s, o. split; [exact E | exact H].
Defined.

(** The decode step of the witness: with one query row the mask leaves
    key 0 and sends key 1, the step's own position, to -inf. *)
Example decode_step_masks_own_key :
  forall s1 s : tensor fval,
    shape s1 = [1; 1; 1; 2] -> causally_masked s1 s ->
    get s [0; 0; 0; 0] = get s1 [0; 0; 0; 0] /\ get s [0; 0; 0; 1] = NInf.
Proof.
  intros s1 s Hs (_ & _ & V). unfold rank in V. rewrite Hs in V.
  split; [exact (V [0; 0; 0; 0]) | exact (V [0; 0; 0; 1])].
Qed.

Lemma attention_returns_when_kv_len_is_head_dim_witness :
  exists out cache' pre,
    @attention RefLib (tmap Fin act2) tiny_layer two_layer_params 0 1
      tiny_freqs two_layer_cache None
    = Ok (out, cache', pre) /\
    shape out = [1; 2; 2] /\
    shape pre = [1; n_local_heads two_layer_params; 2; 0 + 2] /\
    cache_fits cache' two_layer_params 2 1 4.
Proof.
  apply (@attention_returns_when_kv_len_is_head_dim RefLib (tmap Fin act2)
           tiny_layer two_layer_params 0 1 tiny_freqs two_layer_cache
           1 2 2 2 1 1 2 4);
    try reflexivity; try (simpl; lia); try (split; reflexivity).
  exact tiny_layer_fits.
Defined.

Lemma xfmr_returns_when_kv_len_is_head_dim_witness :
  exists logits cache' scores stats,
    @xfmr RefLib StatsLog log_new log_update two_layer_weights
      two_layer_params tiny_tokens 0 tiny_freqs two_layer_cache None
    = Ok (logits, cache', scores, stats) /\
    shape logits = [1; 2; 3] /\
    shape scores = [1; n_local_heads two_layer_params; 2; 0 + 2] /\
    cache_fits cache' two_layer_params 2 1 4.
Proof.
  apply (@xfmr_returns_when_kv_len_is_head_dim RefLib StatsLog log_new
           log_update two_layer_weights two_layer_params tiny_tokens 0
           tiny_freqs two_layer_cache 1 2 3 3 2 2 1 1 2 4);
    try reflexivity; try (simpl; lia); try (split; reflexivity).
  intros [|[|i]] Hi; [| |simpl in Hi; lia];
    (exists tiny_layer; split; [reflexivity | exact tiny_layer_fits]).
Defined.
